(** * Browser SVG editor: the tree-editing engine of the [App] component

    A shallow embedding of the editing engine (tree model, attribute/style
    reconciler, selection manager, history engine, import and export) and
    the properties its specification states about it.

    Conventions of the embedding.
    - A JavaScript string is a [string]; its characters are code units in
      the range 0..255.
    - [undefined] and [null] are [None].
    - A [Record<string,string>] is an association list in the order that
      [Object.entries] enumerates it; its keys are taken not to name a
      member of [Object.prototype].
    - A [Set<string>] is a duplicate-free list in insertion order, which is
      the order [Array.from] and [forEach] see.
    - React state is one record; each handler is a function from the state
      of the render that created it to the state of the next render.
    - Pointer positions are integers.
    - Time is counted in milliseconds; a timer runs when the event loop
      reaches the time it is due. *)

From Stdlib Require Import String Ascii List Bool Arith ZArith NArith Lia.
From Stdlib Require Import DecimalString.
From Stdlib Require DecimalNat DecimalFacts.
From Stdlib Require Import Permutation.
Import ListNotations.

Local Open Scope list_scope.
Local Open Scope string_scope.

(** ** JavaScript string primitives *)

Module JsString.

(** [s.length > 0], the truthiness of a string. *)
Definition truthy (s : string) : bool :=
  match s with EmptyString => false | String _ _ => true end.

(** White space as [String.prototype.trim] sees it, for code units below
    256: TAB, LF, VT, FF, CR, SPACE and NBSP. *)
Definition is_white (c : ascii) : bool :=
  let n := nat_of_ascii c in
  (((9 <=? n) && (n <=? 13)) || (n =? 32) || (n =? 160))%nat.

Fixpoint trimStart (s : string) : string :=
  match s with
  | EmptyString => EmptyString
  | String c r => if is_white c then trimStart r else s
  end.

Fixpoint trimEnd (s : string) : string :=
  match s with
  | EmptyString => EmptyString
  | String c r =>
      match trimEnd r with
      | EmptyString => if is_white c then EmptyString else String c EmptyString
      | r' => String c r'
      end
  end.

Definition trim (s : string) : string := trimEnd (trimStart s).

(** [s.split(sep)] for a one-character separator.  The result of [split]
    is never the empty array, so it is returned as its first piece and
    the pieces after it. *)
Fixpoint split (sep : ascii) (s : string) : string * list string :=
  match s with
  | EmptyString => (EmptyString, [])
  | String c r =>
      let '(h, t) := split sep r in
      if Ascii.eqb c sep then (EmptyString, h :: t) else (String c h, t)
  end.

Definition pieces (p : string * list string) : list string := fst p :: snd p.

(** [l.join(sep)]. *)
Fixpoint join (sep : string) (l : list string) : string :=
  match l with
  | [] => EmptyString
  | [x] => x
  | x :: rest => x ++ sep ++ join sep rest
  end.

(** The one-character string holding a double quote. *)
Definition dquote : string := String (ascii_of_nat 34) EmptyString.

(** [String(n)] for a natural number. *)
Definition of_nat (n : nat) : string := NilZero.string_of_uint (Nat.to_uint n).

(** [needle] occurs in [s] as a contiguous run of characters. *)
Definition occurs_in (needle s : string) : Prop :=
  exists pre post, s = pre ++ needle ++ post.

End JsString.

(** ** Plain objects used as string maps *)

Module JsObject.

Definition t := list (string * string).

(** [o[k]]: [None] is [undefined]. *)
Fixpoint get (k : string) (o : t) : option string :=
  match o with
  | [] => None
  | (k', v) :: r => if String.eqb k' k then Some v else get k r
  end.

Definition is_digit (c : ascii) : bool :=
  let n := nat_of_ascii c in ((48 <=? n) && (n <=? 57))%nat.

Fixpoint digits_value (acc : N) (s : string) : option N :=
  match s with
  | EmptyString => Some acc
  | String c r =>
      if is_digit c
      then digits_value (acc * 10 + N.of_nat (nat_of_ascii c - 48)) r
      else None
  end.

(** A property key that is an array index: the canonical decimal form of
    an integer below 2^32 - 1.  Such keys are enumerated first, in
    ascending numeric order, whatever the order of insertion. *)
Definition array_index (k : string) : option N :=
  match k with
  | EmptyString => None
  | String c r =>
      if Ascii.eqb c "0"%char && JsString.truthy r then None
      else match digits_value 0 k with
           | Some n => if (n <? 4294967295)%N then Some n else None
           | None => None
           end
  end.

Fixpoint mem (k : string) (o : t) : bool :=
  match o with
  | [] => false
  | (k', _) :: r => String.eqb k' k || mem k r
  end.

Fixpoint replace (k v : string) (o : t) : t :=
  match o with
  | [] => []
  | (k', v') :: r =>
      if String.eqb k' k then (k, v) :: r else (k', v') :: replace k v r
  end.

(** Position of a new array-index key [n]: before the first key that is
    not an array index or is a larger one. *)
Fixpoint insert_index (n : N) (k v : string) (o : t) : t :=
  match o with
  | [] => [(k, v)]
  | (k', v') :: r =>
      match array_index k' with
      | Some m => if (m <? n)%N then (k', v') :: insert_index n k v r
                  else (k, v) :: o
      | None => (k, v) :: o
      end
  end.

(** [o[k] = v]: an existing key keeps its place, a new key goes last
    (or to its numeric place when it is an array index). *)
Definition set (k v : string) (o : t) : t :=
  if mem k o then replace k v o
  else match array_index k with
       | Some n => insert_index n k v o
       | None => (o ++ [(k, v)])%list
       end.

(** [delete o[k]]. *)
Definition delete (k : string) (o : t) : t :=
  filter (fun kv => negb (String.eqb (fst kv) k)) o.

End JsObject.

(** ** Sets of ids, in insertion order *)

Module JsSet.

Definition t := list string.

Definition has (x : string) (s : t) : bool :=
  existsb (String.eqb x) s.

Definition add (x : string) (s : t) : t :=
  if has x s then s else (s ++ [x])%list.

Definition delete (x : string) (s : t) : t :=
  filter (fun y => negb (String.eqb x y)) s.

(** [new Set(array)]. *)
Definition of_list (l : list string) : t :=
  fold_left (fun s x => add x s) l [].

Definition size (s : t) : nat := length s.

(** [Array.from(s)[0]]. *)
Definition first (s : t) : option string := hd_error s.

End JsSet.

(** ** The tree model *)

(** [type SvgNode = { id, tag, attrs, children, text? }]. *)
#[local] Unset Elimination Schemes.
Inductive SvgNode : Type := mkNode {
  id : string;
  tag : string;
  attrs : JsObject.t;
  children : list SvgNode;
  text : option string
}.
#[local] Set Elimination Schemes.

Definition set_attrs (a : JsObject.t) (n : SvgNode) : SvgNode :=
  mkNode (id n) (tag n) a (children n) (text n).

Definition set_children (c : list SvgNode) (n : SvgNode) : SvgNode :=
  mkNode (id n) (tag n) (attrs n) c (text n).

(** [s ?? ''] *)
Definition or_empty (s : option string) : string :=
  match s with Some x => x | None => EmptyString end.

(** [serializeNode]. *)
Fixpoint serializeNode (node : SvgNode) : string :=
  if String.eqb (tag node) "#text" then or_empty (text node)
  else
    let attrString :=
      JsString.join " "
        (map (fun kv => fst kv ++ "=" ++ JsString.dquote ++ snd kv ++ JsString.dquote)
           (filter (fun kv => negb (String.eqb (fst kv) "data-id")) (attrs node))) in
    let open :=
      if JsString.truthy attrString
      then "<" ++ tag node ++ " " ++ attrString ++ ">"
      else "<" ++ tag node ++ ">" in
    let inner :=
      or_empty (text node)
      ++ JsString.join "" (map serializeNode (children node)) in
    open ++ inner ++ "</" ++ tag node ++ ">".

(** [cloneNode]: a deep copy.  On values, which have no identity, the copy
    is the node itself ([cloneNode_id] below). *)
Fixpoint cloneNode (node : SvgNode) : SvgNode :=
  mkNode (id node) (tag node) (attrs node)
         (map cloneNode (children node)) (text node).

(** *** Style strings *)

(** One [key: value] entry of a style string after [p.split(':')]: the
    array's first element and the elements after it. *)
Definition Entry : Type := string * list string.

Definition entry_k (e : Entry) : string := fst e.

(** [e[1]], [undefined] when the entry had no colon. *)
Definition entry_v (e : Entry) : option string := hd_error (snd e).

(** [style.split(';').map(trim).filter(Boolean).map(p => p.split(':').map(trim))] *)
Definition styleEntries (style : string) : list Entry :=
  map (fun p => let '(k, r) := JsString.split ":" p in
                (JsString.trim k, map JsString.trim r))
      (filter JsString.truthy
         (map JsString.trim (JsString.pieces (JsString.split ";" style)))).

(** [getStyleValue]. *)
Definition getStyleValue (style : option string) (key : string) : option string :=
  match style with
  | None => None
  | Some s =>
      if negb (JsString.truthy s) then None
      else match find (fun e => String.eqb (entry_k e) key) (styleEntries s) with
           | Some found => entry_v found
           | None => None
           end
  end.

(** A template literal prints [undefined] as the word. *)
Definition template (v : option string) : string :=
  match v with Some x => x | None => "undefined" end.

(** [applyStyleValue]. *)
Definition applyStyleValue (style : option string) (key : string)
    (value : option string) : string :=
  let entries :=
    match style with
    | Some s =>
        if JsString.truthy s
        then filter (fun e => negb (String.eqb (entry_k e) key)
                              && JsString.truthy (entry_k e))
                    (styleEntries s)
        else []
    | None => []
    end in
  let entries :=
    match value with
    | Some v => if JsString.truthy v then (entries ++ [(key, [v])])%list else entries
    | None => entries
    end in
  match entries with
  | [] => EmptyString
  | _ => JsString.join "; "
           (map (fun e => entry_k e ++ ": " ++ template (entry_v e)) entries)
  end.

(** [getAttrOrStyle]. *)
Definition getAttrOrStyle (node : option SvgNode) (key : string) : option string :=
  match node with
  | None => None
  | Some n =>
      match JsObject.get key (attrs n) with
      | Some v => Some v
      | None => getStyleValue (JsObject.get "style" (attrs n)) key
      end
  end.

(** *** Traversals *)

(** [l.map(f)] where [f] may fail to return. *)
Fixpoint map_opt {A B : Type} (f : A -> option B) (l : list A) : option (list B) :=
  match l with
  | [] => Some []
  | x :: r =>
      match f x with
      | Some y => match map_opt f r with
                  | Some ys => Some (y :: ys)
                  | None => None
                  end
      | None => None
      end
  end.

(** [updateNode].  The recursion runs over the children of the clone, and
    a mutation is an arbitrary function, so the calls are counted by
    [fuel]; [None] is a run that has not returned within it. *)
Fixpoint updateNode (fuel : nat) (node : SvgNode) (id0 : string)
    (mutate : SvgNode -> SvgNode) : option SvgNode :=
  match fuel with
  | O => None
  | S fuel' =>
      if String.eqb (id node) id0 then Some (mutate (cloneNode node))
      else
        let next := cloneNode node in
        match map_opt (fun child => updateNode fuel' child id0 mutate)
                      (children next) with
        | Some cs => Some (set_children cs next)
        | None => None
        end
  end.

(** [updateMultipleNodes]: the children visited are those the mutated
    clone has. *)
Fixpoint updateMultipleNodes (fuel : nat) (node : SvgNode) (ids : JsSet.t)
    (mutate : SvgNode -> SvgNode) : option SvgNode :=
  match fuel with
  | O => None
  | S fuel' =>
      let next := cloneNode node in
      let next := if JsSet.has (id node) ids then mutate next else next in
      match map_opt (fun child => updateMultipleNodes fuel' child ids mutate)
                    (children next) with
      | Some cs => Some (set_children cs next)
      | None => None
      end
  end.

(** Number of nested calls a traversal of [node] makes. *)
Fixpoint height (node : SvgNode) : nat :=
  S (fold_right (fun c h => Nat.max (height c) h) 0 (children node)).

(** [findNode] on a node that is there. *)
Fixpoint findNode_in (node : SvgNode) (id0 : string) : option SvgNode :=
  if negb (JsString.truthy id0) then None
  else if String.eqb (id node) id0 then Some node
  else (fix loop (cs : list SvgNode) : option SvgNode :=
          match cs with
          | [] => None
          | child :: rest =>
              match findNode_in child id0 with
              | Some found => Some found
              | None => loop rest
              end
          end) (children node).

(** [findNode]. *)
Definition findNode (node : option SvgNode) (id0 : option string) : option SvgNode :=
  match node, id0 with
  | Some n, Some i => findNode_in n i
  | _, _ => None
  end.

(** [findParent]. *)
Fixpoint findParent (node : SvgNode) (targetId : string) (parent : option SvgNode)
  : option SvgNode :=
  if String.eqb (id node) targetId then parent
  else (fix loop (cs : list SvgNode) : option SvgNode :=
          match cs with
          | [] => None
          | child :: rest =>
              match findParent child targetId (Some node) with
              | Some found => Some found
              | None => loop rest
              end
          end) (children node).

(** [assignNewIds]: [counter] is 0 when [newId] is built. *)
Definition newId (baseId : string) : string :=
  let counter := 0 in
  baseId ++ "-copy" ++ (if Nat.ltb 0 counter then "-" ++ JsString.of_nat counter else "").

Fixpoint assignIds (baseId : string) (n : SvgNode) : SvgNode :=
  let childId := if String.eqb (id n) baseId then newId baseId
                 else id n ++ "-copy" in
  mkNode childId (tag n) (JsObject.set "data-id" childId (attrs n))
         (map (assignIds baseId) (children n)) (text n).

Definition assignNewIds (node : SvgNode) (baseId : string) : SvgNode :=
  assignIds baseId node.

(** [getAllSelectableIds]. *)
Fixpoint getAllNodeIds (rootId : string) (node : SvgNode) : list string :=
  ((if negb (String.eqb (id node) rootId) && negb (String.eqb (tag node) "#text")
    then [id node] else [])
   ++ flat_map (getAllNodeIds rootId) (children node))%list.

Definition getAllSelectableIds (tree : SvgNode) : list string :=
  getAllNodeIds (id tree) tree.

(** Every id of the tree, one per node, in document order. *)
Fixpoint allIds (node : SvgNode) : list string :=
  id node :: flat_map allIds (children node).

(** ** Import: the sanitized DOM and [parseSvgString] *)

(** What [walk] reads of the DOM: an element's [tagName], [attributes] and
    [childNodes]; a child is an element ([nodeType] 1), a text node
    ([nodeType] 3) with its [textContent], or of another type. *)
Inductive Element : Type :=
  mkElement (tagName : string) (attributes : list (string * string))
            (childNodes : list ChildNode)
with ChildNode : Type :=
  | ElementChild (el : Element)
  | TextChild (textContent : string)
  | OtherChild.

Definition getAttribute (attributes : list (string * string)) (name : string)
  : option string :=
  JsObject.get name attributes.

(** [walk], with the closure's [counter] threaded through. *)
Fixpoint walk (el : Element) (counter : nat) : SvgNode * nat :=
  match el with
  | mkElement tagName attributes childNodes =>
      let '(id0, counter) :=
        match getAttribute attributes "data-id" with
        | Some a =>
            if JsString.truthy a then (a, counter)
            else match getAttribute attributes "id" with
                 | Some b => (b, counter)
                 | None => ("node-" ++ JsString.of_nat (S counter), S counter)
                 end
        | None =>
            match getAttribute attributes "id" with
            | Some b => (b, counter)
            | None => ("node-" ++ JsString.of_nat (S counter), S counter)
            end
        end in
      let attrs0 :=
        fold_left (fun o nv => JsObject.set (fst nv) (snd nv) o) attributes [] in
      let attrs0 := JsObject.set "data-id" id0 attrs0 in
      let '(children0, counter) :=
        (fix each (cs : list ChildNode) (acc : list SvgNode) (counter : nat)
           : list SvgNode * nat :=
           match cs with
           | [] => (acc, counter)
           | ElementChild child :: rest =>
               let '(n, counter) := walk child counter in
               each rest (acc ++ [n])%list counter
           | TextChild textContent :: rest =>
               let textContent := JsString.trim textContent in
               if JsString.truthy textContent
               then each rest
                      (acc ++ [mkNode ("text-" ++ JsString.of_nat (S counter))
                                      "#text" [] [] (Some textContent)])%list
                      (S counter)
               else each rest acc counter
           | OtherChild :: rest => each rest acc counter
           end) childNodes [] counter in
      (mkNode id0 tagName attrs0 children0 None, counter)
  end.

(** ** The editor state *)

(** The pending [setTimeout] of the debounced history save: when it is due
    (milliseconds), and the [history] and [historyIndex] that the
    [saveToHistory] closure it will call was created with. *)
Record Timer : Type := mkTimer {
  due : nat;
  saved_history : list SvgNode;
  saved_index : Z
}.

(** The [useState] cells and [useRef] boxes of [App] that the engine reads
    or writes, the pending timer and the clock of the event loop. *)
Record App : Type := mkApp {
  rawSvg : string;
  svgTree : option SvgNode;
  selectedIds : JsSet.t;
  error : option string;
  history : list SvgNode;
  historyIndex : Z;
  latestTreeRef : option SvgNode;
  hasDraggedRef : bool;
  mouseDownPosRef : option (Z * Z);
  pendingSave : option Timer;
  now : nat
}.

(** The initial render. *)
Definition initialApp : App :=
  mkApp "" None [] None [] (-1) None false None None 0.

Definition setSvgTree (t : option SvgNode) (s : App) : App :=
  mkApp (rawSvg s) t (selectedIds s) (error s) (history s) (historyIndex s)
        (latestTreeRef s) (hasDraggedRef s) (mouseDownPosRef s) (pendingSave s) (now s).

Definition setSelectedIds (ids : JsSet.t) (s : App) : App :=
  mkApp (rawSvg s) (svgTree s) ids (error s) (history s) (historyIndex s)
        (latestTreeRef s) (hasDraggedRef s) (mouseDownPosRef s) (pendingSave s) (now s).

Definition setHistory (h : list SvgNode) (i : Z) (s : App) : App :=
  mkApp (rawSvg s) (svgTree s) (selectedIds s) (error s) h i
        (latestTreeRef s) (hasDraggedRef s) (mouseDownPosRef s) (pendingSave s) (now s).

Definition setLatestTree (t : option SvgNode) (s : App) : App :=
  mkApp (rawSvg s) (svgTree s) (selectedIds s) (error s) (history s) (historyIndex s)
        t (hasDraggedRef s) (mouseDownPosRef s) (pendingSave s) (now s).

Definition setClickRefs (dragged : bool) (pos : option (Z * Z)) (s : App) : App :=
  mkApp (rawSvg s) (svgTree s) (selectedIds s) (error s) (history s) (historyIndex s)
        (latestTreeRef s) dragged pos (pendingSave s) (now s).

Definition setPendingSave (t : option Timer) (s : App) : App :=
  mkApp (rawSvg s) (svgTree s) (selectedIds s) (error s) (history s) (historyIndex s)
        (latestTreeRef s) (hasDraggedRef s) (mouseDownPosRef s) t (now s).

Definition setNow (t : nat) (s : App) : App :=
  mkApp (rawSvg s) (svgTree s) (selectedIds s) (error s) (history s) (historyIndex s)
        (latestTreeRef s) (hasDraggedRef s) (mouseDownPosRef s) (pendingSave s) t.

(** *** History *)

(** [l.slice(0, e)]. *)
Definition slice0 {A : Type} (l : list A) (e : Z) : list A :=
  if (e <? 0)%Z then firstn (Z.to_nat (Z.of_nat (length l) + e)) l
  else firstn (Z.to_nat e) l.

(** [l[i]]. *)
Definition at_index {A : Type} (l : list A) (i : Z) : option A :=
  if (i <? 0)%Z then None else nth_error l (Z.to_nat i).

(** [saveToHistory], a closure over the [history] and [historyIndex] of
    the render that made it. *)
Definition saveToHistory (history0 : list SvgNode) (historyIndex0 : Z)
    (tree : option SvgNode) (s : App) : App :=
  match tree with
  | None => s
  | Some t =>
      let newHistory := (slice0 history0 (historyIndex0 + 1) ++ [cloneNode t])%list in
      setHistory newHistory (Z.of_nat (length newHistory) - 1) s
  end.

(** [updateTreeWithHistory]. *)
Definition updateTreeWithHistory (newTree : option SvgNode) (s : App) : App :=
  match newTree with
  | None => s
  | Some _ =>
      let s := saveToHistory (history s) (historyIndex s) newTree s in
      setLatestTree newTree (setSvgTree newTree s)
  end.

(** [undo]; [None] is the [TypeError] of cloning an entry that is not
    there. *)
Definition undo (s : App) : option App :=
  if (0 <? historyIndex s)%Z then
    let newIndex := (historyIndex s - 1)%Z in
    match at_index (history s) newIndex with
    | Some entry =>
        let tree := cloneNode entry in
        Some (setLatestTree (Some tree)
                (setSvgTree (Some tree) (setHistory (history s) newIndex s)))
    | None => None
    end
  else Some s.

(** [redo]. *)
Definition redo (s : App) : option App :=
  if (historyIndex s <? Z.of_nat (length (history s)) - 1)%Z then
    let newIndex := (historyIndex s + 1)%Z in
    match at_index (history s) newIndex with
    | Some entry =>
        let tree := cloneNode entry in
        Some (setLatestTree (Some tree)
                (setSvgTree (Some tree) (setHistory (history s) newIndex s)))
    | None => None
    end
  else Some s.

(** *** Import *)

Section ImportPipeline.

(** The collaborators of the import: [DOMPurify.sanitize] with the SVG
    profile, [DOMParser.parseFromString] and
    [document.querySelector('svg')]. *)
Variable Document : Type.
Variable sanitize : string -> string.
Variable parseFromString : string -> Document.
Variable querySelector_svg : Document -> option Element.

(** [parseSvgString]. *)
Definition parseSvgString (raw : string) : option SvgNode * string :=
  let clean := sanitize raw in
  let doc := parseFromString clean in
  match querySelector_svg doc with
  | None => (None, clean)
  | Some root => (Some (fst (walk root 0)), clean)
  end.

(** [handleSvgInput]. *)
Definition handleSvgInput (value : string) (s : App) : App :=
  let '(tree, clean) := parseSvgString value in
  match tree with
  | None =>
      mkApp value None [] (Some "No <svg> tag found. Paste a valid SVG.")
            [] (-1) None (hasDraggedRef s) (mouseDownPosRef s)
            (pendingSave s) (now s)
  | Some t =>
      mkApp clean (Some t) [id t] None [cloneNode t] 0 (Some t)
            (hasDraggedRef s) (mouseDownPosRef s) (pendingSave s) (now s)
  end.

End ImportPipeline.

(** *** Selection *)

(** What [handleNodeClick] reads of the mouse event: the pointer position,
    the modifier keys and the [data-id] attribute of [currentTarget]. *)
Record MouseEvent : Type := mkMouseEvent {
  clientX : Z;
  clientY : Z;
  ctrlKey : bool;
  metaKey : bool;
  shiftKey : bool;
  currentTarget_data_id : option string
}.

(** [Math.sqrt(dx * dx + dy * dy) > 5]. *)
Definition moved_over_5px (down : Z * Z) (e : MouseEvent) : bool :=
  let dx := (clientX e - fst down)%Z in
  let dy := (clientY e - snd down)%Z in
  (25 <? dx * dx + dy * dy)%Z.

(** The toggle of [Ctrl/Cmd+Click] and of the plain click. *)
Definition toggle (nodeId : string) (prev : JsSet.t) : JsSet.t :=
  if JsSet.has nodeId prev then JsSet.delete nodeId prev else JsSet.add nodeId prev.

(** [handleNodeClick]. *)
Definition handleNodeClick (nodeId : string) (e : MouseEvent) (s : App) : App :=
  match svgTree s with
  | None => s
  | Some tree =>
      if String.eqb nodeId (id tree) then s
      else
        let wasDragging :=
          match mouseDownPosRef s with
          | Some down => if moved_over_5px down e then true else hasDraggedRef s
          | None => hasDraggedRef s
          end in
        let s := setClickRefs false None s in
        if wasDragging then s
        else
          let nodeId :=
            match currentTarget_data_id e with
            | Some clickedId =>
                if JsString.truthy clickedId && negb (String.eqb clickedId nodeId)
                then clickedId else nodeId
            | None => nodeId
            end in
          if ctrlKey e || metaKey e then
            setSelectedIds (toggle nodeId (selectedIds s)) s
          else if shiftKey e then
            setSelectedIds (JsSet.add nodeId (selectedIds s)) s
          else
            setSelectedIds (toggle nodeId (selectedIds s)) s
  end.

(** [areAllSelected]. *)
Definition areAllSelected (s : App) : bool :=
  match svgTree s with
  | None => false
  | Some tree =>
      if Nat.eqb (JsSet.size (selectedIds s)) 0 then false
      else
        let allIds := getAllSelectableIds tree in
        Nat.ltb 0 (length allIds)
        && forallb (fun i => JsSet.has i (selectedIds s)) allIds
  end.

(** [selectAll]. *)
Definition selectAll (s : App) : App :=
  match svgTree s with
  | None => s
  | Some tree =>
      let allIds := getAllSelectableIds tree in
      let allIdsSet := JsSet.of_list allIds in
      setSelectedIds (if areAllSelected s then [] else allIdsSet) s
  end.

(** *** Attribute edits *)

(** The mutation that [updateAttribute] and [updateAttributeWithoutHistory]
    apply to each selected node. *)
Definition writeAttribute (key value : string) (node : SvgNode) : SvgNode :=
  let node :=
    if String.eqb key "fill" || String.eqb key "stroke" then
      let styleValue :=
        applyStyleValue (JsObject.get "style" (attrs node)) key
          (if JsString.truthy value then Some value else None) in
      if JsString.truthy styleValue
      then set_attrs (JsObject.set "style" styleValue (attrs node)) node
      else set_attrs (JsObject.delete "style" (attrs node)) node
    else node in
  if JsString.truthy value
  then set_attrs (JsObject.set key value (attrs node)) node
  else set_attrs (JsObject.delete key (attrs node)) node.

(** Calls enough for a traversal of [tree] by a mutation that leaves the
    children alone. *)
Definition enough (tree : SvgNode) : nat := S (height tree).

(** [updateAttribute]; [None] when the traversal has not returned. *)
Definition updateAttribute (key value : string) (s : App) : option App :=
  match svgTree s with
  | None => Some s
  | Some tree =>
      if Nat.eqb (JsSet.size (selectedIds s)) 0 then Some s
      else
        match updateMultipleNodes (enough tree) tree (selectedIds s)
                (writeAttribute key value) with
        | Some next => Some (updateTreeWithHistory (Some next) s)
        | None => None
        end
  end.

(** [updateAttributeWithoutHistory]: the tree is replaced at once, and the
    history save is put off by 500 ms, replacing the one pending. *)
Definition updateAttributeWithoutHistory (key value : string) (s : App) : option App :=
  if Nat.eqb (JsSet.size (selectedIds s)) 0 then Some s
  else
    match svgTree s with
    | None => Some s
    | Some currentTree =>
        match updateMultipleNodes (enough currentTree) currentTree (selectedIds s)
                (writeAttribute key value) with
        | Some next =>
            let s := setLatestTree (Some next) s in
            let s := setPendingSave
                       (Some (mkTimer (now s + 500) (history s) (historyIndex s))) s in
            Some (setSvgTree (Some next) s)
        | None => None
        end
    end.

(** The callback of the timer. *)
Definition fireSave (t : Timer) (s : App) : App :=
  match latestTreeRef s with
  | Some treeToSave => saveToHistory (saved_history t) (saved_index t) (Some treeToSave) s
  | None => s
  end.

(** The event loop reaching time [t]: a pending timer that is due runs
    first. *)
Definition advance (t : nat) (s : App) : App :=
  match pendingSave s with
  | Some tm =>
      if Nat.leb (due tm) t
      then setNow t (fireSave tm (setPendingSave None s))
      else setNow t s
  | None => setNow t s
  end.

(** A color-picker change arriving at time [t]. *)
Definition colorChange (ev : nat * (string * string)) (s : App) : option App :=
  let '(t, (key, value)) := ev in
  updateAttributeWithoutHistory key value (advance t s).

(** A run of color-picker changes, in order. *)
Fixpoint colorChanges (evs : list (nat * (string * string))) (s : App) : option App :=
  match evs with
  | [] => Some s
  | ev :: rest =>
      match colorChange ev s with
      | Some s' => colorChanges rest s'
      | None => None
      end
  end.

(** *** Duplication *)

(** [duplicateSelected]. *)
Definition duplicateSelected (s : App) : option App :=
  match svgTree s with
  | None => Some s
  | Some tree =>
      match JsSet.first (selectedIds s) with
      | None => Some s
      | Some firstId =>
          if String.eqb firstId (id tree) then Some s
          else
            match findParent tree firstId None with
            | None => Some s
            | Some parent =>
                match findNode (Some tree) (Some firstId) with
                | None => Some s
                | Some nodeToDuplicate =>
                    let duplicated := assignNewIds (cloneNode nodeToDuplicate) firstId in
                    match updateNode (enough tree) tree (id parent)
                            (fun p => set_children (children p ++ [duplicated])%list p) with
                    | Some next =>
                        Some (setSelectedIds (JsSet.of_list [id duplicated])
                                (updateTreeWithHistory (Some next) s))
                    | None => None
                    end
                end
            end
      end
  end.

(** ** Positions in a tree *)

(** The node reached from [n] by the child positions [p]. *)
Fixpoint subtree_at (p : list nat) (n : SvgNode) : option SvgNode :=
  match p with
  | [] => Some n
  | i :: q =>
      match nth_error (children n) i with
      | Some c => subtree_at q c
      | None => None
      end
  end.

(** No node passed on the way along [p], the last one apart, has id [y]:
    the node at [p] is not inside a node that [updateNode] targets. *)
Fixpoint above_clear (y : string) (p : list nat) (n : SvgNode) : Prop :=
  match p with
  | [] => True
  | i :: q =>
      id n <> y /\
      match nth_error (children n) i with
      | Some c => above_clear y q c
      | None => True
      end
  end.

(** ** Object identity

    The tree model above is one of values.  Whether [updateNode] shares or
    copies a subtree is a question about objects, so here every node object
    carries the address it was allocated at, and every allocation takes
    the next free address. *)

Module Identity.

Definition addr := nat.

#[local] Unset Elimination Schemes.
Inductive Obj : Type := mkObj {
  address : addr;
  oid : string;
  otag : string;
  oattrs : JsObject.t;
  ochildren : list Obj;
  otext : option string
}.
#[local] Set Elimination Schemes.

(** The value an object tree holds. *)
Fixpoint erase (o : Obj) : SvgNode :=
  mkNode (oid o) (otag o) (oattrs o) (map erase (ochildren o)) (otext o).

(** Every address of the tree. *)
Fixpoint addresses (o : Obj) : list addr :=
  address o :: flat_map addresses (ochildren o).

Fixpoint oheight (o : Obj) : nat :=
  S (fold_right (fun c h => Nat.max (oheight c) h) 0 (ochildren o)).

(** The node reached from [o] by the child positions [p]. *)
Fixpoint object_at (p : list nat) (o : Obj) : option Obj :=
  match p with
  | [] => Some o
  | i :: q =>
      match nth_error (ochildren o) i with
      | Some c => object_at q c
      | None => None
      end
  end.

(** [cloneNode]: the object literal takes address [free], then the
    children are cloned in order. *)
Fixpoint cloneNode (node : Obj) (free : addr) : Obj * addr :=
  let '(cs, free') :=
    (fix each (cs : list Obj) (free : addr) : list Obj * addr :=
       match cs with
       | [] => ([], free)
       | c :: rest =>
           let '(c', free) := cloneNode c free in
           let '(rest', free) := each rest free in
           (c' :: rest', free)
       end) (ochildren node) (S free) in
  (mkObj free (oid node) (otag node) (oattrs node) cs (otext node), free').

(** A mutation works on the object it is given: it yields the fields the
    object has afterwards and the number of objects it allocated (from
    the free address it is given). *)
Definition Mutation : Type := Obj -> addr -> Obj * nat.

Definition mutated (m : Mutation) (target : Obj) (free : addr) : Obj * addr :=
  let '(fields, used) := m target free in
  (mkObj (address target) (oid fields) (otag fields) (oattrs fields)
         (ochildren fields) (otext fields), free + used).

(** [updateNode]. *)
Fixpoint updateNode (fuel : nat) (node : Obj) (id0 : string) (mutate : Mutation)
    (free : addr) : option (Obj * addr) :=
  match fuel with
  | O => None
  | S fuel' =>
      if String.eqb (oid node) id0 then
        let '(next, free) := cloneNode node free in
        Some (mutated mutate next free)
      else
        let '(next, free) := cloneNode node free in
        match
          (fix each (cs : list Obj) (free : addr) : option (list Obj * addr) :=
             match cs with
             | [] => Some ([], free)
             | child :: rest =>
                 match updateNode fuel' child id0 mutate free with
                 | Some (c', free) =>
                     match each rest free with
                     | Some (rest', free) => Some (c' :: rest', free)
                     | None => None
                     end
                 | None => None
                 end
             end) (ochildren next) free
        with
        | Some (cs, free) =>
            Some (mkObj (address next) (oid next) (otag next) (oattrs next)
                        cs (otext next), free)
        | None => None
        end
  end.

(** The loop of [cloneNode] over the children. *)
Definition cloneChildren : list Obj -> addr -> list Obj * addr :=
  fix each (cs : list Obj) (free : addr) : list Obj * addr :=
    match cs with
    | [] => ([], free)
    | c :: rest =>
        let '(c', free) := cloneNode c free in
        let '(rest', free) := each rest free in
        (c' :: rest', free)
    end.

(** The loop of [updateNode] over the children of the clone. *)
Definition updateChildren (fuel : nat) (id0 : string) (mutate : Mutation)
  : list Obj -> addr -> option (list Obj * addr) :=
  fix each (cs : list Obj) (free : addr) : option (list Obj * addr) :=
    match cs with
    | [] => Some ([], free)
    | child :: rest =>
        match updateNode fuel child id0 mutate free with
        | Some (c', free) =>
            match each rest free with
            | Some (rest', free) => Some (c' :: rest', free)
            | None => None
            end
        | None => None
        end
    end.

(** The update [T'] of [T] shares no object with [T] outside the nodes
    targeted: at a position of [T] that is not inside a target and whose
    subtree [X] holds no target, [T'] has an object tree that holds the
    value [X] and whose objects were all allocated at [free] or later. *)
Definition copied_afresh (y : string) (free : addr) (T : SvgNode) (T' : Obj) : Prop :=
  forall p X,
    subtree_at p T = Some X -> above_clear y p T -> ~ In y (allIds X) ->
    exists X',
      object_at p T' = Some X'
      /\ erase X' = X
      /\ Forall (fun a => free <= a) (addresses X').

Section Obj_induction.

Variable P : Obj -> Prop.
Hypothesis step : forall o, Forall P (ochildren o) -> P o.

Fixpoint Obj_ind (o : Obj) : P o :=
  step o
    ((fix all (cs : list Obj) : Forall P cs :=
        match cs with
        | [] => Forall_nil P
        | c :: r => Forall_cons c (Obj_ind c) (all r)
        end) (ochildren o)).

End Obj_induction.

(** Objects at 0, 1 and 2: [<svg>] with the children [a] and [b]. *)
Definition sample_objects : Obj :=
  mkObj 0 "node-1" "svg" [("data-id", "node-1")]
        [mkObj 1 "a" "rect" [("data-id", "a")] [] None;
         mkObj 2 "b" "rect" [("data-id", "b")] [] None] None.

(** [node.attrs.transform = 'translate(1 2)']. *)
Definition sample_move : Mutation :=
  fun o _ =>
    (mkObj (address o) (oid o) (otag o)
           (JsObject.set "transform" "translate(1 2)" (oattrs o))
           (ochildren o) (otext o), 0).

End Identity.

(** ** Vocabulary of the statements *)

(** The click ends a press that was not a drag. *)
Definition not_a_drag (s : App) (e : MouseEvent) : Prop :=
  hasDraggedRef s = false /\
  match mouseDownPosRef s with
  | Some down => moved_over_5px down e = false
  | None => True
  end.

(** The event carries no modifier key. *)
Definition plain (e : MouseEvent) : Prop :=
  ctrlKey e = false /\ metaKey e = false /\ shiftKey e = false.

(** [renderNode] gives the element of node [x] the attribute
    [data-id = x]. *)
Definition rendered_for (x : string) (e : MouseEvent) : Prop :=
  currentTarget_data_id e = Some x.

(** ** Induction over trees *)

Section SvgNode_induction.

Variable P : SvgNode -> Prop.
Hypothesis step : forall n, Forall P (children n) -> P n.

Fixpoint SvgNode_ind (n : SvgNode) : P n :=
  step n
    ((fix all (cs : list SvgNode) : Forall P cs :=
        match cs with
        | [] => Forall_nil P
        | c :: r => Forall_cons c (SvgNode_ind c) (all r)
        end) (children n)).

End SvgNode_induction.

(** ** Sample documents and events *)

Definition sample_rect (i : string) : SvgNode :=
  mkNode i "rect" [("id", i); ("data-id", i)] [] None.

(** [<svg><rect id="a"/><rect id="b"/></svg>] as [walk] builds it. *)
Definition sample_tree : SvgNode :=
  mkNode "node-1" "svg" [("data-id", "node-1")]
         [sample_rect "a"; sample_rect "b"] None.

(** The editor showing [sample_tree] with the given selection. *)
Definition sample_app (sel : JsSet.t) : App :=
  mkApp "" (Some sample_tree) sel None [sample_tree] 0 (Some sample_tree)
        false None None 0.

Definition plain_click (x : string) : MouseEvent :=
  mkMouseEvent 0 0 false false false (Some x).

Definition ctrl_click (x : string) : MouseEvent :=
  mkMouseEvent 0 0 true false false (Some x).

(** A node whose bare [fill] and whose style disagree. *)
Definition two_fills : SvgNode :=
  mkNode "r" "rect" [("fill", "red"); ("style", "fill: blue"); ("data-id", "r")] [] None.

(** A document in which [querySelector('svg')] finds nothing. *)
Definition no_svg_parse (clean : string) : option Element := None.

Definition first_svg (doc : option Element) : option Element := doc.

(** The text of one attribute in an opening tag, with the blank before
    it. *)
Definition attribute_text (kv : string * string) : string :=
  " " ++ fst kv ++ "=" ++ JsString.dquote ++ snd kv ++ JsString.dquote.

(** The strings of a list, one after the other. *)
Definition concat_all (l : list string) : string := fold_right append "" l.

(** The attributes the serializer prints. *)
Definition printed_attrs (n : SvgNode) : JsObject.t :=
  filter (fun kv => negb (String.eqb (fst kv) "data-id")) (attrs n).

(** An element with a double quote in an attribute value and markup
    characters in its text. *)
Definition quoted_node : SvgNode :=
  mkNode "r" "text"
         [("data-id", "r"); ("title", "say " ++ JsString.dquote ++ "hi" ++ JsString.dquote)]
         [mkNode "text-1" "#text" [] [] (Some "a < b & c")] None.

(** ** Vocabulary for style strings *)

(** Character [c] occurs in [s]. *)
Fixpoint has_char (c : ascii) (s : string) : bool :=
  match s with
  | EmptyString => false
  | String x r => Ascii.eqb x c || has_char c r
  end.

(** [s] does not begin with white space. *)
Definition head_not_white (s : string) : Prop :=
  match s with
  | EmptyString => True
  | String c _ => JsString.is_white c = false
  end.

(** The style attribute of [n], if it has one, has no entry for [key]. *)
Definition style_lacks (key : string) (n : SvgNode) : Prop :=
  match JsObject.get "style" (attrs n) with
  | None => True
  | Some st => Forall (fun e => entry_k e <> key) (styleEntries st)
  end.

(** [updateMultipleNodes] for a mutation that leaves [children] alone,
    by recursion on the tree. *)
Fixpoint mapSelected (ids : JsSet.t) (f : SvgNode -> SvgNode) (node : SvgNode)
  : SvgNode :=
  let next := if JsSet.has (id node) ids then f node else node in
  mkNode (id next) (tag next) (attrs next)
         (map (mapSelected ids f) (children node)) (text next).

(** [updateNode], by recursion on the tree. *)
Fixpoint mapTarget (id0 : string) (f : SvgNode -> SvgNode) (node : SvgNode)
  : SvgNode :=
  if String.eqb (id node) id0 then f node
  else mkNode (id node) (tag node) (attrs node)
              (map (mapTarget id0 f) (children node)) (text node).

(** What [styleEntries] guarantees of an entry: the key is trimmed and
    free of [;] and [:], and the value prints without [;]. *)
Definition parsed (e : Entry) : Prop :=
  head_not_white (entry_k e)
  /\ JsString.trim (entry_k e) = entry_k e
  /\ has_char ";" (entry_k e) = false
  /\ has_char ":" (entry_k e) = false
  /\ has_char ";" (template (entry_v e)) = false.

(** ** Vocabulary for bursts of color changes *)

(** Each change of [evs] comes no earlier than the one before it (the first
    no earlier than [prev]) and less than 500 ms after it. *)
Fixpoint spaced (prev : nat) (evs : list (nat * (string * string))) : Prop :=
  match evs with
  | [] => True
  | ev :: rest => prev <= fst ev /\ fst ev < prev + 500 /\ spaced (fst ev) rest
  end.

(** The time of the last change of [evs], [prev] when there is none. *)
Definition last_time (prev : nat) (evs : list (nat * (string * string))) : nat :=
  last (map fst evs) prev.

(** The tree after the changes of [evs] have been applied in order to the
    nodes selected. *)
Definition liveTree (ids : JsSet.t) (tree : SvgNode)
    (evs : list (nat * (string * string))) : SvgNode :=
  fold_left
    (fun t ev => mapSelected ids (writeAttribute (fst (snd ev)) (snd (snd ev))) t)
    evs tree.

(** The editor in the middle of a burst that began with history [h] and
    cursor [i]: the last change came at [t] and left the tree [tree], and
    the save it scheduled is the one pending. *)
Definition mid_burst (h : list SvgNode) (i : Z) (ids : JsSet.t)
    (tree : SvgNode) (t : nat) (s : App) : Prop :=
  svgTree s = Some tree
  /\ latestTreeRef s = Some tree
  /\ selectedIds s = ids
  /\ history s = h
  /\ historyIndex s = i
  /\ pendingSave s = Some (mkTimer (t + 500) h i)
  /\ now s = t.

(** Two more color changes, 100 ms and 300 ms after a first one at 0. *)
Definition sample_burst_rest : list (nat * (string * string)) :=
  [(100, ("fill", "#222222")); (300, ("fill", "#333333"))].

(** ** A session that duplicates one node twice *)

(** The DOM of [<svg><rect id='r1' width='10'/></svg>]. *)
Definition sample_dom : Element :=
  mkElement "svg" [] [ElementChild (mkElement "rect" [("id", "r1"); ("width", "10")] [])].

Definition sample_parse (clean : string) : option Element := Some sample_dom.

(** The editor after the import of that document: the root is the
    selection and the one history entry. *)
Definition imported_app : App :=
  handleSvgInput (option Element) (fun raw => raw) sample_parse first_svg
    "<svg><rect id='r1' width='10'/></svg>" initialApp.

(** Select the one rectangle with Select All, duplicate it, click the copy
    to deselect it, click the original to select it, duplicate again. *)
Definition duplicate_twice : option App :=
  let s := selectAll imported_app in
  match duplicateSelected s with
  | Some s =>
      let s := handleNodeClick "r1-copy" (plain_click "r1-copy") s in
      let s := handleNodeClick "r1" (plain_click "r1") s in
      duplicateSelected s
  | None => None
  end.

(** The value of the object at address 2 of [Identity.sample_objects]. *)
Definition sample_rect_b : SvgNode :=
  mkNode "b" "rect" [("data-id", "b")] [] None.

(** ** The rest of the tree model *)

(** [getFirstText] on a node that is there. *)
Fixpoint getFirstText_in (node : SvgNode) : option string :=
  if String.eqb (tag node) "#text" then text node
  else (fix loop (cs : list SvgNode) : option string :=
          match cs with
          | [] => None
          | child :: rest =>
              match getFirstText_in child with
              | Some found => Some found
              | None => loop rest
              end
          end) (children node).

(** [getFirstText]. *)
Definition getFirstText (node : option SvgNode) : option string :=
  match node with
  | Some n => getFirstText_in n
  | None => None
  end.

(** The result of a removal: [Some None] is [null].  As in [updateNode]
    the calls are counted by [fuel], and the outer [None] is a run that has
    not returned; a child for which the recursive call gives [null], which
    the filter before the [map] rules out, has no place in a list of nodes
    and is counted with it. *)
Definition kept (r : option (option SvgNode)) : option SvgNode :=
  match r with
  | Some (Some c) => Some c
  | _ => None
  end.

(** [removeNode]. *)
Fixpoint removeNode (fuel : nat) (node : SvgNode) (id0 : string)
  : option (option SvgNode) :=
  match fuel with
  | O => None
  | S fuel' =>
      if String.eqb (id node) id0 then Some None
      else
        let next := cloneNode node in
        match map_opt (fun child => kept (removeNode fuel' child id0))
                (filter (fun child => negb (String.eqb (id child) id0))
                        (children next)) with
        | Some cs => Some (Some (set_children cs next))
        | None => None
        end
  end.

(** [removeMultipleNodes]. *)
Fixpoint removeMultipleNodes (fuel : nat) (node : SvgNode) (ids : JsSet.t)
  : option (option SvgNode) :=
  match fuel with
  | O => None
  | S fuel' =>
      if JsSet.has (id node) ids then Some None
      else
        let next := cloneNode node in
        match map_opt (fun child => kept (removeMultipleNodes fuel' child ids))
                (filter (fun child => negb (JsSet.has (id child) ids))
                        (children next)) with
        | Some cs => Some (Some (set_children cs next))
        | None => None
        end
  end.

(** [deleteSelected]. *)
Definition deleteSelected (s : App) : option App :=
  match svgTree s with
  | None => Some s
  | Some tree =>
      if Nat.eqb (JsSet.size (selectedIds s)) 0 then Some s
      else
        let idsToDelete :=
          JsSet.of_list
            (filter (fun i => negb (String.eqb i (id tree))) (selectedIds s)) in
        if Nat.eqb (JsSet.size idsToDelete) 0 then Some s
        else
          match removeMultipleNodes (enough tree) tree idsToDelete with
          | Some (Some next) =>
              Some (setSelectedIds (JsSet.of_list [id tree])
                      (updateTreeWithHistory (Some next) s))
          | Some None => Some s
          | None => None
          end
  end.

(** The mutation of [updateText]. *)
Definition writeText (value : string) (node : SvgNode) : SvgNode :=
  if String.eqb (tag node) "#text"
  then mkNode (id node) (tag node) (attrs node) (children node) (Some value)
  else set_children
         (map (fun child =>
                 if String.eqb (tag child) "#text"
                 then mkNode (id child) (tag child) (attrs child) (children child)
                             (Some value)
                 else child)
              (children node))
         node.

(** [updateText]. *)
Definition updateText (value : string) (s : App) : option App :=
  match svgTree s with
  | None => Some s
  | Some tree =>
      if Nat.eqb (JsSet.size (selectedIds s)) 0 then Some s
      else
        match updateMultipleNodes (enough tree) tree (selectedIds s)
                (writeText value) with
        | Some next => Some (updateTreeWithHistory (Some next) s)
        | None => None
        end
  end.

(** [l.findIndex(f)], [None] for -1. *)
Fixpoint findIndex {A : Type} (f : A -> bool) (l : list A) : option nat :=
  match l with
  | [] => None
  | x :: r => if f x then Some 0
              else match findIndex f r with
                   | Some i => Some (S i)
                   | None => None
                   end
  end.

(** [l.splice(index, 1, ...items)], for the list left. *)
Definition splice1 {A : Type} (index : nat) (items : list A) (l : list A) : list A :=
  (firstn index l ++ items ++ skipn (S index) l)%list.

(** [groupSelected]; [timestamp] is what [Date.now()] returns. *)
Definition groupSelected (timestamp : nat) (s : App) : option App :=
  match svgTree s with
  | None => Some s
  | Some tree =>
      match JsSet.first (selectedIds s) with
      | None => Some s
      | Some firstId =>
          if String.eqb firstId (id tree) then Some s
          else
            match findNode (Some tree) (Some firstId) with
            | None => Some s
            | Some node =>
                match findParent tree firstId None with
                | None => Some s
                | Some parent =>
                    let groupId := "group-" ++ JsString.of_nat timestamp in
                    let newGroup :=
                      mkNode groupId "g" [("data-id", groupId)] [cloneNode node] None in
                    match updateNode (enough tree) tree (id parent)
                            (fun p =>
                               match findIndex (fun c => String.eqb (id c) firstId)
                                               (children p) with
                               | Some index =>
                                   set_children (splice1 index [newGroup] (children p)) p
                               | None => p
                               end) with
                    | Some next =>
                        Some (setSelectedIds (JsSet.of_list [id newGroup])
                                (updateTreeWithHistory (Some next) s))
                    | None => None
                    end
                end
            end
      end
  end.

(** [ungroupSelected]. *)
Definition ungroupSelected (s : App) : option App :=
  match svgTree s with
  | None => Some s
  | Some tree =>
      match JsSet.first (selectedIds s) with
      | None => Some s
      | Some firstId =>
          match findNode (Some tree) (Some firstId) with
          | None => Some s
          | Some node =>
              if negb (String.eqb (tag node) "g") then Some s
              else
                match findParent tree firstId None with
                | None => Some s
                | Some parent =>
                    match updateNode (enough tree) tree (id parent)
                            (fun p =>
                               match findIndex (fun c => String.eqb (id c) firstId)
                                               (children p), children node with
                               | Some index, _ :: _ =>
                                   set_children
                                     (splice1 index (map cloneNode (children node))
                                              (children p)) p
                               | _, _ => p
                               end) with
                    | Some next =>
                        let s := updateTreeWithHistory (Some next) s in
                        match children node with
                        | first :: _ => Some (setSelectedIds (JsSet.of_list [id first]) s)
                        | [] => Some s
                        end
                    | None => None
                    end
                end
          end
      end
  end.

(** Every node of the tree, in document order. *)
Fixpoint nodes (node : SvgNode) : list SvgNode :=
  node :: flat_map nodes (children node).

(** [removeMultipleNodes], by recursion on the tree, for a node that is
    kept. *)
Fixpoint prune (ids : JsSet.t) (node : SvgNode) : SvgNode :=
  mkNode (id node) (tag node) (attrs node)
         ((fix each (cs : list SvgNode) : list SvgNode :=
             match cs with
             | [] => []
             | child :: rest =>
                 if JsSet.has (id child) ids then each rest
                 else prune ids child :: each rest
             end) (children node))
         (text node).

(** The history entry at the cursor is the live tree, which is also the
    tree [latestTreeRef] holds. *)
Definition history_ok (s : App) : Prop :=
  exists t,
    svgTree s = Some t
    /\ latestTreeRef s = Some t
    /\ at_index (history s) (historyIndex s) = Some t.

(** A string that a style entry can hold as its key or value and give
    back: trimmed and free of [;] and [:]. *)
Definition style_safe (v : string) : Prop :=
  JsString.trim v = v /\ has_char ";" v = false /\ has_char ":" v = false.

(** One entry as [applyStyleValue] prints it. *)
Definition print_entry (e : Entry) : string :=
  entry_k e ++ ": " ++ template (entry_v e).

(** ** Vocabulary for imported trees *)

(** The loop of [walk] over the child nodes. *)
Definition walkChildren : list ChildNode -> list SvgNode -> nat -> list SvgNode * nat :=
  fix each (cs : list ChildNode) (acc : list SvgNode) (counter : nat)
    : list SvgNode * nat :=
    match cs with
    | [] => (acc, counter)
    | ElementChild child :: rest =>
        let '(n, counter) := walk child counter in
        each rest (acc ++ [n])%list counter
    | TextChild textContent :: rest =>
        let textContent := JsString.trim textContent in
        if JsString.truthy textContent
        then each rest
               (acc ++ [mkNode ("text-" ++ JsString.of_nat (S counter))
                               "#text" [] [] (Some textContent)])%list
               (S counter)
        else each rest acc counter
    | OtherChild :: rest => each rest acc counter
    end.

(** [el.getAttribute('data-id') || el.getAttribute('id')]. *)
Definition own_id (attributes : list (string * string)) : option string :=
  match getAttribute attributes "data-id" with
  | Some a => if JsString.truthy a then Some a else getAttribute attributes "id"
  | None => getAttribute attributes "id"
  end.

(** No element of the DOM tree brings an id of its own. *)
Fixpoint anonymous (el : Element) : Prop :=
  match el with
  | mkElement _ attributes childNodes =>
      own_id attributes = None
      /\ (fix all (cs : list ChildNode) : Prop :=
            match cs with
            | [] => True
            | ElementChild child :: rest => anonymous child /\ all rest
            | _ :: rest => all rest
            end) childNodes
  end.

(** The id that [walk] makes up for an element ([true]) or a text node
    from the value of the counter. *)
Definition made_up (p : bool * nat) : string :=
  (if fst p then "node-" else "text-") ++ JsString.of_nat (snd p).

(** A text leaf as [walk] builds it. *)
Definition text_leaf (n : SvgNode) : Prop :=
  tag n = "#text" /\ attrs n = [] /\ children n = []
  /\ exists t, text n = Some t /\ JsString.truthy t = true /\ JsString.trim t = t.

(** An element node as [walk] builds it: its id is mirrored under
    [data-id] and it has no text of its own. *)
Definition element_node (n : SvgNode) : Prop :=
  JsObject.get "data-id" (attrs n) = Some (id n) /\ text n = None.

Section Element_induction.

Variable P : Element -> Prop.
Hypothesis step :
  forall tagName attributes childNodes,
    Forall (fun c => match c with ElementChild el => P el | _ => True end) childNodes ->
    P (mkElement tagName attributes childNodes).

Fixpoint Element_children_ind (el : Element) : P el :=
  match el with
  | mkElement tagName attributes childNodes =>
      step tagName attributes childNodes
        ((fix all (cs : list ChildNode)
            : Forall (fun c => match c with ElementChild el => P el | _ => True end) cs :=
            match cs with
            | [] => Forall_nil _
            | c :: r =>
                Forall_cons c
                  (match c return match c with ElementChild el => P el | _ => True end with
                   | ElementChild child => Element_children_ind child
                   | TextChild _ => I
                   | OtherChild => I
                   end)
                  (all r)
            end) childNodes)
  end.

End Element_induction.

(** The mutation of [duplicateSelected]: [p.children.push(duplicated)]. *)
Definition push_child (duplicated : SvgNode) (p : SvgNode) : SvgNode :=
  set_children (children p ++ [duplicated])%list p.

(** [updateMultipleNodes] with the mutation of [updateText], by recursion
    on the tree; [under] tells that the parent is a selected node that is
    no [#text]. *)
Fixpoint retext (ids : JsSet.t) (value : string) (under : bool) (node : SvgNode)
  : SvgNode :=
  let is_text := String.eqb (tag node) "#text" in
  let selected := JsSet.has (id node) ids in
  mkNode (id node) (tag node) (attrs node)
         (map (retext ids value (selected && negb is_text)) (children node))
         (if is_text && (selected || under) then Some value else text node).

(** What [updateText] may change of a node [m] of the tree [whole] when
    the ids [ids] are selected: only [text], only in a [#text] node, always
    in a selected one, and never in one that is neither selected nor a
    child of a selected node that is no [#text]. *)
Definition text_written (whole : SvgNode) (ids : JsSet.t) (value : string)
    (m m' : SvgNode) : Prop :=
  id m' = id m /\ tag m' = tag m /\ attrs m' = attrs m
  /\ (text m' = text m \/ (tag m = "#text" /\ text m' = Some value))
  /\ (tag m = "#text" -> JsSet.has (id m) ids = true -> text m' = Some value)
  /\ (JsSet.has (id m) ids = false ->
      (forall p, In p (nodes whole) -> JsSet.has (id p) ids = true ->
                 tag p <> "#text" -> ~ In m (children p)) ->
      text m' = text m).

(** A [text] element with its text node, and a document that holds it. *)
Definition sample_caption : SvgNode :=
  mkNode "t" "text" [("data-id", "t")]
         [mkNode "node-2" "#text" [] [] (Some "hi")] None.

Definition sample_label : SvgNode :=
  mkNode "node-1" "svg" [("data-id", "node-1")] [sample_rect "a"; sample_caption] None.

(** The test [k && v] of [styleStringToObject] on an entry. *)
Definition usable (e : Entry) : bool :=
  JsString.truthy (entry_k e)
  && match entry_v e with
     | Some v => JsString.truthy v
     | None => false
     end.

(** [styleStringToObject]: the entries are written into an empty object
    in order, [acc[k] = v].  On an object literal the assignment of a
    string to [__proto__] changes nothing. *)
Definition styleStringToObject (style : option string) : option JsObject.t :=
  match style with
  | None => None
  | Some s =>
      if negb (JsString.truthy s) then None
      else Some (fold_left
                   (fun acc e =>
                      match entry_v e with
                      | Some v =>
                          if usable e
                          then if String.eqb (entry_k e) "__proto__" then acc
                               else JsObject.set (entry_k e) v acc
                          else acc
                      | None => acc
                      end)
                   (styleEntries s) [])
  end.

(** ** The Element Tree *)

(** The [onSelect] handler that [App] gives to the Element Tree: a row
    clicked with [multi] toggles its id, a row clicked without it becomes
    the whole selection.  The [showTreeView] flag that the second branch
    also clears is read by the renderer only. *)
Definition onSelect (id0 : string) (multi : bool) (s : App) : App :=
  if multi then setSelectedIds (toggle id0 (selectedIds s)) s
  else setSelectedIds (JsSet.of_list [id0]) s.

(** The [onClick] of the row that [TreeNode] renders for [node]. *)
Definition TreeNode_onClick (node : SvgNode) (e : MouseEvent) (s : App) : App :=
  onSelect (id node) (ctrlKey e || metaKey e) s.

(** The nodes that [TreeNode] renders a row for: the node it is given and,
    below it, the children that are no [#text]. *)
Fixpoint TreeNode_rows (node : SvgNode) : list SvgNode :=
  node ::
  (fix each (cs : list SvgNode) : list SvgNode :=
     match cs with
     | [] => []
     | c :: rest =>
         if negb (String.eqb (tag c) "#text")
         then (TreeNode_rows c ++ each rest)%list
         else each rest
     end) (children node).

(** The mutation [m] puts no object of [T] under its target: given a
    target made of objects allocated at [free] or later, the children it
    leaves are made of objects that are not objects of [T]. *)
Definition imports_nothing_of (T : Identity.Obj) (free : Identity.addr)
    (m : Identity.Mutation) : Prop :=
  forall target fr,
    Forall (fun a => free <= a) (Identity.addresses target) ->
    free <= fr ->
    Forall (fun a => ~ In a (Identity.addresses T))
           (flat_map Identity.addresses (Identity.ochildren (fst (m target fr)))).

(** ** What a write leaves on a node *)

(** The state of a node after [value] has been written under [key].  For
    a non-empty value the bare attribute holds it, which is also what
    [getAttrOrStyle] returns, and for [fill] and [stroke] the style string
    ends with the entry [key: value] and reads back the value whenever the
    value is trimmed and holds neither [;] nor [:].  For the empty value
    the bare attribute is gone, and for [fill] and [stroke] the style holds
    no entry for the key, so that [getAttrOrStyle] finds nothing. *)
Definition written (key value : string) (n' : SvgNode) : Prop :=
  let colour := String.eqb key "fill" || String.eqb key "stroke" in
  if JsString.truthy value then
    JsObject.get key (attrs n') = Some value
    /\ getAttrOrStyle (Some n') key = Some value
    /\ (colour = true ->
        (exists before,
            JsObject.get "style" (attrs n') = Some (before ++ key ++ ": " ++ value))
        /\ (style_safe value ->
            getStyleValue (JsObject.get "style" (attrs n')) key = Some value))
  else
    JsObject.get key (attrs n') = None
    /\ (colour = true ->
        style_lacks key n' /\ getAttrOrStyle (Some n') key = None).

(** What a change of attributes on the nodes selected by [ids] keeps of
    a node: its id, tag, text and number of children, and, when it is not
    selected, its attributes. *)
Definition same_frame (ids : JsSet.t) (n n' : SvgNode) : Prop :=
  id n' = id n /\ tag n' = tag n /\ text n' = text n
  /\ length (children n') = length (children n)
  /\ (JsSet.has (id n) ids = false -> attrs n' = attrs n).

(** The live tree [live] reflects the change [(key, value)] made to the
    nodes of [tree] selected by [ids]: it has the nodes of [tree] in the
    same order, each keeping its frame, and every selected node is in the
    state that the write of the value leaves. *)
Definition reflects (ids : JsSet.t) (tree : SvgNode) (change : string * string)
    (live : SvgNode) : Prop :=
  Forall2
    (fun n n' =>
       same_frame ids n n'
       /\ (JsSet.has (id n) ids = true -> written (fst change) (snd change) n'))
    (nodes tree) (nodes live).

(** * Properties *)


Lemma map_id_on {A : Type} (f : A -> A) (l : list A) :
  Forall (fun x => f x = x) l -> map f l = l.
Proof.
  induction 1 as [|x r Hx _ IH]; simpl; [reflexivity|].
  now rewrite Hx, IH.
Qed.

(** A deep copy of a value is the value. *)
Lemma cloneNode_id (n : SvgNode) : cloneNode n = n.
Proof.
  induction n as [n IH] using SvgNode_ind.
  destruct n as [i t a cs tx]; simpl in *.
  now rewrite (map_id_on _ _ IH).
Qed.

(** ** Sets of ids *)

Module JsSetFacts.
Import JsSet.

Lemma has_app x s1 s2 : has x (s1 ++ s2)%list = has x s1 || has x s2.
Proof. unfold has. apply existsb_app. Qed.

Lemma has_add y x s : has y (add x s) = String.eqb y x || has y s.
Proof.
  unfold add. destruct (has x s) eqn:Hx.
  - destruct (String.eqb_spec y x) as [->|]; simpl; [now rewrite Hx|reflexivity].
  - rewrite has_app. simpl. rewrite orb_false_r. apply orb_comm.
Qed.

Lemma has_delete y x s : has y (delete x s) = negb (String.eqb y x) && has y s.
Proof.
  unfold delete, has. induction s as [|z s IH]; simpl.
  - now rewrite andb_false_r.
  - destruct (String.eqb_spec x z) as [->|Hxz]; simpl.
    + rewrite IH. destruct (String.eqb_spec y z); simpl; reflexivity.
    + rewrite IH. destruct (String.eqb_spec y z) as [->|]; simpl.
      * destruct (String.eqb_spec z x); [congruence|reflexivity].
      * reflexivity.
Qed.

Lemma has_of_list_acc x l acc :
  has x (fold_left (fun s y => add y s) l acc) = has x acc || existsb (String.eqb x) l.
Proof.
  revert acc. induction l as [|y l IH]; intros acc; simpl.
  - now rewrite orb_false_r.
  - rewrite IH, has_add. now rewrite orb_assoc, (orb_comm (String.eqb x y)).
Qed.

Lemma has_of_list x l : has x (of_list l) = existsb (String.eqb x) l.
Proof. unfold of_list. now rewrite has_of_list_acc. Qed.

Lemma of_list_nil_inv l : of_list l = [] -> l = [].
Proof.
  destruct l as [|y l]; [reflexivity|]. intros H.
  assert (Hy : has y (of_list (y :: l)) = true).
  { rewrite has_of_list. simpl. now rewrite String.eqb_refl. }
  rewrite H in Hy. discriminate.
Qed.

End JsSetFacts.

Lemma has_toggle y x s :
  JsSet.has y (toggle x s)
  = if String.eqb y x then negb (JsSet.has x s) else JsSet.has y s.
Proof.
  unfold toggle. destruct (JsSet.has x s) eqn:Hx.
  - rewrite JsSetFacts.has_delete.
    destruct (String.eqb_spec y x) as [->|]; simpl; reflexivity.
  - rewrite JsSetFacts.has_add.
    destruct (String.eqb_spec y x) as [->|]; simpl; [reflexivity|reflexivity].
Qed.

Lemma click_selection (x : string) (e : MouseEvent) (s : App) (tree : SvgNode) :
  svgTree s = Some tree -> x <> id tree -> not_a_drag s e -> rendered_for x e ->
  selectedIds (handleNodeClick x e s)
  = if ctrlKey e || metaKey e then toggle x (selectedIds s)
    else if shiftKey e then JsSet.add x (selectedIds s)
    else toggle x (selectedIds s).
Proof.
  intros Ht Hx [Hd Hm] Hr. unfold handleNodeClick. rewrite Ht.
  destruct (String.eqb_spec x (id tree)) as [|_]; [contradiction|].
  rewrite Hd. unfold rendered_for in Hr. rewrite Hr.
  rewrite String.eqb_refl, andb_false_r.
  destruct (mouseDownPosRef s) as [down|]; [rewrite Hm|];
    destruct (ctrlKey e || metaKey e); try destruct (shiftKey e); reflexivity.
Qed.

(** ** Selection *)

(** C1, as stated, fails, and differently on the two ways of clicking a
    node.  On the canvas a plain click on [a] while [a] and [b] are
    selected leaves [b] selected, and a plain click on [a] while only [b]
    is selected gives the two-element selection.  On the row of [a] in the
    Element Tree a plain click while [a] is selected leaves [a]
    selected. *)
Lemma plain_click_keeps_other_members :
  selectedIds (handleNodeClick "a" (plain_click "a") (sample_app ["a"; "b"])) = ["b"]
  /\ selectedIds (handleNodeClick "a" (plain_click "a") (sample_app ["b"])) = ["b"; "a"]
  /\ In (sample_rect "a") (TreeNode_rows sample_tree)
  /\ selectedIds (TreeNode_onClick (sample_rect "a") (plain_click "a") (sample_app ["a"]))
     = ["a"].
Proof. repeat split. simpl. tauto. Qed.

(** C1, amended.  A plain click on the canvas element of a non-root node
    [x] toggles the membership of [x] and leaves the membership of every
    other id as it was; so it gives exactly [{x}] from the empty selection,
    and the empty selection from [{x}].  A plain click on the row of a node
    in the Element Tree makes that node the whole selection, whatever the
    selection was and whichever node it is, and changes nothing else. *)
Theorem plain_click_toggles (s : App) (e : MouseEvent) :
  plain e ->
  (forall tree x,
      svgTree s = Some tree -> x <> id tree ->
      not_a_drag s e -> rendered_for x e ->
      let s' := handleNodeClick x e s in
      (forall y, JsSet.has y (selectedIds s')
                 = if String.eqb y x then negb (JsSet.has x (selectedIds s))
                   else JsSet.has y (selectedIds s))
      /\ (selectedIds s = [] -> selectedIds s' = [x])
      /\ (selectedIds s = [x] -> selectedIds s' = []))
  /\ (forall n, TreeNode_onClick n e s = setSelectedIds [id n] s).
Proof.
  intros (Hc & Hm & Hs). split.
  - intros tree x Ht Hx Hd Hr s'. subst s'.
    rewrite (click_selection x e s tree Ht Hx Hd Hr), Hc, Hm, Hs. simpl.
    split; [|split].
    + intros y. apply has_toggle.
    + intros ->. reflexivity.
    + intros ->. unfold toggle. simpl. now rewrite String.eqb_refl.
  - intros n. unfold TreeNode_onClick, onSelect. now rewrite Hc, Hm.
Qed.

Lemma plain_click_toggles_witness :
  JsSet.has "b"
    (selectedIds (handleNodeClick "a" (plain_click "a") (sample_app ["a"; "b"])))
  = true
  /\ selectedIds (TreeNode_onClick (sample_rect "a") (plain_click "a")
                    (sample_app ["a"; "b"])) = ["a"].
Proof.
  assert (Ht : svgTree (sample_app ["a"; "b"]) = Some sample_tree) by reflexivity.
  assert (Hx : "a" <> id sample_tree) by (simpl; discriminate).
  assert (Hp : plain (plain_click "a")) by (repeat split).
  assert (Hd : not_a_drag (sample_app ["a"; "b"]) (plain_click "a")) by (split; reflexivity).
  assert (Hr : rendered_for "a" (plain_click "a")) by reflexivity.
  destruct (plain_click_toggles (sample_app ["a"; "b"]) (plain_click "a") Hp)
    as [Hcanvas Hrow].
  split.
  - exact (proj1 (Hcanvas sample_tree "a" Ht Hx Hd Hr) "b").
  - now rewrite (Hrow (sample_rect "a")).
Defined.

Lemma getAllNodeIds_not_root (r : string) (n : SvgNode) :
  existsb (String.eqb r) (getAllNodeIds r n) = false.
Proof.
  induction n as [n IH] using SvgNode_ind.
  destruct n as [i t a cs tx]; simpl in *.
  rewrite existsb_app.
  assert (Hk : existsb (String.eqb r) (flat_map (getAllNodeIds r) cs) = false).
  { induction IH as [|c cs Hc _ IHcs]; simpl; [reflexivity|].
    now rewrite existsb_app, Hc, IHcs. }
  rewrite Hk, orb_false_r.
  destruct (String.eqb_spec i r) as [->|Hne]; simpl; [reflexivity|].
  destruct (negb (String.eqb t "#text")); simpl; [|reflexivity].
  destruct (String.eqb_spec r i); [congruence|reflexivity].
Qed.

Lemma forallb_has_of_list (l : list string) :
  forallb (fun i => JsSet.has i (JsSet.of_list l)) l = true.
Proof.
  apply forallb_forall. intros x Hx.
  rewrite JsSetFacts.has_of_list. apply existsb_exists.
  exists x. split; [assumption|apply String.eqb_refl].
Qed.

Lemma selectAll_shape (s : App) (tree : SvgNode) :
  svgTree s = Some tree ->
  selectAll s
  = setSelectedIds (if areAllSelected s then []
                    else JsSet.of_list (getAllSelectableIds tree)) s.
Proof. intros Ht. unfold selectAll. now rewrite Ht. Qed.

(** C7, as stated, fails on both counts.  The root gets into the
    selection: the import selects it, and a [Ctrl+Click] on the rectangle
    then leaves it selected; and from the empty selection a click on the
    root's row in the Element Tree selects it.  And once a first
    [selectAll] has selected every selectable id, [selectAll] twice gives
    that full set back. *)
Lemma root_stays_selected_and_selectAll_twice_refills :
  selectedIds (handleNodeClick "r1" (ctrl_click "r1") imported_app) = ["node-1"; "r1"]
  /\ option_map id (svgTree imported_app) = Some "node-1"
  /\ selectedIds (TreeNode_onClick sample_tree (plain_click "node-1") (sample_app []))
     = ["node-1"]
  /\ id sample_tree = "node-1"
  /\ selectedIds (selectAll imported_app) = ["r1"]
  /\ selectedIds (selectAll (selectAll (selectAll imported_app))) = ["r1"].
Proof. repeat split. Qed.

(** C7, amended.  On the canvas and by [selectAll] the root never gets
    into the selection: a click on the root element changes nothing,
    whatever the event; a click of any kind (plain, Ctrl/Cmd, Shift) on
    another element leaves the root in or out as it was; and [selectAll]
    always leaves it out.  In the Element Tree it does: a click on the
    root's row makes the root the whole selection, or with Ctrl/Cmd
    toggles it.  [selectAll] twice gives the empty selection unless the
    starting selection already held every selectable id (of which there
    was at least one), when it gives the full selectable set. *)
Theorem selection_never_gains_root (s : App) (tree : SvgNode) :
  svgTree s = Some tree ->
  (forall e, handleNodeClick (id tree) e s = s)
  /\ (forall x e,
        x = id tree \/ currentTarget_data_id e <> Some (id tree) ->
        JsSet.has (id tree) (selectedIds (handleNodeClick x e s))
        = JsSet.has (id tree) (selectedIds s))
  /\ JsSet.has (id tree) (selectedIds (selectAll s)) = false
  /\ selectedIds (selectAll (selectAll s))
     = (if areAllSelected s then JsSet.of_list (getAllSelectableIds tree) else [])
  /\ In tree (TreeNode_rows tree)
  /\ (forall e,
        selectedIds (TreeNode_onClick tree e s)
        = if ctrlKey e || metaKey e then toggle (id tree) (selectedIds s)
          else [id tree])
  /\ (forall e,
        JsSet.has (id tree) (selectedIds (TreeNode_onClick tree e s))
        = if ctrlKey e || metaKey e then negb (JsSet.has (id tree) (selectedIds s))
          else true).
Proof.
  intros Ht.
  assert (Hroot : forall e, handleNodeClick (id tree) e s = s).
  { intros e. unfold handleNodeClick. now rewrite Ht, String.eqb_refl. }
  split; [exact Hroot|]. split; [|split; [|split; [|split; [|split]]]].
  - intros x e [->|He]; [now rewrite Hroot|].
    unfold handleNodeClick. rewrite Ht.
    destruct (String.eqb_spec x (id tree)) as [|Hx]; [reflexivity|].
    set (was := match mouseDownPosRef s with
                | Some down => if moved_over_5px down e then true else hasDraggedRef s
                | None => hasDraggedRef s end).
    destruct was; [reflexivity|].
    set (x' := match currentTarget_data_id e with
               | Some clickedId =>
                   if JsString.truthy clickedId && negb (String.eqb clickedId x)
                   then clickedId else x
               | None => x end).
    assert (Hx' : String.eqb (id tree) x' = false).
    { apply String.eqb_neq. subst x'.
      destruct (currentTarget_data_id e) as [c|]; [|congruence].
      destruct (JsString.truthy c && negb (String.eqb c x)); congruence. }
    destruct (ctrlKey e || metaKey e); [|destruct (shiftKey e)];
      simpl selectedIds;
      rewrite ?has_toggle, ?JsSetFacts.has_add, Hx'; simpl; reflexivity.
  - rewrite (selectAll_shape s tree Ht). simpl.
    destruct (areAllSelected s); [reflexivity|].
    rewrite JsSetFacts.has_of_list. apply getAllNodeIds_not_root.
  - rewrite (selectAll_shape s tree Ht).
    rewrite (selectAll_shape _ tree) by (simpl; exact Ht).
    simpl selectedIds. unfold areAllSelected at 1. simpl. rewrite Ht.
    destruct (areAllSelected s); [reflexivity|].
    destruct (JsSet.of_list (getAllSelectableIds tree)) as [|z zs] eqn:Hz.
    + reflexivity.
    + rewrite <- Hz, forallb_has_of_list, Hz.
      destruct (getAllSelectableIds tree) as [|w ws]; [discriminate Hz|].
      reflexivity.
  - destruct tree. now left.
  - intros e. unfold TreeNode_onClick, onSelect.
    destruct (ctrlKey e || metaKey e); reflexivity.
  - intros e. unfold TreeNode_onClick, onSelect.
    destruct (ctrlKey e || metaKey e); simpl selectedIds.
    + now rewrite has_toggle, String.eqb_refl.
    + unfold JsSet.of_list, JsSet.add, JsSet.has. simpl.
      now rewrite String.eqb_refl.
Qed.

Lemma selection_never_gains_root_witness :
  JsSet.has (id sample_tree) (selectedIds (selectAll (sample_app ["a"]))) = false
  /\ selectedIds (selectAll (selectAll (sample_app ["a"]))) = []
  /\ handleNodeClick "node-1" (ctrl_click "node-1") (sample_app ["a"]) = sample_app ["a"].
Proof.
  assert (Ht : svgTree (sample_app ["a"]) = Some sample_tree) by reflexivity.
  destruct (selection_never_gains_root _ _ Ht) as (Hroot & _ & Hall & Htwice & _).
  split; [exact Hall|]. split; [exact Htwice|]. exact (Hroot (ctrl_click "node-1")).
Defined.

(** ** Reading a property *)

(** C2, as stated, fails: with [fill="red"] and [style="fill: blue"] the
    style string has an entry for [fill], yet the bare attribute is what
    is returned. *)
Lemma getAttrOrStyle_returns_attribute_over_style :
  getStyleValue (JsObject.get "style" (attrs two_fills)) "fill" = Some "blue"
  /\ getAttrOrStyle (Some two_fills) "fill" = Some "red".
Proof. split; reflexivity. Qed.

(** C2, amended: [getAttrOrStyle] returns the bare attribute whenever the
    node has one, whatever the style string holds; the value from the style
    string is returned only when the node has no bare attribute of that
    key. *)
Theorem getAttrOrStyle_prefers_attribute (n : SvgNode) (key : string) :
  (forall v, JsObject.get key (attrs n) = Some v ->
             getAttrOrStyle (Some n) key = Some v)
  /\ (JsObject.get key (attrs n) = None ->
      getAttrOrStyle (Some n) key
      = getStyleValue (JsObject.get "style" (attrs n)) key)
  /\ (forall v, getAttrOrStyle (Some n) key = Some v ->
                getStyleValue (JsObject.get "style" (attrs n)) key <> Some v ->
                JsObject.get key (attrs n) = Some v).
Proof.
  unfold getAttrOrStyle. split; [|split].
  - intros v ->. reflexivity.
  - intros ->. reflexivity.
  - intros v H Hs. destruct (JsObject.get key (attrs n)); [assumption|contradiction].
Qed.

Lemma getAttrOrStyle_prefers_attribute_witness :
  getAttrOrStyle (Some two_fills) "fill" = Some "red"
  /\ getAttrOrStyle (Some two_fills) "stroke"
     = getStyleValue (JsObject.get "style" (attrs two_fills)) "stroke".
Proof.
  split.
  - exact (proj1 (getAttrOrStyle_prefers_attribute two_fills "fill") "red" eq_refl).
  - exact (proj1 (proj2 (getAttrOrStyle_prefers_attribute two_fills "stroke")) eq_refl).
Defined.

(** ** Import *)

(** C9: when no [svg] element is found in the sanitized input,
    [handleSvgInput] returns normally with the tree, the selection and the
    history cleared, the cursor at -1 and the message set. *)
Theorem import_without_svg_root
    (Document : Type) (sanitize : string -> string)
    (parseFromString : string -> Document)
    (querySelector_svg : Document -> option Element)
    (value : string) (s : App) :
  querySelector_svg (parseFromString (sanitize value)) = None ->
  let s' := handleSvgInput Document sanitize parseFromString querySelector_svg value s in
  svgTree s' = None
  /\ latestTreeRef s' = None
  /\ selectedIds s' = []
  /\ history s' = []
  /\ historyIndex s' = (-1)%Z
  /\ error s' = Some "No <svg> tag found. Paste a valid SVG."
  /\ rawSvg s' = value.
Proof.
  intros H. unfold handleSvgInput, parseSvgString. rewrite H. simpl.
  repeat split.
Qed.

Lemma import_without_svg_root_witness :
  let s' := handleSvgInput (option Element) (fun raw => raw) no_svg_parse first_svg
              "<p>not a drawing</p>" (sample_app ["a"]) in
  svgTree s' = None
  /\ latestTreeRef s' = None
  /\ selectedIds s' = []
  /\ history s' = []
  /\ historyIndex s' = (-1)%Z
  /\ error s' = Some "No <svg> tag found. Paste a valid SVG."
  /\ rawSvg s' = "<p>not a drawing</p>".
Proof.
  exact (import_without_svg_root (option Element) (fun raw => raw) no_svg_parse
           first_svg "<p>not a drawing</p>" (sample_app ["a"]) eq_refl).
Defined.

(** ** Export *)

Module StringFacts.

Lemma append_nil_r (s : string) : s ++ "" = s.
Proof. induction s as [|c s IH]; simpl; [reflexivity|now rewrite IH]. Qed.

Lemma append_assoc (a b c : string) : (a ++ b) ++ c = a ++ (b ++ c).
Proof. induction a as [|x a IH]; simpl; [reflexivity|now rewrite IH]. Qed.

Lemma occurs_in_refl (s : string) : JsString.occurs_in s s.
Proof. exists "", "". simpl. now rewrite append_nil_r. Qed.

Lemma occurs_in_app_l (x a b : string) :
  JsString.occurs_in x a -> JsString.occurs_in x (a ++ b).
Proof.
  intros (pre & post & ->). exists pre, (post ++ b).
  rewrite ?append_assoc; reflexivity.
Qed.

Lemma occurs_in_app_r (x a b : string) :
  JsString.occurs_in x b -> JsString.occurs_in x (a ++ b).
Proof.
  intros (pre & post & ->). exists (a ++ pre), post.
  rewrite ?append_assoc; reflexivity.
Qed.

End StringFacts.

Lemma join_empty_sep (l : list string) : JsString.join "" l = concat_all l.
Proof.
  induction l as [|x l IH]; simpl; [reflexivity|].
  destruct l as [|y l].
  - simpl. now rewrite StringFacts.append_nil_r.
  - rewrite IH. reflexivity.
Qed.

Lemma join_blank (l : list string) :
  l <> [] ->
  " " ++ JsString.join " " l = concat_all (map (fun x => " " ++ x) l).
Proof.
  induction l as [|x l IH]; [congruence|]. intros _.
  destruct l as [|y l].
  - simpl. now rewrite StringFacts.append_nil_r.
  - change (JsString.join " " (x :: y :: l)) with (x ++ " " ++ JsString.join " " (y :: l)).
    rewrite IH by discriminate. simpl.
    rewrite ?StringFacts.append_assoc; reflexivity.
Qed.

Lemma join_truthy (sep : string) (l : list string) :
  l <> [] -> Forall (fun x => JsString.truthy x = true) l ->
  JsString.truthy (JsString.join sep l) = true.
Proof.
  destruct l as [|x l]; [congruence|]. intros _ H.
  inversion H as [|? ? Hx _]; subst.
  destruct x as [|c x]; [discriminate|].
  destruct l; reflexivity.
Qed.

Lemma occurs_in_concat_all (f : string * string -> string) (x : string * string)
    (l : list (string * string)) :
  In x l -> JsString.occurs_in (f x) (concat_all (map f l)).
Proof.
  induction l as [|y l IH]; simpl; [contradiction|].
  intros [->|H].
  - apply StringFacts.occurs_in_app_l, StringFacts.occurs_in_refl.
  - apply StringFacts.occurs_in_app_r, IH, H.
Qed.

Lemma serializeNode_eq (n : SvgNode) :
  serializeNode n
  = if String.eqb (tag n) "#text" then or_empty (text n)
    else
      let attrString :=
        JsString.join " "
          (map (fun kv => fst kv ++ "=" ++ JsString.dquote ++ snd kv ++ JsString.dquote)
               (printed_attrs n)) in
      (if JsString.truthy attrString
       then "<" ++ tag n ++ " " ++ attrString ++ ">"
       else "<" ++ tag n ++ ">")
      ++ (or_empty (text n) ++ JsString.join "" (map serializeNode (children n)))
      ++ "</" ++ tag n ++ ">".
Proof. destruct n; reflexivity. Qed.

(** C10: a text leaf is printed as its text; an element is printed as
    [<tag], then [ k="v"] for each attribute other than [data-id] in
    order, then [>], the node's text, its printed children in order and
    [</tag>]; nothing is escaped, so each attribute's [k="v"] stands in the
    output with [v] as stored. *)
Theorem serializeNode_verbatim (n : SvgNode) :
  (tag n = "#text" -> serializeNode n = or_empty (text n))
  /\ (tag n <> "#text" ->
      serializeNode n
      = "<" ++ tag n ++ concat_all (map attribute_text (printed_attrs n)) ++ ">"
        ++ or_empty (text n)
        ++ concat_all (map serializeNode (children n))
        ++ "</" ++ tag n ++ ">"
      /\ forall k v, In (k, v) (attrs n) -> k <> "data-id" ->
           JsString.occurs_in (k ++ "=" ++ JsString.dquote ++ v ++ JsString.dquote)
                              (serializeNode n)).
Proof.
  assert (Hshape : tag n <> "#text" ->
      serializeNode n
      = "<" ++ tag n ++ concat_all (map attribute_text (printed_attrs n)) ++ ">"
        ++ or_empty (text n)
        ++ concat_all (map serializeNode (children n))
        ++ "</" ++ tag n ++ ">").
  { intros Ht. rewrite serializeNode_eq.
    destruct (String.eqb_spec (tag n) "#text") as [|_]; [contradiction|].
    cbv zeta. rewrite join_empty_sep.
    set (fmt := fun kv : string * string =>
                  fst kv ++ "=" ++ JsString.dquote ++ snd kv ++ JsString.dquote).
    destruct (printed_attrs n) as [|kv shown'] eqn:Hs.
    - cbn [map JsString.join JsString.truthy].
      rewrite ?StringFacts.append_assoc. reflexivity.
    - rewrite join_truthy; [| discriminate |].
      + rewrite <- Hs.
        assert (Hj : " " ++ JsString.join " " (map fmt (printed_attrs n))
                     = concat_all (map attribute_text (printed_attrs n))).
        { rewrite join_blank by (rewrite Hs; discriminate).
          rewrite map_map. reflexivity. }
        rewrite <- Hj. rewrite ?StringFacts.append_assoc. reflexivity.
      + apply Forall_forall. intros x Hx. apply in_map_iff in Hx.
        destruct Hx as (y & <- & _). unfold fmt.
        destruct (fst y); reflexivity. }
  split.
  - intros Ht. rewrite serializeNode_eq, Ht. reflexivity.
  - intros Ht. split; [exact (Hshape Ht)|].
    intros k v Hin Hk. rewrite (Hshape Ht).
    apply StringFacts.occurs_in_app_r, StringFacts.occurs_in_app_r,
          StringFacts.occurs_in_app_l.
    assert (Hp : In (k, v) (printed_attrs n)).
    { apply filter_In. split; [assumption|]. simpl.
      now destruct (String.eqb_spec k "data-id"). }
    destruct (occurs_in_concat_all attribute_text (k, v) _ Hp) as (pre & post & E).
    exists (pre ++ " "), post. rewrite E. unfold attribute_text. simpl.
    rewrite ?StringFacts.append_assoc; reflexivity.
Qed.

Lemma serializeNode_verbatim_witness :
  serializeNode quoted_node
  = "<text title=" ++ JsString.dquote
    ++ "say " ++ JsString.dquote ++ "hi" ++ JsString.dquote ++ JsString.dquote
    ++ ">a < b & c</text>".
Proof.
  assert (Ht : tag quoted_node <> "#text") by (simpl; discriminate).
  exact (proj1 (proj2 (serializeNode_verbatim quoted_node) Ht)).
Defined.

(** ** History *)

Lemma at_index_Some {A : Type} (l : list A) (i : Z) (x : A) :
  at_index l i = Some x ->
  (0 <= i)%Z /\ Z.to_nat i < length l /\ nth_error l (Z.to_nat i) = Some x.
Proof.
  unfold at_index. destruct (Z.ltb_spec i 0) as [|Hge]; [discriminate|].
  intros H. repeat split; [assumption| |assumption].
  apply nth_error_Some. congruence.
Qed.

Lemma at_index_nat {A : Type} (l : list A) (n : nat) :
  at_index l (Z.of_nat n) = nth_error l n.
Proof.
  unfold at_index. destruct (Z.ltb_spec (Z.of_nat n) 0); [lia|].
  now rewrite Nat2Z.id.
Qed.

Lemma slice0_nat {A : Type} (l : list A) (n : nat) :
  slice0 l (Z.of_nat n) = firstn n l.
Proof.
  unfold slice0. destruct (Z.ltb_spec (Z.of_nat n) 0); [lia|].
  now rewrite Nat2Z.id.
Qed.

(** What a commit does to the history. *)
Lemma commit_history (s : App) (post : SvgNode) :
  let s1 := updateTreeWithHistory (Some post) s in
  history s1 = (slice0 (history s) (historyIndex s + 1) ++ [post])%list
  /\ historyIndex s1 = (Z.of_nat (length (history s1)) - 1)%Z
  /\ svgTree s1 = Some post
  /\ latestTreeRef s1 = Some post
  /\ selectedIds s1 = selectedIds s
  /\ pendingSave s1 = pendingSave s
  /\ now s1 = now s.
Proof.
  simpl. rewrite cloneNode_id. repeat split.
Qed.




(** ** Plain objects *)

Module JsObjectFacts.
Import JsObject.

Lemma get_app_absent k o o' : mem k o = false -> get k (o ++ o')%list = get k o'.
Proof.
  induction o as [|[k' v'] o IH]; simpl; [reflexivity|].
  destruct (String.eqb k' k); simpl; [discriminate|exact IH].
Qed.

Lemma get_app_other k o k' v :
  k' <> k -> get k (o ++ [(k', v)])%list = get k o.
Proof.
  intros Hne. induction o as [|[k2 v2] o IH]; simpl.
  - destruct (String.eqb_spec k' k); [contradiction|reflexivity].
  - destruct (String.eqb k2 k); [reflexivity|exact IH].
Qed.

Lemma get_replace_same k v o : mem k o = true -> get k (replace k v o) = Some v.
Proof.
  induction o as [|[k' v'] o IH]; simpl; [discriminate|].
  destruct (String.eqb_spec k' k) as [->|Hne]; simpl.
  - now rewrite String.eqb_refl.
  - intros H. destruct (String.eqb_spec k' k); [contradiction|]. now apply IH.
Qed.

Lemma get_replace_other k k' v o : k' <> k -> get k' (replace k v o) = get k' o.
Proof.
  intros Hne. induction o as [|[k2 v2] o IH]; simpl; [reflexivity|].
  destruct (String.eqb_spec k2 k) as [->|H2]; simpl.
  - destruct (String.eqb_spec k k'); [congruence|reflexivity].
  - now rewrite IH.
Qed.

Lemma get_insert_index_same n k v o :
  mem k o = false -> get k (insert_index n k v o) = Some v.
Proof.
  induction o as [|[k' v'] o IH]; simpl.
  - now rewrite String.eqb_refl.
  - destruct (String.eqb_spec k' k) as [|Hne]; simpl; [discriminate|]. intros H.
    destruct (array_index k') as [m|]; [destruct (m <? n)%N|]; simpl;
      rewrite ?String.eqb_refl; try reflexivity.
    destruct (String.eqb_spec k' k); [contradiction|]. now apply IH.
Qed.

Lemma get_insert_index_other n k k' v o :
  k' <> k -> get k' (insert_index n k v o) = get k' o.
Proof.
  intros Hne. induction o as [|[k2 v2] o IH]; simpl.
  - destruct (String.eqb_spec k k'); [congruence|reflexivity].
  - destruct (array_index k2) as [m|]; [destruct (m <? n)%N|]; simpl.
    + now rewrite IH.
    + destruct (String.eqb_spec k k'); [congruence|reflexivity].
    + destruct (String.eqb_spec k k'); [congruence|reflexivity].
Qed.

(** Reading a key just written gives the value written. *)
Lemma get_set_same k v o : get k (set k v o) = Some v.
Proof.
  unfold set. destruct (mem k o) eqn:Hm.
  - now apply get_replace_same.
  - destruct (array_index k).
    + now apply get_insert_index_same.
    + rewrite get_app_absent by assumption. simpl. now rewrite String.eqb_refl.
Qed.

(** Writing a key leaves the other keys as they were. *)
Lemma get_set_other k k' v o : k' <> k -> get k' (set k v o) = get k' o.
Proof.
  intros Hne. unfold set. destruct (mem k o).
  - now apply get_replace_other.
  - destruct (array_index k).
    + now apply get_insert_index_other.
    + apply get_app_other. congruence.
Qed.

Lemma get_delete_same k o : get k (delete k o) = None.
Proof.
  unfold delete. induction o as [|[k' v'] o IH]; simpl; [reflexivity|].
  destruct (String.eqb_spec k' k); simpl; [exact IH|].
  destruct (String.eqb_spec k' k); [contradiction|exact IH].
Qed.

Lemma get_delete_other k k' o : k' <> k -> get k' (delete k o) = get k' o.
Proof.
  intros Hne. unfold delete. induction o as [|[k2 v2] o IH]; simpl; [reflexivity|].
  destruct (String.eqb_spec k2 k) as [->|H2]; simpl.
  - destruct (String.eqb_spec k k'); [congruence|exact IH].
  - now rewrite IH.
Qed.

End JsObjectFacts.

(** ** Style strings *)

Module StyleFacts.
Import JsString.

Lemma has_char_app c a b : has_char c (a ++ b) = has_char c a || has_char c b.
Proof.
  induction a as [|x a IH]; simpl; [reflexivity|].
  now rewrite IH, orb_assoc.
Qed.

Lemma split_absent sep a : has_char sep a = false -> split sep a = (a, []).
Proof.
  induction a as [|x a IH]; simpl; [reflexivity|].
  intros H. apply orb_false_elim in H. destruct H as [Hx Ha].
  now rewrite (IH Ha), Hx.
Qed.

Lemma split_app sep a b :
  has_char sep a = false ->
  split sep (a ++ String sep b) = (a, pieces (split sep b)).
Proof.
  induction a as [|x a IH]; simpl.
  - intros _. destruct (split sep b) as [h t]. now rewrite Ascii.eqb_refl.
  - intros H. apply orb_false_elim in H. destruct H as [Hx Ha].
    now rewrite (IH Ha), Hx.
Qed.

Lemma split_pieces_absent c sep s :
  has_char c s = false ->
  Forall (fun p => has_char c p = false) (pieces (split sep s)).
Proof.
  induction s as [|x s IH]; simpl.
  - intros _. repeat constructor.
  - intros H. apply orb_false_elim in H. destruct H as [Hx Hs].
    specialize (IH Hs). destruct (split sep s) as [h t].
    unfold pieces in *. simpl in *. inversion IH; subst.
    destruct (Ascii.eqb x sep); simpl.
    + constructor; [reflexivity|]. now constructor.
    + constructor; [|assumption]. simpl. now rewrite Hx.
Qed.

Lemma split_pieces_no_sep sep s :
  Forall (fun p => has_char sep p = false) (pieces (split sep s)).
Proof.
  induction s as [|x s IH]; simpl.
  - repeat constructor.
  - destruct (split sep s) as [h t]. unfold pieces in *. simpl in *.
    inversion IH; subst.
    destruct (Ascii.eqb x sep) eqn:Hx; simpl.
    + constructor; [reflexivity|]. now constructor.
    + constructor; [|assumption]. simpl. now rewrite Hx.
Qed.

Lemma trimStart_absent c s : has_char c s = false -> has_char c (trimStart s) = false.
Proof.
  induction s as [|x s IH]; simpl; [reflexivity|].
  intros H. destruct (is_white x); [|exact H].
  apply orb_false_elim in H. now apply IH.
Qed.

Lemma trimEnd_absent c s : has_char c s = false -> has_char c (trimEnd s) = false.
Proof.
  induction s as [|x s IH]; simpl; [reflexivity|].
  intros H. apply orb_false_elim in H. destruct H as [Hx Hs].
  specialize (IH Hs). destruct (trimEnd s) as [|y r].
  - destruct (is_white x); simpl; [reflexivity|now rewrite Hx].
  - simpl in *. now rewrite Hx.
Qed.

Lemma trim_absent c s : has_char c s = false -> has_char c (trim s) = false.
Proof. intros H. now apply trimEnd_absent, trimStart_absent. Qed.

Lemma trimStart_head s : head_not_white (trimStart s).
Proof.
  induction s as [|x s IH]; simpl; [exact I|].
  destruct (is_white x) eqn:Hx; [exact IH|exact Hx].
Qed.

Lemma trimStart_fixed s : head_not_white s -> trimStart s = s.
Proof. destruct s as [|x s]; simpl; [reflexivity|]. now intros ->. Qed.

Lemma trimEnd_cons_not_white c r :
  is_white c = false -> trimEnd (String c r) = String c (trimEnd r).
Proof. intros H. simpl. rewrite H. now destruct (trimEnd r). Qed.

Lemma trimEnd_head s : head_not_white s -> head_not_white (trimEnd s).
Proof.
  destruct s as [|x s]; [intros _; exact I|]. intros H.
  rewrite (trimEnd_cons_not_white _ _ H). exact H.
Qed.

Lemma trimEnd_idem s : trimEnd (trimEnd s) = trimEnd s.
Proof.
  induction s as [|x s IH]; simpl; [reflexivity|].
  destruct (trimEnd s) as [|y r] eqn:Hr.
  - destruct (is_white x) eqn:Hx; simpl; [reflexivity|now rewrite Hx].
  - change (trimEnd (String x (String y r)))
      with (match trimEnd (String y r) with
            | EmptyString => if is_white x then EmptyString else String x EmptyString
            | r' => String x r'
            end).
    now rewrite IH.
Qed.

Lemma trim_head s : head_not_white (trim s).
Proof. apply trimEnd_head, trimStart_head. Qed.

Lemma trim_idem s : trim (trim s) = trim s.
Proof.
  unfold trim at 1. rewrite (trimStart_fixed _ (trim_head s)).
  unfold trim. apply trimEnd_idem.
Qed.

Lemma trimEnd_app_not_white a c b :
  is_white c = false -> trimEnd (a ++ String c b) = a ++ String c (trimEnd b).
Proof.
  intros Hc. induction a as [|x a IH].
  - simpl append. now apply trimEnd_cons_not_white.
  - simpl. rewrite IH. destruct a; reflexivity.
Qed.

Lemma trim_blank_prefix s : trim (String " " s) = trim s.
Proof. reflexivity. Qed.

(** *** The entries of a joined style string *)

Lemma styleEntries_app a b :
  has_char ";" a = false ->
  styleEntries (a ++ String ";" b) = (styleEntries a ++ styleEntries b)%list.
Proof.
  intros Ha. unfold styleEntries.
  rewrite (split_app _ _ _ Ha), (split_absent _ _ Ha).
  unfold pieces at 1 3. simpl fst. simpl snd.
  cbn [map filter]. destruct (truthy (trim a)); reflexivity.
Qed.

Lemma styleEntries_blank b : styleEntries (String " " b) = styleEntries b.
Proof.
  unfold styleEntries. simpl split. destruct (split ";" b) as [h t].
  unfold pieces. simpl. reflexivity.
Qed.

Lemma styleEntries_join xs :
  Forall (fun x => has_char ";" x = false) xs ->
  styleEntries (join "; " xs) = flat_map styleEntries xs.
Proof.
  induction 1 as [|x xs Hx Hxs IH]; [reflexivity|].
  destruct xs as [|y l].
  - simpl. now rewrite app_nil_r.
  - change (join "; " (x :: y :: l))
      with (x ++ String ";" (String " " (join "; " (y :: l)))).
    rewrite (styleEntries_app _ _ Hx), styleEntries_blank, IH. reflexivity.
Qed.

Lemma styleEntries_parsed s : Forall parsed (styleEntries s).
Proof.
  apply Forall_forall. intros e He. unfold styleEntries in He.
  apply in_map_iff in He. destruct He as (p & <- & Hp).
  apply filter_In in Hp. destruct Hp as [Hp _].
  apply in_map_iff in Hp. destruct Hp as (q & <- & Hq).
  assert (Hsemi : has_char ";" (trim q) = false).
  { apply trim_absent.
    exact (proj1 (Forall_forall _ _) (split_pieces_no_sep ";" s) q Hq). }
  pose proof (split_pieces_absent ";" ":" (trim q) Hsemi) as Hs.
  pose proof (split_pieces_no_sep ":" (trim q)) as Hc.
  destruct (split ":" (trim q)) as [k r]. unfold pieces in Hs, Hc. simpl in Hs, Hc.
  inversion Hs as [|? ? Hks Hrs]; subst. inversion Hc as [|? ? Hkc _]; subst.
  unfold parsed, entry_k, entry_v. simpl.
  repeat split.
  - apply trim_head.
  - apply trim_idem.
  - now apply trim_absent.
  - now apply trim_absent.
  - destruct r as [|v r]; [reflexivity|]. simpl.
    inversion Hrs; subst. now apply trim_absent.
Qed.

Lemma styleEntries_printed e :
  truthy (entry_k e) = true -> parsed e ->
  map entry_k (styleEntries (entry_k e ++ ": " ++ template (entry_v e)))
  = [entry_k e].
Proof.
  intros Hne (Hhead & Htrim & Hsemi & Hcolon & Hv).
  set (k := entry_k e) in *. set (v := template (entry_v e)) in *.
  assert (Hx : has_char ";" (k ++ ": " ++ v) = false).
  { rewrite has_char_app, Hsemi. simpl. exact Hv. }
  unfold styleEntries. rewrite (split_absent _ _ Hx).
  unfold pieces. cbn [fst snd map].
  assert (Ht : trim (k ++ ": " ++ v) = k ++ String ":" (trimEnd (String " " v))).
  { unfold trim. rewrite trimStart_fixed.
    - change (k ++ ": " ++ v) with (k ++ String ":" (String " " v)).
      now apply trimEnd_app_not_white.
    - destruct k; [discriminate|exact Hhead]. }
  rewrite Ht.
  assert (Hty : truthy (k ++ String ":" (trimEnd (String " " v))) = true).
  { destruct k; [discriminate|reflexivity]. }
  cbn [filter]. rewrite Hty. cbn [map].
  rewrite (split_app _ _ _ Hcolon). simpl. now rewrite Htrim.
Qed.

(** Printing the entries kept and parsing the result gives the keys
    kept. *)
Lemma styleEntries_reparse s key :
  map entry_k
    (styleEntries
       (join "; "
          (map (fun e => entry_k e ++ ": " ++ template (entry_v e))
               (filter (fun e => negb (String.eqb (entry_k e) key)
                                 && truthy (entry_k e))
                       (styleEntries s)))))
  = map entry_k
      (filter (fun e => negb (String.eqb (entry_k e) key) && truthy (entry_k e))
              (styleEntries s)).
Proof.
  set (es := filter _ (styleEntries s)).
  assert (Hes : Forall (fun e => truthy (entry_k e) = true /\ parsed e) es).
  { apply Forall_forall. intros e He. apply filter_In in He.
    destruct He as [He Hk]. apply andb_prop in Hk. split; [tauto|].
    exact (proj1 (Forall_forall _ _) (styleEntries_parsed s) e He). }
  rewrite styleEntries_join.
  - clear -Hes. induction Hes as [|e es [Hk He] _ IH]; [reflexivity|].
    cbn [map flat_map]. rewrite map_app, (styleEntries_printed e Hk He), IH.
    reflexivity.
  - apply Forall_forall. intros x Hx. apply in_map_iff in Hx.
    destruct Hx as (e & <- & He).
    destruct (proj1 (Forall_forall _ _) Hes e He) as (_ & _ & _ & Hsemi & _ & Hv).
    rewrite has_char_app, Hsemi. simpl. exact Hv.
Qed.

(** [applyStyleValue] with no value leaves no entry for the key. *)
Lemma applyStyleValue_removes style key :
  Forall (fun e => entry_k e <> key) (styleEntries (applyStyleValue style key None)).
Proof.
  unfold applyStyleValue.
  destruct style as [s|]; [|constructor].
  destruct (truthy s); [|constructor].
  destruct (filter (fun e => negb (String.eqb (entry_k e) key) && truthy (entry_k e))
                   (styleEntries s)) as [|e0 es0] eqn:Hf; [constructor|].
  rewrite <- Hf. clear Hf.
  apply Forall_forall. intros e He Hk.
  apply (in_map entry_k) in He. rewrite styleEntries_reparse in He.
  apply in_map_iff in He. destruct He as (e' & Hk' & He').
  apply filter_In in He'. destruct He' as [_ Hb].
  apply andb_prop in Hb. destruct Hb as [Hb _].
  rewrite Hk in Hk'.
  rewrite Hk', String.eqb_refl in Hb. discriminate.
Qed.

End StyleFacts.

(** ** Traversals return *)

Lemma map_opt_Some {A B : Type} (f : A -> option B) (g : A -> B) (l : list A) :
  Forall (fun x => f x = Some (g x)) l -> map_opt f l = Some (map g l).
Proof.
  induction 1 as [|x l Hx _ IH]; simpl; [reflexivity|].
  now rewrite Hx, IH.
Qed.

Lemma height_child (n c : SvgNode) : In c (children n) -> height c < height n.
Proof.
  destruct n as [i t a cs tx]. simpl.
  induction cs as [|d cs IH]; simpl; [contradiction|].
  intros [->|H]; [lia|]. specialize (IH H). lia.
Qed.

(** [updateNode] returns, whatever the mutation, once the fuel exceeds the
    height of the tree. *)
Lemma updateNode_returns (fuel : nat) (node : SvgNode) (id0 : string)
    (mutate : SvgNode -> SvgNode) :
  height node < fuel ->
  updateNode fuel node id0 mutate = Some (mapTarget id0 mutate node).
Proof.
  revert node. induction fuel as [|fuel IH]; intros node Hh; [lia|].
  destruct node as [i t a cs tx].
  cbn [updateNode mapTarget]. rewrite !cloneNode_id. cbn [id children].
  destruct (String.eqb i id0); [reflexivity|].
  rewrite (map_opt_Some _ (mapTarget id0 mutate)); [reflexivity|].
  apply Forall_forall. intros c Hc. apply IH.
  pose proof (height_child (mkNode i t a cs tx) c Hc). lia.
Qed.

(** [updateMultipleNodes] returns for a mutation that leaves the children
    alone. *)
Lemma updateMultipleNodes_returns (fuel : nat) (node : SvgNode) (ids : JsSet.t)
    (mutate : SvgNode -> SvgNode) :
  (forall n, children (mutate n) = children n) ->
  height node < fuel ->
  updateMultipleNodes fuel node ids mutate = Some (mapSelected ids mutate node).
Proof.
  intros Hm. revert node. induction fuel as [|fuel IH]; intros node Hh; [lia|].
  cbn [updateMultipleNodes]. rewrite !cloneNode_id.
  assert (Hc : children (if JsSet.has (id node) ids then mutate node else node)
               = children node).
  { destruct (JsSet.has (id node) ids); [apply Hm|reflexivity]. }
  rewrite Hc, (map_opt_Some _ (mapSelected ids mutate)).
  - destruct node as [i t a cs tx]. reflexivity.
  - apply Forall_forall. intros c Hin. apply IH.
    pose proof (height_child node c Hin). lia.
Qed.

Lemma writeAttribute_children key value n :
  children (writeAttribute key value n) = children n.
Proof.
  unfold writeAttribute.
  destruct (String.eqb key "fill" || String.eqb key "stroke");
    [destruct (JsString.truthy (applyStyleValue _ _ _))|];
    destruct (JsString.truthy value); reflexivity.
Qed.

Lemma writeAttribute_id key value n : id (writeAttribute key value n) = id n.
Proof.
  unfold writeAttribute.
  destruct (String.eqb key "fill" || String.eqb key "stroke");
    [destruct (JsString.truthy (applyStyleValue _ _ _))|];
    destruct (JsString.truthy value); reflexivity.
Qed.

Lemma findNode_in_id (t : SvgNode) (i : string) (n : SvgNode) :
  findNode_in t i = Some n -> id n = i.
Proof.
  induction t as [t IH] using SvgNode_ind.
  destruct t as [j tg a cs tx]. simpl in *.
  destruct (JsString.truthy i); simpl; [|discriminate].
  destruct (String.eqb_spec j i) as [->|_].
  - intros E. injection E as <-. reflexivity.
  - induction IH as [|c cs Hc _ IHcs]; [discriminate|].
    destruct (findNode_in c i) eqn:Ec.
    + intros E. injection E as <-. now apply Hc.
    + exact IHcs.
Qed.

Lemma findNode_in_mapSelected (ids : JsSet.t) (f : SvgNode -> SvgNode)
    (t : SvgNode) (i : string) :
  (forall n, id (f n) = id n) ->
  findNode_in (mapSelected ids f t) i
  = option_map (mapSelected ids f) (findNode_in t i).
Proof.
  intros Hf. induction t as [t IH] using SvgNode_ind.
  destruct t as [j tg a cs tx].
  cbn [mapSelected findNode_in id children].
  destruct (JsString.truthy i); simpl; [|reflexivity].
  assert (Hid : id (if JsSet.has j ids then f (mkNode j tg a cs tx)
                    else mkNode j tg a cs tx) = j).
  { destruct (JsSet.has j ids); [now rewrite Hf|reflexivity]. }
  rewrite Hid. destruct (String.eqb j i); [simpl; now rewrite Hid|].
  clear Hid. simpl in IH. induction IH as [|c cs' Hc _ IHcs]; [reflexivity|].
  cbn [map]. rewrite Hc. destruct (findNode_in c i); [reflexivity|exact IHcs].
Qed.

(** ** The reconciler *)

Lemma attrs_mapSelected ids f n :
  attrs (mapSelected ids f n) = attrs (if JsSet.has (id n) ids then f n else n).
Proof. destruct n; reflexivity. Qed.

Lemma getStyleValue_lacking (key : string) (n : SvgNode) :
  style_lacks key n -> getStyleValue (JsObject.get "style" (attrs n)) key = None.
Proof.
  unfold style_lacks, getStyleValue.
  destruct (JsObject.get "style" (attrs n)) as [st|]; [|reflexivity].
  intros H. destruct (JsString.truthy st); [|reflexivity]. simpl.
  induction H as [|e es He _ IH]; [reflexivity|]. simpl.
  destruct (String.eqb_spec (entry_k e) key); [contradiction|exact IH].
Qed.

Lemma subtree_at_mapSelected (ids : JsSet.t) (f : SvgNode -> SvgNode)
    (p : list nat) (t : SvgNode) :
  subtree_at p (mapSelected ids f t)
  = option_map (mapSelected ids f) (subtree_at p t).
Proof.
  revert t. induction p as [|i q IH]; intros t; [reflexivity|].
  destruct t as [j tg a cs tx]. cbn [mapSelected subtree_at children].
  rewrite nth_error_map. destruct (nth_error cs i); [apply IH|reflexivity].
Qed.

Lemma id_mapSelected (ids : JsSet.t) (f : SvgNode -> SvgNode) (n : SvgNode) :
  (forall m, id (f m) = id m) -> id (mapSelected ids f n) = id n.
Proof.
  intros Hf. destruct n as [j tg a cs tx]. cbn [mapSelected id].
  destruct (JsSet.has j ids); [apply Hf|reflexivity].
Qed.

(** ** Debounced history *)

Lemma colorChange_mid_burst (h : list SvgNode) (i : Z) (ids : JsSet.t)
    (tree : SvgNode) (t : nat) (s : App) (ev : nat * (string * string)) :
  ids <> [] -> mid_burst h i ids tree t s -> fst ev < t + 500 ->
  exists s',
    colorChange ev s = Some s'
    /\ mid_burst h i ids
         (mapSelected ids (writeAttribute (fst (snd ev)) (snd (snd ev))) tree)
         (fst ev) s'.
Proof.
  intros Hids (Ht & Hl & Hs & Hh & Hi & Hp & Hn) Hlt.
  destruct ev as [t' [key value]]. simpl in *.
  unfold colorChange, advance. rewrite Hp. simpl due.
  destruct (Nat.leb_spec (t + 500) t'); [lia|].
  unfold updateAttributeWithoutHistory.
  cbn [selectedIds svgTree setNow]. rewrite Hs, Ht.
  destruct ids as [|x xs]; [congruence|]. cbn [JsSet.size length Nat.eqb].
  rewrite (updateMultipleNodes_returns _ _ _ _ (writeAttribute_children key value))
    by (unfold enough; lia).
  eexists. split; [reflexivity|].
  unfold mid_burst. simpl. rewrite Hh, Hi. repeat split; assumption.
Qed.

Lemma last_time_cons (t : nat) (ev : nat * (string * string))
    (evs : list (nat * (string * string))) :
  last_time t (ev :: evs) = last_time (fst ev) evs.
Proof.
  unfold last_time. cbn [map]. generalize (fst ev) as a, (map fst evs) as l.
  intros a l. revert t a. induction l as [|b l IH]; intros t a; [reflexivity|].
  change (last (a :: b :: l) t) with (last (b :: l) t).
  now rewrite (IH t b), (IH a b).
Qed.

Lemma colorChanges_mid_burst (h : list SvgNode) (i : Z) (ids : JsSet.t)
    (evs : list (nat * (string * string))) :
  ids <> [] ->
  forall (tree : SvgNode) (t : nat) (s : App),
    mid_burst h i ids tree t s -> spaced t evs ->
    exists s',
      colorChanges evs s = Some s'
      /\ mid_burst h i ids (liveTree ids tree evs) (last_time t evs) s'.
Proof.
  intros Hids. induction evs as [|ev evs IH]; intros tree t s Hmid Hsp.
  - exists s. split; [reflexivity|exact Hmid].
  - destruct Hsp as (Hle & Hlt & Hsp).
    destruct (colorChange_mid_burst h i ids tree t s ev Hids Hmid Hlt)
      as (s1 & Hrun & Hmid1).
    destruct (IH _ _ _ Hmid1 Hsp) as (s' & Hrun' & Hmid').
    exists s'. split.
    + cbn [colorChanges]. rewrite Hrun. exact Hrun'.
    + unfold liveTree in *. rewrite last_time_cons. exact Hmid'.
Qed.

Lemma first_colorChange (s : App) (tree : SvgNode) (ev : nat * (string * string)) :
  svgTree s = Some tree -> selectedIds s <> [] -> pendingSave s = None ->
  exists s',
    colorChange ev s = Some s'
    /\ mid_burst (history s) (historyIndex s) (selectedIds s)
         (mapSelected (selectedIds s)
            (writeAttribute (fst (snd ev)) (snd (snd ev))) tree)
         (fst ev) s'.
Proof.
  intros Ht Hsel Hp. destruct ev as [t [key value]]. simpl.
  unfold colorChange, advance. rewrite Hp.
  unfold updateAttributeWithoutHistory.
  cbn [selectedIds svgTree setNow]. rewrite Ht.
  destruct (selectedIds s) as [|x xs] eqn:Hs; [congruence|].
  cbn [JsSet.size length Nat.eqb].
  rewrite (updateMultipleNodes_returns _ _ _ _ (writeAttribute_children key value))
    by (unfold enough; lia).
  eexists. split; [reflexivity|].
  unfold mid_burst. simpl. rewrite Hs. repeat split.
Qed.

Lemma spaced_prefix (t : nat) (pre post : list (nat * (string * string))) :
  spaced t (pre ++ post)%list -> spaced t pre.
Proof.
  revert t. induction pre as [|ev pre IH]; intros t; simpl; [trivial|].
  intros (H1 & H2 & H3). repeat split; try assumption. now apply IH.
Qed.

Lemma mid_burst_advance (h : list SvgNode) (i : Z) (ids : JsSet.t)
    (tree : SvgNode) (t : nat) (s : App) (t' : nat) :
  mid_burst h i ids tree t s ->
  (t' < t + 500 ->
   history (advance t' s) = h /\ historyIndex (advance t' s) = i
   /\ svgTree (advance t' s) = Some tree)
  /\ (t + 500 <= t' ->
      history (advance t' s) = (slice0 h (i + 1) ++ [tree])%list
      /\ historyIndex (advance t' s)
         = (Z.of_nat (length (history (advance t' s))) - 1)%Z
      /\ svgTree (advance t' s) = Some tree
      /\ pendingSave (advance t' s) = None).
Proof.
  intros (Ht & Hl & Hs & Hh & Hi & Hp & Hn).
  unfold advance. rewrite Hp. simpl due. split; intros Hcmp.
  - destruct (Nat.leb_spec (t + 500) t'); [lia|]. simpl. tauto.
  - destruct (Nat.leb_spec (t + 500) t'); [|lia].
    unfold fireSave. cbn [latestTreeRef setPendingSave]. rewrite Hl.
    simpl. rewrite cloneNode_id, Ht. repeat split.
Qed.

(** ** Duplication *)

(** [duplicateSelected] always returns. *)
Lemma duplicateSelected_returns (s : App) : exists s', duplicateSelected s = Some s'.
Proof.
  unfold duplicateSelected.
  destruct (svgTree s) as [tree|]; [|now exists s].
  destruct (JsSet.first (selectedIds s)) as [firstId|]; [|now exists s].
  destruct (String.eqb firstId (id tree)); [now exists s|].
  destruct (findParent tree firstId None) as [parent|]; [|now exists s].
  destruct (findNode (Some tree) (Some firstId)) as [node|]; [|now exists s].
  rewrite updateNode_returns by (unfold enough; lia).
  eexists. reflexivity.
Qed.

(** C3 fails on the code: [assignNewIds] derives the same id, [r1-copy],
    each time [r1] is duplicated, so after the second duplication two
    nodes of the live tree carry it. *)
Theorem duplicate_twice_repeats_id :
  exists s t,
    duplicate_twice = Some s
    /\ svgTree s = Some t
    /\ allIds t = ["node-1"; "r1"; "r1-copy"; "r1-copy"]
    /\ ~ NoDup (allIds t).
Proof.
  eexists. eexists. split; [vm_compute; reflexivity|].
  split; [reflexivity|]. split; [reflexivity|].
  simpl. intros H. inversion H as [|? ? _ H1]; subst.
  inversion H1 as [|? ? _ H2]; subst.
  inversion H2 as [|? ? Hin _]; subst.
  apply Hin. left. reflexivity.
Qed.

(** ** Object identity under [updateNode] *)

Module IdentityFacts.
Import Identity.

Lemma cloneNode_unfold (node : Obj) (free : addr) :
  cloneNode node free
  = let '(cs, free') := cloneChildren (ochildren node) (S free) in
    (mkObj free (oid node) (otag node) (oattrs node) cs (otext node), free').
Proof. destruct node; reflexivity. Qed.

Lemma updateNode_unfold (fuel : nat) (node : Obj) (y : string) (m : Mutation)
    (free : addr) :
  updateNode (S fuel) node y m free
  = if String.eqb (oid node) y then
      let '(next, free) := cloneNode node free in
      Some (mutated m next free)
    else
      let '(next, free) := cloneNode node free in
      match updateChildren fuel y m (ochildren next) free with
      | Some (cs, free) =>
          Some (mkObj (address next) (oid next) (otag next) (oattrs next)
                      cs (otext next), free)
      | None => None
      end.
Proof. reflexivity. Qed.

Lemma oheight_child (o c : Obj) : In c (ochildren o) -> oheight c < oheight o.
Proof.
  destruct o as [a i t at_ cs tx]. simpl.
  induction cs as [|d cs IH]; simpl; [contradiction|].
  intros [->|H]; [lia|]. specialize (IH H). lia.
Qed.

Lemma oheight_map (cs cs' : list Obj) :
  map oheight cs' = map oheight cs ->
  fold_right (fun c h => Nat.max (oheight c) h) 0 cs'
  = fold_right (fun c h => Nat.max (oheight c) h) 0 cs.
Proof.
  revert cs'. induction cs as [|c cs IH]; intros [|c' cs']; simpl;
    try discriminate; [reflexivity|].
  intros H. injection H as Hc Hcs. now rewrite Hc, (IH _ Hcs).
Qed.

(** A clone holds the same value, stands as high, and is made of objects
    allocated from [free] on. *)
Lemma cloneNode_spec (node : Obj) :
  forall free,
    erase (fst (cloneNode node free)) = erase node
    /\ free <= snd (cloneNode node free)
    /\ Forall (fun a => free <= a) (addresses (fst (cloneNode node free)))
    /\ oheight (fst (cloneNode node free)) = oheight node.
Proof.
  induction node as [node IH] using Obj_ind. intros free.
  rewrite cloneNode_unfold.
  assert (Hcs : forall f,
            map erase (fst (cloneChildren (ochildren node) f))
            = map erase (ochildren node)
            /\ f <= snd (cloneChildren (ochildren node) f)
            /\ Forall (fun a => f <= a)
                 (flat_map addresses (fst (cloneChildren (ochildren node) f)))
            /\ map oheight (fst (cloneChildren (ochildren node) f))
               = map oheight (ochildren node)).
  { induction IH as [|c cs Hc _ IHcs]; intros f.
    - simpl. repeat split; [lia|constructor].
    - cbn [cloneChildren].
      destruct (Hc f) as (E1 & L1 & A1 & H1).
      destruct (cloneNode c f) as [c' f1]. simpl in E1, L1, A1, H1.
      destruct (IHcs f1) as (E2 & L2 & A2 & H2).
      destruct (cloneChildren cs f1) as [cs' f2]. simpl in E2, L2, A2, H2.
      simpl. rewrite E1, E2, H1, H2. repeat split; [lia|].
      apply Forall_app. split; [exact A1|].
      eapply Forall_impl; [|exact A2]. simpl. intros; lia. }
  destruct (Hcs (S free)) as (E & L & A & H).
  destruct (cloneChildren (ochildren node) (S free)) as [cs' f'].
  simpl in *. destruct node as [a i t at_ cs tx]. simpl in *.
  rewrite E, (oheight_map _ _ H). repeat split; [lia|].
  constructor; [lia|]. eapply Forall_impl; [|exact A]. simpl. intros; lia.
Qed.

Lemma copied_afresh_weaken (y : string) (free free1 : addr) (T : SvgNode) (T' : Obj) :
  free <= free1 -> copied_afresh y free1 T T' -> copied_afresh y free T T'.
Proof.
  intros Hle H p X H1 H2 H3. destruct (H p X H1 H2 H3) as (X' & Ha & Hb & Hc).
  exists X'. repeat split; try assumption.
  eapply Forall_impl; [|exact Hc]. simpl. intros; lia.
Qed.

Lemma Forall2_nth_error {A B : Type} (R : A -> B -> Prop) (l : list A) (l' : list B) :
  Forall2 R l l' ->
  forall i a, nth_error l i = Some a -> exists b, nth_error l' i = Some b /\ R a b.
Proof.
  induction 1 as [|x y l l' Hxy _ IH]; intros [|i] a; simpl; try discriminate.
  - intros E. injection E as <-. now exists y.
  - apply IH.
Qed.

Lemma updateChildren_spec (fuel : nat) (y : string) (m : Mutation) :
  (forall node free, oheight node < fuel ->
     exists r free',
       updateNode fuel node y m free = Some (r, free')
       /\ free <= free' /\ copied_afresh y free (erase node) r) ->
  forall cs free,
    Forall (fun c => oheight c < fuel) cs ->
    exists cs' free',
      updateChildren fuel y m cs free = Some (cs', free')
      /\ free <= free'
      /\ Forall2 (fun c c' => copied_afresh y free (erase c) c') cs cs'.
Proof.
  intros IH cs. induction cs as [|c cs IHcs]; intros free Hh.
  - exists [], free. repeat split; [lia|constructor].
  - inversion Hh as [|? ? Hc Hcs]; subst.
    destruct (IH c free Hc) as (r & f1 & Hrun & Hle & Hr).
    destruct (IHcs f1 Hcs) as (cs' & f2 & Hrun' & Hle' & Hrs).
    exists (r :: cs'), f2. cbn [updateChildren].
    rewrite Hrun. fold (updateChildren fuel y m). rewrite Hrun'.
    repeat split; [lia|]. constructor; [exact Hr|].
    eapply Forall2_impl; [|exact Hrs].
    intros a b. now apply copied_afresh_weaken.
Qed.

(** [updateNode] returns, and copies afresh whatever it does not
    mutate. *)
Lemma updateNode_spec (fuel : nat) (y : string) (m : Mutation) :
  forall node free,
    oheight node < fuel ->
    exists r free',
      updateNode fuel node y m free = Some (r, free')
      /\ free <= free' /\ copied_afresh y free (erase node) r.
Proof.
  induction fuel as [|fuel IH]; intros node free Hh; [lia|].
  rewrite updateNode_unfold.
  destruct (cloneNode_spec node free) as (E & L & A & H).
  destruct (cloneNode node free) as [next f1]. simpl in E, L, A, H.
  destruct (String.eqb_spec (oid node) y) as [Hy|Hy].
  - unfold mutated. destruct (m next f1) as [fields used].
    eexists. eexists. split; [reflexivity|]. split; [lia|].
    intros p X Hsub Hclear Hno. exfalso.
    destruct p as [|i q].
    + simpl in Hsub. injection Hsub as <-. apply Hno.
      destruct node; simpl in *. now left.
    + simpl in Hclear. destruct Hclear as [Hne _]. apply Hne.
      destruct node; exact Hy.
  - assert (Hkids : Forall (fun c => oheight c < fuel) (ochildren next)).
    { apply Forall_forall. intros c Hc.
      pose proof (oheight_child next c Hc). lia. }
    destruct (updateChildren_spec fuel y m IH (ochildren next) f1 Hkids)
      as (cs' & f2 & Hrun & Hle & Hrel).
    rewrite Hrun. eexists. eexists. split; [reflexivity|]. split; [lia|].
    assert (Enext : erase node
                    = mkNode (oid next) (otag next) (oattrs next)
                             (map erase (ochildren next)) (otext next)).
    { rewrite <- E. destruct next; reflexivity. }
    intros p X Hsub Hclear Hno. rewrite Enext in Hsub, Hclear.
    destruct p as [|i q].
    + simpl in Hsub. injection Hsub as <-.
      simpl in Hno.
      assert (Hcopy : map erase cs' = map erase (ochildren next)
                      /\ Forall (fun a => f1 <= a) (flat_map addresses cs')).
      { assert (Hnone : forall c, In c (ochildren next) -> ~ In y (allIds (erase c))).
        { intros c Hc Hin. apply Hno. right.
          apply in_flat_map. exists (erase c). split; [|exact Hin].
          now apply in_map. }
        clear -Hrel Hnone. induction Hrel as [|c c' cs cs' Hc _ IHrel].
        - split; constructor.
        - destruct (Hc [] (erase c) eq_refl I (Hnone c (or_introl eq_refl)))
            as (X' & Hat & He & Ha).
          simpl in Hat. injection Hat as <-.
          destruct IHrel as [E1 A1].
          { intros d Hd. apply Hnone. now right. }
          simpl. rewrite He, E1. split; [reflexivity|].
          apply Forall_app. split; assumption. }
      destruct Hcopy as [Ecs Acs].
      eexists. split; [reflexivity|]. split.
      * simpl. now rewrite Ecs.
      * simpl. constructor.
        -- destruct next; simpl in *. now inversion A.
        -- eapply Forall_impl; [|exact Acs]. simpl. intros; lia.
    + simpl in Hsub, Hclear. destruct Hclear as [_ Hclear].
      rewrite nth_error_map in Hsub, Hclear.
      destruct (nth_error (ochildren next) i) as [c|] eqn:Hc; [|discriminate].
      simpl in Hsub, Hclear.
      destruct (Forall2_nth_error _ _ _ Hrel i c Hc) as (c' & Hc' & Hcc).
      destruct (Hcc q X Hsub Hclear Hno) as (X' & Hat & He & Ha).
      exists X'. split; [|split].
      * simpl. now rewrite Hc'.
      * exact He.
      * eapply Forall_impl; [|exact Ha]. simpl. intros; lia.
Qed.

Lemma object_at_erase (p : list nat) (T X : Obj) :
  object_at p T = Some X -> subtree_at p (erase T) = Some (erase X).
Proof.
  revert T. induction p as [|i q IH]; intros T; simpl.
  - intros E. now injection E as <-.
  - destruct T as [a j t at_ cs tx]. simpl. rewrite nth_error_map.
    destruct (nth_error cs i) as [c|]; simpl; [apply IH|discriminate].
Qed.

Lemma object_at_address (p : list nat) (T X : Obj) :
  object_at p T = Some X -> In (address X) (addresses T).
Proof.
  revert T. induction p as [|i q IH]; intros T; simpl.
  - intros E. injection E as <-. destruct T; simpl. now left.
  - destruct (nth_error (ochildren T) i) as [c|] eqn:Hc; [|discriminate].
    intros H. destruct T as [a j t at_ cs tx]. simpl in *. right.
    apply in_flat_map. exists c. split; [|now apply IH].
    eapply nth_error_In, Hc.
Qed.

Lemma Forall2_nth_error_r {A B : Type} (R : A -> B -> Prop) (l : list A) (l' : list B) :
  Forall2 R l l' ->
  forall i b, nth_error l' i = Some b -> exists a, nth_error l i = Some a /\ R a b.
Proof.
  induction 1 as [|x y l l' Hxy _ IH]; intros [|i] b; simpl; try discriminate.
  - intros E. injection E as <-. now exists x.
  - apply IH.
Qed.

(** The loop over the children hands each child's result on, for any
    property of a result that holds from an earlier free address when it
    holds from a later one. *)
Lemma updateChildren_each (R : Obj -> addr -> Obj -> Prop) (fuel : nat) (y : string)
    (m : Mutation) :
  (forall c f f' r, f <= f' -> R c f' r -> R c f r) ->
  (forall c free r free',
      updateNode fuel c y m free = Some (r, free') -> free <= free' /\ R c free r) ->
  forall cs free cs' free',
    updateChildren fuel y m cs free = Some (cs', free') ->
    free <= free' /\ Forall2 (fun c c' => R c free c') cs cs'.
Proof.
  intros Hmono IH cs. induction cs as [|c cs IHcs]; intros free cs' free' H.
  - simpl in H. injection H as <- <-. split; [lia|constructor].
  - cbn [updateChildren] in H.
    destruct (updateNode fuel c y m free) as [[c1 f1]|] eqn:Hc; [|discriminate].
    fold (updateChildren fuel y m) in H.
    destruct (updateChildren fuel y m cs f1) as [[rest f2]|] eqn:Hr; [|discriminate].
    injection H as <- <-.
    destruct (IH _ _ _ _ Hc) as [L1 R1].
    destruct (IHcs _ _ _ Hr) as [L2 R2].
    split; [lia|]. constructor; [exact R1|].
    eapply Forall2_impl; [|exact R2]. intros a b. now apply Hmono.
Qed.

(** Every object of an update that is not inside a target, the target
    itself included, was allocated by the call. *)
Lemma updateNode_allocates (y : string) (m : Mutation) :
  forall fuel node free r free',
    updateNode fuel node y m free = Some (r, free') ->
    free <= free'
    /\ forall p X',
         object_at p r = Some X' -> above_clear y p (erase node) ->
         free <= address X'.
Proof.
  induction fuel as [|fuel IH]; intros node free r free' H; [discriminate|].
  rewrite updateNode_unfold in H.
  destruct (cloneNode_spec node free) as (E & L & A & _).
  destruct (cloneNode node free) as [next f1]. simpl in E, L, A.
  assert (Hnext : free <= address next).
  { destruct next; simpl in *. now inversion A. }
  destruct (String.eqb_spec (oid node) y) as [Hy|Hy].
  - unfold mutated in H. destruct (m next f1) as [fields used].
    injection H as <- <-. split; [lia|].
    intros p X' Hat Hclear. destruct p as [|i q].
    + simpl in Hat. injection Hat as <-. exact Hnext.
    + exfalso. simpl in Hclear. destruct Hclear as [Hne _]. apply Hne.
      destruct node; exact Hy.
  - destruct (updateChildren fuel y m (ochildren next) f1) as [[cs' f2]|] eqn:Hloop;
      [|discriminate].
    injection H as <- <-.
    destruct (updateChildren_each
                (fun c f c' => forall p X', object_at p c' = Some X' ->
                                 above_clear y p (erase c) -> f <= address X')
                fuel y m
                (fun c f f' r Hle HR p X' Hat Hcl =>
                   Nat.le_trans _ _ _ Hle (HR p X' Hat Hcl))
                (IH) _ _ _ _ Hloop) as [L2 Hrel].
    split; [lia|].
    intros p X' Hat Hclear. destruct p as [|i q].
    + simpl in Hat. injection Hat as <-. exact Hnext.
    + simpl in Hat, Hclear. destruct Hclear as [_ Hclear].
      destruct (nth_error cs' i) as [c'|] eqn:Hc'; [|discriminate].
      destruct (Forall2_nth_error_r _ _ _ Hrel i c' Hc') as (c1 & Hc1 & HR).
      assert (Hkids : children (erase node) = map erase (ochildren next)).
      { rewrite <- E. destruct next; reflexivity. }
      rewrite Hkids, nth_error_map, Hc1 in Hclear. simpl in Hclear.
      pose proof (HR q X' Hat Hclear). lia.
Qed.

(** When the mutation leaves under its target only objects that satisfy
    [Q], as every object allocated from [free0] on does, every object of
    the update satisfies [Q]. *)
Lemma updateNode_all_new (Q : addr -> Prop) (free0 : addr) (y : string) (m : Mutation) :
  (forall a, free0 <= a -> Q a) ->
  (forall target fr,
      Forall (fun a => free0 <= a) (addresses target) -> free0 <= fr ->
      Forall Q (flat_map addresses (ochildren (fst (m target fr))))) ->
  forall fuel node free r free',
    free0 <= free ->
    updateNode fuel node y m free = Some (r, free') ->
    free <= free' /\ Forall Q (addresses r).
Proof.
  intros HQ Hm. induction fuel as [|fuel IH]; intros node free r free' H0 H;
    [discriminate|].
  rewrite updateNode_unfold in H.
  destruct (cloneNode_spec node free) as (_ & L & A & _).
  destruct (cloneNode node free) as [next f1]. simpl in L, A.
  assert (A0 : Forall (fun a => free0 <= a) (addresses next)).
  { eapply Forall_impl; [|exact A]. simpl. intros; lia. }
  assert (Hnext : Q (address next)).
  { apply HQ. destruct next; simpl in *. now inversion A0. }
  destruct (String.eqb (oid node) y).
  - pose proof (Hm next f1 A0 (Nat.le_trans _ _ _ H0 L)) as Hkids.
    unfold mutated in H. destruct (m next f1) as [fields used]. simpl in Hkids.
    injection H as <- <-. split; [lia|]. simpl. now constructor.
  - destruct (updateChildren fuel y m (ochildren next) f1) as [[cs' f2]|] eqn:Hloop;
      [|discriminate].
    injection H as <- <-.
    assert (Hall : forall cs f cs2 f',
              free0 <= f ->
              updateChildren fuel y m cs f = Some (cs2, f') ->
              f <= f' /\ Forall Q (flat_map addresses cs2)).
    { induction cs as [|c cs IHcs]; intros f cs2 f' Hf Hrun.
      - simpl in Hrun. injection Hrun as <- <-. split; [lia|constructor].
      - cbn [updateChildren] in Hrun.
        destruct (updateNode fuel c y m f) as [[c1 g1]|] eqn:Hc; [|discriminate].
        fold (updateChildren fuel y m) in Hrun.
        destruct (updateChildren fuel y m cs g1) as [[rest g2]|] eqn:Hr; [|discriminate].
        injection Hrun as <- <-.
        destruct (IH _ _ _ _ Hf Hc) as [L1 Q1].
        destruct (IHcs _ _ _ (Nat.le_trans _ _ _ Hf L1) Hr) as [L2 Q2].
        split; [lia|]. simpl. apply Forall_app. now split. }
    destruct (Hall _ _ _ _ (Nat.le_trans _ _ _ H0 L) Hloop) as [L2 Q2].
    split; [lia|]. simpl. now constructor.
Qed.

End IdentityFacts.

Lemma map_opt_erase (g : Identity.Obj -> Identity.addr -> option (Identity.Obj * Identity.addr))
    (h : SvgNode -> option SvgNode)
    (loop : list Identity.Obj -> Identity.addr
            -> option (list Identity.Obj * Identity.addr)) :
  (forall c free c' free', g c free = Some (c', free') ->
                           h (Identity.erase c) = Some (Identity.erase c')) ->
  (forall free, loop [] free = Some ([], free)) ->
  (forall c rest free,
      loop (c :: rest) free
      = match g c free with
        | Some (c', free) =>
            match loop rest free with
            | Some (rest', free) => Some (c' :: rest', free)
            | None => None
            end
        | None => None
        end) ->
  forall cs free cs' free',
    loop cs free = Some (cs', free') ->
    map_opt h (map Identity.erase cs) = Some (map Identity.erase cs').
Proof.
  intros Hg Hnil Hcons cs. induction cs as [|c cs IH]; intros free cs' free'.
  - rewrite Hnil. intros E. injection E as <- _. reflexivity.
  - rewrite Hcons. destruct (g c free) as [[c1 f1]|] eqn:Ec; [|discriminate].
    destruct (loop cs f1) as [[rest f2]|] eqn:Er; [|discriminate].
    intros E. injection E as <- _. simpl.
    now rewrite (Hg _ _ _ _ Ec), (IH _ _ _ Er).
Qed.

(** The update of objects is the update of the values they hold, for a
    mutation of objects that acts on values as [f] does. *)
Lemma updateNode_erase (y : string) (m : Identity.Mutation) (f : SvgNode -> SvgNode) :
  (forall o free, Identity.erase (fst (Identity.mutated m o free)) = f (Identity.erase o)) ->
  forall fuel node free r free',
    Identity.updateNode fuel node y m free = Some (r, free') ->
    updateNode fuel (Identity.erase node) y f = Some (Identity.erase r).
Proof.
  intros Hm fuel. induction fuel as [|fuel IH]; intros node free r free'; [discriminate|].
  rewrite IdentityFacts.updateNode_unfold.
  destruct (IdentityFacts.cloneNode_spec node free) as (E & _).
  destruct (Identity.cloneNode node free) as [next f1]. simpl in E.
  cbn [updateNode]. rewrite !cloneNode_id.
  replace (id (Identity.erase node)) with (Identity.oid node)
    by (destruct node; reflexivity).
  destruct (String.eqb (Identity.oid node) y).
  - intros H. injection H as H.
    replace r with (fst (Identity.mutated m next f1)) by now rewrite H.
    now rewrite Hm, E.
  - destruct (Identity.updateChildren fuel y m (Identity.ochildren next) f1)
      as [[cs' f2]|] eqn:Hloop; [|discriminate].
    intros H. injection H as <- _.
    assert (Hkids : children (Identity.erase node)
                    = map Identity.erase (Identity.ochildren next)).
    { rewrite <- E. destruct next; reflexivity. }
    rewrite Hkids.
    rewrite (map_opt_erase (fun c free => Identity.updateNode fuel c y m free)
               (fun c => updateNode fuel c y f)
               (Identity.updateChildren fuel y m)
               (fun c free c' free' H => IH c free c' free' H)
               (fun _ => eq_refl) (fun _ _ _ => eq_refl) _ _ _ _ Hloop).
    rewrite <- E. destruct next; reflexivity.
Qed.

(** C4, as stated, fails: [updateNode] on the target [a] returns a tree
    whose child [b], off the path to [a], is an object allocated by the
    call (address 7) and not the object of the old tree (address 2). *)
Lemma updateNode_copies_the_sibling :
  option_map Identity.address (Identity.object_at [1] Identity.sample_objects) = Some 2
  /\ match Identity.updateNode 3 Identity.sample_objects "a" Identity.sample_move 3 with
     | Some (T', _) => option_map Identity.address (Identity.object_at [1] T') = Some 7
     | None => False
     end.
Proof. split; reflexivity. Qed.

(** C4, amended: [updateNode] shares nothing with the tree it is given.
    For a tree [T] allocated below [free], the call returns a tree [T']
    such that

    - a node [X] of [T] that is neither inside a target nor has a target
      in its subtree reappears at its position as a copy: an object tree
      holding the same value as [X], whose root is not the object [X] and
      none of whose objects is an object of [T];
    - every object of [T'] that is not inside a target (the root, every
      node on the way to a target, the target itself, and every node off
      those ways) is no object of [T];
    - when the mutation puts no object of [T] under its target, no object
      of [T'] at all is an object of [T]. *)
Theorem updateNode_shares_nothing (fuel : nat) (T : Identity.Obj) (y : string)
    (m : Identity.Mutation) (free : Identity.addr) :
  Identity.oheight T < fuel ->
  Forall (fun a => a < free) (Identity.addresses T) ->
  exists T' free',
    Identity.updateNode fuel T y m free = Some (T', free')
    /\ (forall p X,
          Identity.object_at p T = Some X ->
          above_clear y p (Identity.erase T) ->
          ~ In y (allIds (Identity.erase X)) ->
          exists X',
            Identity.object_at p T' = Some X'
            /\ Identity.erase X' = Identity.erase X
            /\ Identity.address X' <> Identity.address X
            /\ Forall (fun a => ~ In a (Identity.addresses T)) (Identity.addresses X'))
    /\ (forall p X',
          Identity.object_at p T' = Some X' ->
          above_clear y p (Identity.erase T) ->
          ~ In (Identity.address X') (Identity.addresses T))
    /\ (imports_nothing_of T free m ->
        Forall (fun a => ~ In a (Identity.addresses T)) (Identity.addresses T')).
Proof.
  intros Hh Hold.
  assert (Hnew : forall a, free <= a -> ~ In a (Identity.addresses T)).
  { intros a Hge Hin.
    pose proof (proj1 (Forall_forall _ _) Hold a Hin) as Hlt.
    simpl in Hlt. unfold Identity.addr in *. lia. }
  destruct (IdentityFacts.updateNode_spec fuel y m T free Hh)
    as (T' & free' & Hrun & _ & Hcopy).
  exists T', free'. split; [exact Hrun|]. split; [|split].
  - intros p X Hat Hclear Hno.
    destruct (Hcopy p (Identity.erase X) (IdentityFacts.object_at_erase _ _ _ Hat)
                Hclear Hno) as (X' & Hat' & He & Ha).
    exists X'. split; [exact Hat'|]. split; [exact He|].
    assert (Hfresh : Forall (fun a => ~ In a (Identity.addresses T))
                       (Identity.addresses X')).
    { eapply Forall_impl; [|exact Ha]. simpl. intros a Hge. now apply Hnew. }
    split; [|exact Hfresh].
    intros Heq. destruct X' as [a' i' t' at' cs' tx']. simpl in Heq, Hfresh.
    inversion Hfresh as [|? ? Hnot _]. apply Hnot. rewrite Heq.
    eapply IdentityFacts.object_at_address, Hat.
  - intros p X' Hat Hclear. apply Hnew.
    exact (proj2 (IdentityFacts.updateNode_allocates y m fuel T free T' free' Hrun)
             p X' Hat Hclear).
  - intros Hm.
    exact (proj2 (IdentityFacts.updateNode_all_new
                    (fun a => ~ In a (Identity.addresses T)) free y m Hnew Hm
                    fuel T free T' free' (le_n free) Hrun)).
Qed.

Lemma updateNode_shares_nothing_witness :
  exists T' free',
    Identity.updateNode 3 Identity.sample_objects "a" Identity.sample_move 3
    = Some (T', free')
    /\ (exists X',
          Identity.object_at [1] T' = Some X'
          /\ Identity.erase X' = sample_rect_b
          /\ Identity.address X' <> 2)
    /\ ~ In (Identity.address T') (Identity.addresses Identity.sample_objects)
    /\ Forall (fun a => ~ In a (Identity.addresses Identity.sample_objects))
              (Identity.addresses T').
Proof.
  assert (Hh : Identity.oheight Identity.sample_objects < 3) by (simpl; lia).
  assert (Hold : Forall (fun a => a < 3) (Identity.addresses Identity.sample_objects))
    by (simpl; repeat constructor).
  destruct (updateNode_shares_nothing 3 Identity.sample_objects "a"
              Identity.sample_move 3 Hh Hold)
    as (T' & free' & Hrun & Hcopies & Hpath & Hall).
  exists T', free'. split; [exact Hrun|].
  assert (Hclear : above_clear "a" [1] (Identity.erase Identity.sample_objects))
    by (simpl; split; [discriminate|exact I]).
  assert (Hno : ~ In "a" (allIds sample_rect_b))
    by (simpl; intros [H|[]]; discriminate).
  assert (Hm : imports_nothing_of Identity.sample_objects 3 Identity.sample_move).
  { intros target fr Ht _. unfold Identity.sample_move. cbn [fst Identity.ochildren].
    destruct target as [a i t at_ cs tx]. cbn [Identity.addresses Identity.ochildren] in *.
    inversion Ht as [|? ? _ Hcs]; subst.
    eapply Forall_impl; [|exact Hcs]. cbv beta. intros b Hb Hin.
    simpl in Hin. unfold Identity.addr in *. lia. }
  split; [|split].
  - destruct (Hcopies [1] (Identity.mkObj 2 "b" "rect" [("data-id", "b")] [] None)
                eq_refl Hclear Hno) as (X' & Hat & He & Hne & _).
    exists X'. split; [exact Hat|]. split; [exact He|exact Hne].
  - exact (Hpath [] T' eq_refl I).
  - exact (Hall Hm).
Defined.

(** * Further properties of the engine *)

(** ** Lookups *)

Lemma find_app {A : Type} (f : A -> bool) (l1 l2 : list A) :
  find f (l1 ++ l2)%list
  = match find f l1 with Some x => Some x | None => find f l2 end.
Proof.
  induction l1 as [|x l1 IH]; simpl; [reflexivity|].
  destruct (f x); [reflexivity|exact IH].
Qed.

Lemma allIds_nodes (t : SvgNode) : map id (nodes t) = allIds t.
Proof.
  induction t as [t IH] using SvgNode_ind.
  destruct t as [i tg a cs tx]. simpl in *. f_equal.
  induction IH as [|c cs Hc _ IHcs]; simpl; [reflexivity|].
  now rewrite map_app, Hc, IHcs.
Qed.

Lemma find_id_None (i : string) (l : list SvgNode) :
  find (fun m => String.eqb (id m) i) l = None <-> ~ In i (map id l).
Proof.
  induction l as [|m l IH]; simpl; [tauto|].
  destruct (String.eqb_spec (id m) i) as [E|N].
  - split; [discriminate|]. intros H. exfalso. apply H. now left.
  - rewrite IH. tauto.
Qed.

Lemma findNode_in_find (t : SvgNode) (i : string) :
  JsString.truthy i = true ->
  findNode_in t i = find (fun m => String.eqb (id m) i) (nodes t).
Proof.
  intros Hi. induction t as [t IH] using SvgNode_ind.
  destruct t as [j tg a cs tx]. simpl in *. rewrite Hi. simpl.
  destruct (String.eqb j i); [reflexivity|].
  induction IH as [|c cs Hc _ IHcs]; simpl; [reflexivity|].
  rewrite find_app, Hc.
  destruct (find (fun m => String.eqb (id m) i) (nodes c)); [reflexivity|exact IHcs].
Qed.

(** X1: for a non-empty id, [findNode] returns the first node in document
    order that has the id, and so [null] exactly when no node has it; for
    the empty id it returns [null] whatever the tree holds. *)
Theorem findNode_first_in_document_order (t : SvgNode) (i : string) :
  findNode (Some t) (Some "") = None
  /\ (i <> "" ->
      findNode (Some t) (Some i) = find (fun m => String.eqb (id m) i) (nodes t)
      /\ (findNode (Some t) (Some i) = None <-> ~ In i (allIds t))
      /\ (forall n, findNode (Some t) (Some i) = Some n -> In n (nodes t) /\ id n = i)).
Proof.
  split.
  - destruct t; reflexivity.
  - intros Hi. assert (Ht : JsString.truthy i = true)
    by (destruct i; [exfalso; now apply Hi|reflexivity]).
    simpl. rewrite (findNode_in_find t i Ht). split; [reflexivity|]. split.
    + rewrite find_id_None, allIds_nodes. tauto.
    + intros n Hn. apply find_some in Hn. destruct Hn as [Hin He].
      split; [exact Hin|]. now apply String.eqb_eq.
Qed.

Lemma findNode_first_in_document_order_witness :
  findNode (Some sample_tree) (Some "b")
  = find (fun m => String.eqb (id m) "b") (nodes sample_tree).
Proof.
  assert (Hi : "b" <> "") by discriminate.
  exact (proj1 (proj2 (findNode_first_in_document_order sample_tree "b") Hi)).
Defined.

Lemma in_nodes_child (t c m : SvgNode) :
  In c (children t) -> In m (nodes c) -> In m (nodes t).
Proof.
  intros Hc Hm. destruct t as [j tg a cs tx]. simpl in *. right.
  apply in_flat_map. now exists c.
Qed.

Lemma findParent_gen (t : SvgNode) (i : string) :
  forall par,
    id t <> i ->
    match findParent t i par with
    | Some p =>
        In p (nodes t)
        /\ exists c, find (fun c => String.eqb (id c) i) (children p) = Some c
                     /\ find (fun m => String.eqb (id m) i) (nodes t) = Some c
    | None => ~ In i (allIds t)
    end.
Proof.
  induction t as [t IH] using SvgNode_ind. intros par Hne.
  destruct t as [j tg a cs tx]. simpl in Hne, IH.
  cbn [findParent id children].
  destruct (String.eqb_spec j i) as [|_]; [contradiction|].
  cbn [nodes allIds find id children].
  destruct (String.eqb_spec j i) as [|_]; [contradiction|].
  set (me := mkNode j tg a cs tx).
  assert (Hloop :
    forall pre rest,
      (pre ++ rest)%list = cs ->
        find (fun c => String.eqb (id c) i) pre = None ->
        find (fun m => String.eqb (id m) i) (flat_map nodes pre) = None ->
        Forall (fun t => forall par, id t <> i ->
                  match findParent t i par with
                  | Some p =>
                      In p (nodes t)
                      /\ exists c, find (fun c => String.eqb (id c) i) (children p) = Some c
                                   /\ find (fun m => String.eqb (id m) i) (nodes t) = Some c
                  | None => ~ In i (allIds t)
                  end) rest ->
        match (fix loop (cs0 : list SvgNode) : option SvgNode :=
                 match cs0 with
                 | [] => None
                 | child :: rest0 =>
                     match findParent child i (Some me) with
                     | Some found => Some found
                     | None => loop rest0
                     end
                 end) rest with
        | Some p =>
            (p = me \/ In p (flat_map nodes cs))
            /\ exists c, find (fun c => String.eqb (id c) i) (children p) = Some c
                         /\ find (fun m => String.eqb (id m) i) (flat_map nodes cs) = Some c
        | None => ~ In i (flat_map allIds cs)
        end).
  { intros pre rest. revert pre.
    induction rest as [|c rest IHrest]; intros pre Hcs Hpre Hpre' Hall.
    - rewrite app_nil_r in Hcs. subst pre.
      apply find_id_None in Hpre'.
      intros Hin. apply Hpre'.
      clear -Hin. induction cs as [|d cs IHcs]; simpl in *; [assumption|].
      rewrite map_app, allIds_nodes. apply in_app_or in Hin. apply in_or_app.
      destruct Hin; [now left|right; now apply IHcs].
    - inversion Hall as [|? ? Hc Hrest]; subst.
      destruct (String.eqb_spec (id c) i) as [Hci|Hci].
      + (* the child itself has the id *)
        assert (Hfp : findParent c i (Some me) = Some me).
        { destruct c as [cj ctg ca ccs ctx]. simpl in Hci. cbn [findParent id].
          destruct (String.eqb_spec cj i); [reflexivity|contradiction]. }
        rewrite Hfp. split; [now left|].
        exists c. split.
        * subst me. cbn [children]. rewrite find_app, Hpre. simpl.
          destruct (String.eqb_spec (id c) i); [reflexivity|contradiction].
        * rewrite flat_map_app, find_app, Hpre'. simpl.
          destruct c as [cj ctg ca ccs ctx]. simpl in *.
          destruct (String.eqb_spec cj i); [reflexivity|contradiction].
      + specialize (Hc (Some me) Hci).
        destruct (findParent c i (Some me)) as [p|].
        * destruct Hc as (Hin & d & Hd1 & Hd2). split.
          -- right. rewrite flat_map_app. apply in_or_app. right.
             simpl. apply in_or_app. now left.
          -- exists d. split; [exact Hd1|].
             rewrite flat_map_app, find_app, Hpre'. simpl.
             rewrite find_app, Hd2. reflexivity.
        * assert (Hnone : find (fun m => String.eqb (id m) i) (nodes c) = None).
          { apply find_id_None. now rewrite allIds_nodes. }
          apply (IHrest (pre ++ [c])%list).
          -- now rewrite <- app_assoc.
          -- rewrite find_app, Hpre. simpl.
             destruct (String.eqb_spec (id c) i); [contradiction|reflexivity].
          -- rewrite flat_map_app, find_app, Hpre'. simpl.
             now rewrite app_nil_r.
          -- exact Hrest. }
  specialize (Hloop [] cs eq_refl eq_refl eq_refl IH).
  destruct ((fix loop (cs0 : list SvgNode) : option SvgNode :=
               match cs0 with
               | [] => None
               | child :: rest0 =>
                   match findParent child i (Some me) with
                   | Some found => Some found
                   | None => loop rest0
                   end
               end) cs) as [p|].
  - destruct Hloop as (Hin & c & Hc1 & Hc2). split.
    + destruct Hin as [->|Hin]; [now left|now right].
    + now exists c.
  - intros [E|Hin]; [contradiction|]. now apply Hloop.
Qed.

(** X2: for a non-empty id that is not the root's, [findParent] returns a
    node [p] of the tree whose first child with the id is the node that
    [findNode] returns; it returns [null] exactly when the id is the
    root's or no node has it. *)
Theorem findParent_is_parent_of_found (t : SvgNode) (i : string) :
  i <> "" ->
  (findParent t i None = None <-> id t = i \/ ~ In i (allIds t))
  /\ (forall p, findParent t i None = Some p ->
        id t <> i
        /\ In p (nodes t)
        /\ exists c, find (fun c => String.eqb (id c) i) (children p) = Some c
                     /\ findNode (Some t) (Some i) = Some c).
Proof.
  intros Hi. assert (Ht : JsString.truthy i = true)
    by (destruct i; [exfalso; now apply Hi|reflexivity]).
  destruct (String.eqb_spec (id t) i) as [E|N].
  - assert (Hroot : findParent t i None = None).
    { destruct t as [j tg a cs tx]. simpl in E. cbn [findParent id].
      destruct (String.eqb_spec j i); [reflexivity|contradiction]. }
    rewrite Hroot. split; [tauto|]. intros p Hp. discriminate.
  - pose proof (findParent_gen t i None N) as H.
    destruct (findParent t i None) as [p|].
    + destruct H as (Hin & c & Hc1 & Hc2). split.
      * split; [discriminate|]. intros [E|Hno]; [contradiction|].
        exfalso. apply Hno. rewrite <- allIds_nodes.
        apply find_some in Hc2. destruct Hc2 as [Hc2 Hid].
        apply String.eqb_eq in Hid. rewrite <- Hid. now apply in_map.
      * intros q Hq. injection Hq as <-. split; [exact N|]. split; [exact Hin|].
        exists c. split; [exact Hc1|]. simpl. now rewrite findNode_in_find.
    + split; [tauto|]. intros p Hp. discriminate.
Qed.

Lemma findParent_is_parent_of_found_witness :
  findParent sample_tree "b" None = None
  <-> id sample_tree = "b" \/ ~ In "b" (allIds sample_tree).
Proof.
  assert (Hi : "b" <> "") by discriminate.
  exact (proj1 (findParent_is_parent_of_found sample_tree "b" Hi)).
Defined.

(** ** Updates and removals of ids that are not there *)

Lemma mapTarget_absent (i : string) (f : SvgNode -> SvgNode) (t : SvgNode) :
  ~ In i (allIds t) -> mapTarget i f t = t.
Proof.
  induction t as [t IH] using SvgNode_ind.
  destruct t as [j tg a cs tx]. simpl in *. intros Hno.
  destruct (String.eqb_spec j i) as [E|_]; [exfalso; apply Hno; now left|].
  f_equal. apply map_id_on.
  apply Forall_forall. intros c Hc.
  apply (proj1 (Forall_forall _ _) IH c Hc).
  intros Hin. apply Hno. right. apply in_flat_map. now exists c.
Qed.

(** X3: an update whose target is not in the tree returns the tree as it
    was: [updateNode] for an id no node has, [updateMultipleNodes] for a
    set that holds no id of the tree, whatever the mutation. *)
Theorem update_of_absent_ids (fuel : nat) (t : SvgNode) (mutate : SvgNode -> SvgNode) :
  height t < fuel ->
  (forall i, ~ In i (allIds t) -> updateNode fuel t i mutate = Some t)
  /\ (forall ids, (forall j, In j (allIds t) -> JsSet.has j ids = false) ->
                  updateMultipleNodes fuel t ids mutate = Some t).
Proof.
  intros Hh. split.
  - intros i Hno. rewrite (updateNode_returns _ _ _ _ Hh).
    now rewrite mapTarget_absent.
  - intros ids. revert t Hh. induction fuel as [|fuel IH]; intros t Hh Hno; [lia|].
    cbn [updateMultipleNodes]. rewrite !cloneNode_id.
    rewrite (Hno (id t)) by (destruct t; simpl; now left).
    rewrite (map_opt_Some _ (fun c => c)).
    + rewrite map_id. destruct t; reflexivity.
    + apply Forall_forall. intros c Hc. apply IH.
      * pose proof (height_child t c Hc). lia.
      * intros j Hj. apply Hno. destruct t as [i tg a cs tx]. simpl in *.
        right. apply in_flat_map. now exists c.
Qed.

Lemma update_of_absent_ids_witness :
  updateNode 3 sample_tree "gone" (writeAttribute "fill" "red") = Some sample_tree.
Proof.
  assert (Hh : height sample_tree < 3) by (simpl; lia).
  assert (Hno : ~ In "gone" (allIds sample_tree))
    by (simpl; intros [H|[H|[H|[]]]]; discriminate).
  exact (proj1 (update_of_absent_ids 3 sample_tree (writeAttribute "fill" "red") Hh)
           "gone" Hno).
Defined.

Lemma prune_eq (ids : JsSet.t) (node : SvgNode) :
  prune ids node
  = mkNode (id node) (tag node) (attrs node)
           (map (prune ids)
                (filter (fun child => negb (JsSet.has (id child) ids)) (children node)))
           (text node).
Proof.
  destruct node as [j tg a cs tx]. simpl. f_equal.
  induction cs as [|c cs IH]; [reflexivity|]. simpl.
  destruct (JsSet.has (id c) ids); simpl; now rewrite IH.
Qed.

Lemma removeMultipleNodes_returns (fuel : nat) (node : SvgNode) (ids : JsSet.t) :
  height node < fuel ->
  removeMultipleNodes fuel node ids
  = Some (if JsSet.has (id node) ids then None else Some (prune ids node)).
Proof.
  revert node. induction fuel as [|fuel IH]; intros node Hh; [lia|].
  cbn [removeMultipleNodes]. rewrite !cloneNode_id.
  destruct (JsSet.has (id node) ids); [reflexivity|].
  rewrite (map_opt_Some _ (prune ids)).
  - rewrite prune_eq. destruct node; reflexivity.
  - apply Forall_forall. intros c Hc. apply filter_In in Hc. destruct Hc as [Hc Hk].
    rewrite IH by (pose proof (height_child node c Hc); lia).
    apply negb_true_iff in Hk. now rewrite Hk.
Qed.

Lemma allIds_prune (ids : JsSet.t) (node : SvgNode) :
  JsSet.has (id node) ids = false ->
  Forall (fun i => JsSet.has i ids = false) (allIds (prune ids node))
  /\ incl (allIds (prune ids node)) (allIds node).
Proof.
  induction node as [node IH] using SvgNode_ind.
  rewrite prune_eq.
  destruct node as [j tg a cs tx]. simpl in *. intros Hj.
  assert (Hkids :
    Forall (fun i => JsSet.has i ids = false)
      (flat_map allIds
         (map (prune ids) (filter (fun c => negb (JsSet.has (id c) ids)) cs)))
    /\ incl (flat_map allIds
               (map (prune ids) (filter (fun c => negb (JsSet.has (id c) ids)) cs)))
            (flat_map allIds cs)).
  { induction IH as [|c cs Hc _ IHcs]; simpl.
    - split; [constructor|apply incl_refl].
    - destruct IHcs as [F I].
      destruct (JsSet.has (id c) ids) eqn:Hk; simpl.
      + split; [exact F|]. now apply incl_appr.
      + destruct (Hc eq_refl) as [Fc Ic]. split.
        * apply Forall_app. now split.
        * apply incl_app; [now apply incl_appl|now apply incl_appr]. }
  destruct Hkids as [F I]. split.
  - constructor; assumption.
  - apply incl_cons; [now left|]. now apply incl_tl.
Qed.

Lemma prune_nothing (ids : JsSet.t) (node : SvgNode) :
  (forall j, In j (allIds node) -> JsSet.has j ids = false) ->
  prune ids node = node.
Proof.
  induction node as [node IH] using SvgNode_ind.
  rewrite prune_eq.
  destruct node as [j tg a cs tx]. simpl in *. intros Hno. f_equal.
  assert (Hcs : forall c, In c cs -> JsSet.has (id c) ids = false).
  { intros c Hc. apply Hno. right. apply in_flat_map. exists c.
    split; [exact Hc|]. destruct c; simpl. now left. }
  assert (Hf : filter (fun c => negb (JsSet.has (id c) ids)) cs = cs).
  { clear -Hcs. induction cs as [|c cs IHcs]; simpl; [reflexivity|].
    rewrite (Hcs c (or_introl eq_refl)). simpl. f_equal.
    apply IHcs. intros d Hd. apply Hcs. now right. }
  rewrite Hf. apply map_id_on.
  apply Forall_forall. intros c Hc.
  apply (proj1 (Forall_forall _ _) IH c Hc).
  intros k Hk. apply Hno. right. apply in_flat_map. now exists c.
Qed.

(** X4: [removeMultipleNodes] returns [null] exactly when the node it is
    given is itself in the set; otherwise it returns a tree with the same
    root in which no id of the set is left, at any depth, and no id is new;
    when the tree holds no id of the set, the tree is returned as it
    was. *)
Theorem removeMultipleNodes_leaves_none (fuel : nat) (node : SvgNode) (ids : JsSet.t) :
  height node < fuel ->
  (JsSet.has (id node) ids = true -> removeMultipleNodes fuel node ids = Some None)
  /\ (JsSet.has (id node) ids = false ->
      exists r,
        removeMultipleNodes fuel node ids = Some (Some r)
        /\ id r = id node /\ tag r = tag node /\ attrs r = attrs node
        /\ Forall (fun i => JsSet.has i ids = false) (allIds r)
        /\ incl (allIds r) (allIds node)
        /\ ((forall j, In j (allIds node) -> JsSet.has j ids = false) -> r = node)).
Proof.
  intros Hh. rewrite (removeMultipleNodes_returns _ _ _ Hh). split.
  - intros ->. reflexivity.
  - intros Hk. rewrite Hk. exists (prune ids node).
    destruct (allIds_prune ids node Hk) as [F I].
    split; [reflexivity|]. rewrite prune_eq in *.
    repeat split; try assumption.
    rewrite <- prune_eq. apply prune_nothing.
Qed.

Lemma removeMultipleNodes_leaves_none_witness :
  exists r,
    removeMultipleNodes 3 sample_tree ["b"; "gone"] = Some (Some r)
    /\ Forall (fun i => JsSet.has i ["b"; "gone"] = false) (allIds r).
Proof.
  assert (Hh : height sample_tree < 3) by (simpl; lia).
  destruct (proj2 (removeMultipleNodes_leaves_none 3 sample_tree ["b"; "gone"] Hh)
              eq_refl) as (r & Hr & _ & _ & _ & Hclean & _).
  exists r. split; [exact Hr|exact Hclean].
Defined.

(** X5: [removeNode] is [removeMultipleNodes] for the set of one id. *)
Theorem removeNode_is_removal_of_singleton (fuel : nat) (node : SvgNode) (i : string) :
  removeNode fuel node i = removeMultipleNodes fuel node (JsSet.of_list [i]).
Proof.
  revert node. induction fuel as [|fuel IH]; intros node; [reflexivity|].
  cbn [removeNode removeMultipleNodes].
  assert (Hhas : forall j, JsSet.has j (JsSet.of_list [i]) = String.eqb j i).
  { intros j. unfold JsSet.of_list, JsSet.add, JsSet.has. simpl.
    now rewrite orb_false_r. }
  rewrite Hhas. destruct (String.eqb (id node) i); [reflexivity|].
  assert (Hfilter :
    filter (fun child => negb (JsSet.has (id child) (JsSet.of_list [i])))
           (children (cloneNode node))
    = filter (fun child => negb (String.eqb (id child) i)) (children (cloneNode node))).
  { apply filter_ext. intros c. now rewrite Hhas. }
  rewrite Hfilter.
  assert (Hmap :
    forall l, map_opt (fun child => kept (removeNode fuel child i)) l
              = map_opt (fun child => kept (removeMultipleNodes fuel child (JsSet.of_list [i]))) l).
  { induction l as [|c l IHl]; simpl; [reflexivity|]. now rewrite IH, IHl. }
  now rewrite Hmap.
Qed.

(** ** Deleting the selection *)

Lemma has_filter_not_root (root i : string) (sel : JsSet.t) :
  JsSet.has i (JsSet.of_list (filter (fun j => negb (String.eqb j root)) sel))
  = JsSet.has i sel && negb (String.eqb i root).
Proof.
  rewrite JsSetFacts.has_of_list. unfold JsSet.has.
  induction sel as [|j sel IH]; simpl; [reflexivity|].
  destruct (String.eqb_spec j root) as [->|Hj]; simpl.
  - rewrite IH. destruct (String.eqb_spec i root) as [->|Hi]; simpl.
    + now rewrite !andb_false_r.
    + destruct (String.eqb_spec i root); [contradiction|]. reflexivity.
  - rewrite IH. destruct (String.eqb_spec i j) as [->|Hij]; simpl; [|reflexivity].
    destruct (String.eqb_spec j root); [contradiction|]. reflexivity.
Qed.

(** X6: [deleteSelected] always returns and never deletes the root: the
    tree it leaves has the root it had, holds none of the selected ids
    other than the root's, and holds no new id.  When some selected id is
    not the root's, the selection becomes the root alone and the new tree
    is committed as one history entry after the cursor; otherwise nothing
    changes. *)
Theorem deleteSelected_keeps_root (s : App) (tree : SvgNode) :
  svgTree s = Some tree ->
  exists s' tree',
    deleteSelected s = Some s'
    /\ svgTree s' = Some tree'
    /\ id tree' = id tree
    /\ (forall i, JsSet.has i (selectedIds s) = true -> i <> id tree ->
                  ~ In i (allIds tree'))
    /\ incl (allIds tree') (allIds tree)
    /\ ((exists i, JsSet.has i (selectedIds s) = true /\ i <> id tree) ->
        selectedIds s' = [id tree]
        /\ history s'
           = (slice0 (history s) (historyIndex s + 1) ++ [tree'])%list
        /\ historyIndex s' = (Z.of_nat (length (history s')) - 1)%Z)
    /\ ((forall i, JsSet.has i (selectedIds s) = true -> i = id tree) -> s' = s).
Proof.
  intros Ht. unfold deleteSelected. rewrite Ht.
  set (ids := JsSet.of_list
                (filter (fun i => negb (String.eqb i (id tree))) (selectedIds s))).
  assert (Hids : forall i, JsSet.has i ids
                           = JsSet.has i (selectedIds s) && negb (String.eqb i (id tree))).
  { intros i. apply has_filter_not_root. }
  assert (Hnoop : (forall i, JsSet.has i (selectedIds s) = true -> i = id tree) ->
                  forall i, JsSet.has i (selectedIds s) = true -> i <> id tree ->
                            ~ In i (allIds tree)).
  { intros Hall i Hi Hne. exfalso. apply Hne. now apply Hall. }
  assert (Hempty : ids = [] ->
                   forall i, JsSet.has i (selectedIds s) = true -> i = id tree).
  { intros E i Hi. destruct (String.eqb_spec i (id tree)) as [|Hne]; [assumption|].
    assert (Hin : JsSet.has i ids = true).
    { rewrite Hids, Hi. simpl. now destruct (String.eqb_spec i (id tree)). }
    rewrite E in Hin. discriminate. }
  destruct (Nat.eqb (JsSet.size (selectedIds s)) 0) eqn:Hsize.
  { (* nothing selected *)
    assert (Hnil : selectedIds s = []).
    { destruct (selectedIds s); [reflexivity|discriminate]. }
    exists s, tree. repeat split; try assumption; try apply incl_refl.
    - intros i Hi. rewrite Hnil in Hi. discriminate.
    - destruct H as (i & Hi & _). rewrite Hnil in Hi. discriminate.
    - destruct H as (i & Hi & _). rewrite Hnil in Hi. discriminate.
    - destruct H as (i & Hi & _). rewrite Hnil in Hi. discriminate. }
  destruct (Nat.eqb (JsSet.size ids) 0) eqn:Hisize.
  { (* only the root selected *)
    assert (Hnil : ids = []) by (destruct ids; [reflexivity|discriminate]).
    pose proof (Hempty Hnil) as Hall.
    exists s, tree. repeat split; try assumption; try apply incl_refl.
    - now apply Hnoop.
    - destruct H as (i & Hi & Hne). exfalso. apply Hne. now apply Hall.
    - destruct H as (i & Hi & Hne). exfalso. apply Hne. now apply Hall.
    - destruct H as (i & Hi & Hne). exfalso. apply Hne. now apply Hall. }
  assert (Hroot : JsSet.has (id tree) ids = false).
  { rewrite Hids, String.eqb_refl. apply andb_false_r. }
  rewrite (removeMultipleNodes_returns _ _ _ (Nat.lt_succ_diag_r (height tree))), Hroot.
  destruct (allIds_prune ids tree Hroot) as [Hclean Hincl].
  assert (Hid : id (prune ids tree) = id tree) by now rewrite prune_eq.
  set (r := prune ids tree) in *.
  destruct (commit_history s r) as (Hh & Hi & Htree & _).
  eexists. exists r. split; [reflexivity|].
  split; [exact Htree|]. split; [exact Hid|]. split; [|split; [exact Hincl|split]].
  - intros i Hsel Hne Hin.
    pose proof (proj1 (Forall_forall _ _) Hclean i Hin) as Hk.
    cbv beta in Hk. rewrite Hids, Hsel in Hk. simpl in Hk.
    destruct (String.eqb_spec i (id tree)); [contradiction|discriminate].
  - intros _. split; [reflexivity|]. split; [exact Hh|exact Hi].
  - intros Hall. exfalso.
    destruct ids as [|i ids'] eqn:E; [discriminate|].
    assert (Hin : JsSet.has i (i :: ids') = true)
      by (unfold JsSet.has; simpl; now rewrite String.eqb_refl).
    rewrite Hids in Hin. apply andb_prop in Hin. destruct Hin as [Hs Hn].
    rewrite (Hall i Hs), String.eqb_refl in Hn. discriminate.
Qed.

Lemma deleteSelected_keeps_root_witness :
  exists s' tree',
    deleteSelected (sample_app ["node-1"; "b"]) = Some s'
    /\ svgTree s' = Some tree'
    /\ id tree' = "node-1"
    /\ ~ In "b" (allIds tree').
Proof.
  destruct (deleteSelected_keeps_root (sample_app ["node-1"; "b"]) sample_tree eq_refl)
    as (s' & tree' & Hrun & Ht & Hid & Hgone & _).
  exists s', tree'. split; [exact Hrun|]. split; [exact Ht|]. split; [exact Hid|].
  apply Hgone; [reflexivity|discriminate].
Defined.

(** ** The history cursor *)

Lemma history_ok_cursor (s : App) :
  history_ok s ->
  exists k t, historyIndex s = Z.of_nat k /\ k < length (history s)
              /\ nth_error (history s) k = Some t
              /\ svgTree s = Some t /\ latestTreeRef s = Some t.
Proof.
  intros (t & Ht & Hl & Hat).
  destruct (at_index_Some _ _ _ Hat) as (H0 & Hlt & Hnth).
  exists (Z.to_nat (historyIndex s)), t. repeat split; try assumption. lia.
Qed.

(** X7: the import of a document with an [svg] root leaves the history
    entry at the cursor equal to the live tree, and a commit, an undo and a
    redo keep it so; from such a state undo and redo do not fail, leave the
    list of entries as it is and move the cursor by one step, stopping at
    the first and at the last entry. *)
Theorem history_cursor_invariant :
  (forall (Document : Type) (sanitize : string -> string)
          (parseFromString : string -> Document)
          (querySelector_svg : Document -> option Element)
          (value : string) (s : App) (root : Element),
      querySelector_svg (parseFromString (sanitize value)) = Some root ->
      history_ok (handleSvgInput Document sanitize parseFromString
                    querySelector_svg value s))
  /\ (forall s, history_ok s ->
        (forall post, history_ok (updateTreeWithHistory (Some post) s))
        /\ (exists s1, undo s = Some s1 /\ history_ok s1
                       /\ history s1 = history s
                       /\ historyIndex s1 = Z.max 0 (historyIndex s - 1))
        /\ (exists s2, redo s = Some s2 /\ history_ok s2
                       /\ history s2 = history s
                       /\ historyIndex s2
                          = Z.min (Z.of_nat (length (history s)) - 1)
                                  (historyIndex s + 1))).
Proof.
  split.
  - intros Document sanitize parseFromString querySelector_svg value s root Hq.
    unfold handleSvgInput, parseSvgString. rewrite Hq.
    exists (fst (walk root 0)). simpl. rewrite cloneNode_id. repeat split.
  - intros s Hok.
    destruct (history_ok_cursor s Hok) as (k & t & Hk & Hlt & Hnth & Ht & Hl).
    split; [|split].
    + intros post. exists post.
      destruct (commit_history s post) as (Hh & Hi & Htree & Hlatest & _).
      split; [exact Htree|]. split; [exact Hlatest|].
      rewrite Hi, Hh, Hk.
      replace (Z.of_nat k + 1)%Z with (Z.of_nat (S k)) by lia.
      rewrite slice0_nat.
      assert (Hlen : length (firstn (S k) (history s)) = S k)
        by (rewrite length_firstn; lia).
      rewrite length_app, Hlen. simpl length.
      replace (Z.of_nat (S k + 1) - 1)%Z with (Z.of_nat (S k)) by lia.
      rewrite at_index_nat, nth_error_app2 by lia.
      now rewrite Hlen, Nat.sub_diag.
    + unfold undo. rewrite Hk. destruct k as [|k].
      * exists s. simpl. split; [reflexivity|]. split; [exact Hok|].
        split; [reflexivity|]. rewrite Hk. reflexivity.
      * destruct (Z.ltb_spec 0 (Z.of_nat (S k))); [|lia].
        replace (Z.of_nat (S k) - 1)%Z with (Z.of_nat k) by lia.
        rewrite at_index_nat.
        destruct (nth_error (history s) k) as [entry|] eqn:He.
        -- eexists. split; [reflexivity|]. split.
           ++ exists entry.
              cbn [svgTree latestTreeRef history historyIndex
                   setLatestTree setSvgTree setHistory].
              rewrite cloneNode_id, at_index_nat. tauto.
           ++ cbn [history historyIndex setLatestTree setSvgTree setHistory].
              split; [reflexivity|]. lia.
        -- apply nth_error_None in He. lia.
    + unfold redo. rewrite Hk.
      destruct (Z.ltb_spec (Z.of_nat k) (Z.of_nat (length (history s)) - 1)).
      * replace (Z.of_nat k + 1)%Z with (Z.of_nat (S k)) by lia.
        rewrite at_index_nat.
        destruct (nth_error (history s) (S k)) as [entry|] eqn:He.
        -- eexists. split; [reflexivity|]. split.
           ++ exists entry.
              cbn [svgTree latestTreeRef history historyIndex
                   setLatestTree setSvgTree setHistory].
              rewrite cloneNode_id, at_index_nat. tauto.
           ++ cbn [history historyIndex setLatestTree setSvgTree setHistory].
              split; [reflexivity|]. lia.
        -- apply nth_error_None in He. lia.
      * exists s. split; [reflexivity|]. split; [exact Hok|].
        split; [reflexivity|]. rewrite Hk. lia.
Qed.

(** X8: from a state where the history entry at the cursor is the live
    tree, redo undoes an undo and undo undoes a redo: when the cursor is
    not on the first entry, undo followed by redo gives the state back,
    and when it is not on the last, so does redo followed by undo. *)
Theorem undo_redo_inverse (s : App) :
  history_ok s ->
  ((0 < historyIndex s)%Z ->
   exists s1, undo s = Some s1 /\ redo s1 = Some s)
  /\ ((historyIndex s < Z.of_nat (length (history s)) - 1)%Z ->
      exists s2, redo s = Some s2 /\ undo s2 = Some s).
Proof.
  intros Hok.
  destruct (history_ok_cursor s Hok) as (k & t & Hk & Hlt & Hnth & Ht & Hl).
  assert (Hback : mkApp (rawSvg s) (Some t) (selectedIds s) (error s) (history s)
                        (Z.of_nat k) (Some t) (hasDraggedRef s) (mouseDownPosRef s)
                        (pendingSave s) (now s) = s).
  { destruct s. simpl in *. now subst. }
  split.
  - intros Hpos. unfold undo. destruct (Z.ltb_spec 0 (historyIndex s)); [|lia].
    destruct k as [|k]; [lia|].
    rewrite Hk. replace (Z.of_nat (S k) - 1)%Z with (Z.of_nat k) by lia.
    rewrite at_index_nat.
    destruct (nth_error (history s) k) as [entry|] eqn:He;
      [|apply nth_error_None in He; lia].
    eexists. split; [reflexivity|].
    unfold redo. cbn [history historyIndex setLatestTree setSvgTree setHistory].
    destruct (Z.ltb_spec (Z.of_nat k) (Z.of_nat (length (history s)) - 1)); [|lia].
    replace (Z.of_nat k + 1)%Z with (Z.of_nat (S k)) by lia.
    rewrite at_index_nat, Hnth, cloneNode_id. f_equal. exact Hback.
  - intros Hnotlast. unfold redo.
    destruct (Z.ltb_spec (historyIndex s) (Z.of_nat (length (history s)) - 1)); [|lia].
    rewrite Hk. replace (Z.of_nat k + 1)%Z with (Z.of_nat (S k)) by lia.
    rewrite at_index_nat.
    destruct (nth_error (history s) (S k)) as [entry|] eqn:He;
      [|apply nth_error_None in He; lia].
    eexists. split; [reflexivity|].
    unfold undo. cbn [history historyIndex setLatestTree setSvgTree setHistory].
    destruct (Z.ltb_spec 0 (Z.of_nat (S k))); [|lia].
    replace (Z.of_nat (S k) - 1)%Z with (Z.of_nat k) by lia.
    rewrite at_index_nat, Hnth, cloneNode_id. f_equal. exact Hback.
Qed.

Lemma undo_redo_inverse_witness :
  exists s1,
    undo (updateTreeWithHistory (Some sample_rect_b) (sample_app ["a"])) = Some s1
    /\ redo s1 = Some (updateTreeWithHistory (Some sample_rect_b) (sample_app ["a"])).
Proof.
  assert (Hok : history_ok (updateTreeWithHistory (Some sample_rect_b) (sample_app ["a"])))
    by (exists sample_rect_b; repeat split).
  assert (Hpos : (0 < historyIndex
                        (updateTreeWithHistory (Some sample_rect_b) (sample_app ["a"])))%Z)
    by (simpl; lia).
  exact (proj1 (undo_redo_inverse _ Hok) Hpos).
Defined.

Lemma history_cursor_invariant_witness :
  history_ok (updateTreeWithHistory (Some sample_rect_b) (sample_app ["a"])).
Proof.
  assert (Hok : history_ok (sample_app ["a"])) by (exists sample_tree; repeat split).
  exact (proj1 (proj2 history_cursor_invariant (sample_app ["a"]) Hok) sample_rect_b).
Defined.

(** ** Repeated clicks *)

Lemma click_resets_drag (x : string) (e : MouseEvent) (s : App) (tree : SvgNode) :
  svgTree s = Some tree -> x <> id tree ->
  forall e', not_a_drag (handleNodeClick x e s) e'
             /\ svgTree (handleNodeClick x e s) = Some tree.
Proof.
  intros Ht Hx e'. unfold handleNodeClick. rewrite Ht.
  destruct (String.eqb_spec x (id tree)) as [|_]; [contradiction|].
  set (was := match mouseDownPosRef s with
              | Some down => if moved_over_5px down e then true else hasDraggedRef s
              | None => hasDraggedRef s end).
  destruct was.
  - split; [split; reflexivity|exact Ht].
  - destruct (ctrlKey e || metaKey e); [|destruct (shiftKey e)];
      (split; [split; reflexivity|exact Ht]).
Qed.

(** X9: a second click on the same node with the same modifier keys: with
    Ctrl/Cmd, or with no modifier, it gives every id the membership it had
    before the first click; with Shift it changes nothing more, and a
    Shift+Click never takes an id out of the selection. *)
Theorem click_twice (s : App) (tree : SvgNode) (x : string) (e : MouseEvent) :
  svgTree s = Some tree -> x <> id tree -> not_a_drag s e -> rendered_for x e ->
  let s1 := handleNodeClick x e s in
  let s2 := handleNodeClick x e s1 in
  if ctrlKey e || metaKey e || negb (shiftKey e)
  then forall y, JsSet.has y (selectedIds s2) = JsSet.has y (selectedIds s)
  else selectedIds s2 = selectedIds s1
       /\ forall y, JsSet.has y (selectedIds s) = true ->
                    JsSet.has y (selectedIds s1) = true.
Proof.
  intros Ht Hx Hd Hr s1 s2.
  destruct (click_resets_drag x e s tree Ht Hx e) as [Hd1 Ht1]. fold s1 in Hd1, Ht1.
  pose proof (click_selection x e s tree Ht Hx Hd Hr) as H1. fold s1 in H1.
  pose proof (click_selection x e s1 tree Ht1 Hx Hd1 Hr) as H2. fold s2 in H2.
  destruct (ctrlKey e || metaKey e) eqn:Hc; simpl.
  - intros y. rewrite H2, H1, !has_toggle.
    destruct (String.eqb_spec y x) as [->|]; [|reflexivity].
    rewrite String.eqb_refl. apply negb_involutive.
  - destruct (shiftKey e); simpl.
    + split.
      * rewrite H2, H1. unfold JsSet.add at 1.
        now rewrite JsSetFacts.has_add, String.eqb_refl.
      * intros y Hy. rewrite H1, JsSetFacts.has_add, Hy. apply orb_true_r.
    + intros y. rewrite H2, H1, !has_toggle.
      destruct (String.eqb_spec y x) as [->|]; [|reflexivity].
      rewrite String.eqb_refl. apply negb_involutive.
Qed.

Lemma click_twice_witness :
  JsSet.has "b" (selectedIds
                   (handleNodeClick "a" (ctrl_click "a")
                      (handleNodeClick "a" (ctrl_click "a") (sample_app ["b"]))))
  = JsSet.has "b" (selectedIds (sample_app ["b"])).
Proof.
  assert (Hx : "a" <> id sample_tree) by (simpl; discriminate).
  assert (Hd : not_a_drag (sample_app ["b"]) (ctrl_click "a")) by (split; reflexivity).
  exact (click_twice (sample_app ["b"]) sample_tree "a" (ctrl_click "a")
           eq_refl Hx Hd eq_refl "b").
Defined.

(** ** Writing and reading a style string *)

Module StyleRoundTrip.
Import JsString.

Lemma trim_fixed_parts (v : string) :
  trim v = v -> head_not_white v /\ trimEnd v = v.
Proof.
  intros H. split.
  - rewrite <- H. apply StyleFacts.trim_head.
  - rewrite <- H at 1. unfold trim. rewrite StyleFacts.trimEnd_idem. exact H.
Qed.

Lemma trimEnd_blank_then (v : string) :
  trim v = v -> trim (trimEnd (String " " v)) = v.
Proof.
  intros H. destruct (trim_fixed_parts v H) as [Hh He].
  destruct v as [|c r]; [reflexivity|].
  assert (Hk : trimEnd (String " " (String c r)) = String " " (String c r)).
  { change (trimEnd (String " " (String c r)))
      with (match trimEnd (String c r) with
            | EmptyString => if is_white " " then EmptyString else String " " EmptyString
            | r' => String " " r'
            end).
    now rewrite He. }
  rewrite Hk, StyleFacts.trim_blank_prefix. exact H.
Qed.

(** An entry with a safe key and a safe value is read back as printed. *)
Lemma styleEntries_print (k v : string) :
  truthy k = true -> style_safe k -> style_safe v ->
  styleEntries (k ++ ": " ++ v) = [(k, [v])].
Proof.
  intros Hne (Hkt & Hks & Hkc) (Hvt & Hvs & Hvc).
  destruct (trim_fixed_parts k Hkt) as [Hkh _].
  assert (Hx : has_char ";" (k ++ ": " ++ v) = false).
  { rewrite StyleFacts.has_char_app, Hks. simpl. exact Hvs. }
  unfold styleEntries. rewrite (StyleFacts.split_absent _ _ Hx).
  unfold pieces. cbn [fst snd map].
  assert (Ht : trim (k ++ ": " ++ v) = k ++ String ":" (trimEnd (String " " v))).
  { unfold trim. rewrite StyleFacts.trimStart_fixed.
    - change (k ++ ": " ++ v) with (k ++ String ":" (String " " v)).
      now apply StyleFacts.trimEnd_app_not_white.
    - destruct k; [discriminate|exact Hkh]. }
  rewrite Ht.
  assert (Hty : truthy (k ++ String ":" (trimEnd (String " " v))) = true).
  { destruct k; [discriminate|reflexivity]. }
  cbn [filter]. rewrite Hty. cbn [map].
  rewrite (StyleFacts.split_app _ _ _ Hkc).
  assert (Hc : has_char ":" (trimEnd (String " " v)) = false).
  { apply StyleFacts.trimEnd_absent. simpl. exact Hvc. }
  rewrite (StyleFacts.split_absent _ _ Hc). unfold pieces. cbn [fst snd map].
  now rewrite Hkt, trimEnd_blank_then.
Qed.

Lemma style_safe_undefined : style_safe "undefined".
Proof. repeat split. Qed.

(** What [styleEntries] guarantees of a key and of the value printed. *)
Lemma styleEntries_safe (s : string) :
  Forall (fun e => style_safe (entry_k e) /\ style_safe (template (entry_v e)))
         (styleEntries s).
Proof.
  apply Forall_forall. intros e He. unfold styleEntries in He.
  apply in_map_iff in He. destruct He as (p & <- & Hp).
  apply filter_In in Hp. destruct Hp as [Hp _].
  apply in_map_iff in Hp. destruct Hp as (q & <- & Hq).
  assert (Hsemi : has_char ";" (trim q) = false).
  { apply StyleFacts.trim_absent.
    exact (proj1 (Forall_forall _ _) (StyleFacts.split_pieces_no_sep ";" s) q Hq). }
  pose proof (StyleFacts.split_pieces_absent ";" ":" (trim q) Hsemi) as Hs.
  pose proof (StyleFacts.split_pieces_no_sep ":" (trim q)) as Hc.
  destruct (split ":" (trim q)) as [k r]. unfold pieces in Hs, Hc. simpl in Hs, Hc.
  inversion Hs as [|? ? Hks Hrs]; subst. inversion Hc as [|? ? Hkc Hrc]; subst.
  unfold entry_k, entry_v. simpl. split.
  - unfold style_safe.
    split; [apply StyleFacts.trim_idem|split; now apply StyleFacts.trim_absent].
  - destruct r as [|v r]; [exact style_safe_undefined|]. simpl.
    inversion Hrs; subst. inversion Hrc; subst. unfold style_safe.
    split; [apply StyleFacts.trim_idem|split; now apply StyleFacts.trim_absent].
Qed.

Lemma styleEntries_join_last (xs : list string) (y : string) :
  Forall (fun x => has_char ";" x = false) xs ->
  styleEntries (join "; " (xs ++ [y])%list)
  = (flat_map styleEntries xs ++ styleEntries y)%list.
Proof.
  induction 1 as [|x xs Hx _ IH]; [reflexivity|].
  assert (Hj : join "; " ((x :: xs) ++ [y])%list
               = x ++ String ";" (String " " (join "; " (xs ++ [y])%list))).
  { simpl. destruct xs; reflexivity. }
  rewrite Hj, (StyleFacts.styleEntries_app _ _ Hx), StyleFacts.styleEntries_blank, IH.
  simpl. now rewrite app_assoc.
Qed.

Lemma find_filter_implied {A : Type} (q keep : A -> bool) (l : list A) :
  (forall x, q x = true -> keep x = true) ->
  find q (filter keep l) = find q l.
Proof.
  intros H. induction l as [|x l IH]; simpl; [reflexivity|].
  destruct (keep x) eqn:Hk; simpl.
  - destruct (q x); [reflexivity|exact IH].
  - destruct (q x) eqn:Hq; [rewrite (H x Hq) in Hk; discriminate|exact IH].
Qed.

(** The entries of the string that [applyStyleValue] builds from the
    entries [es] it keeps. *)
Lemma styleEntries_kept (es : list Entry) :
  Forall (fun e => truthy (entry_k e) = true
                   /\ style_safe (entry_k e) /\ style_safe (template (entry_v e))) es ->
  flat_map styleEntries (map print_entry es)
  = map (fun e => (entry_k e, [template (entry_v e)])) es
  /\ Forall (fun x => has_char ";" x = false) (map print_entry es).
Proof.
  induction 1 as [|e es (Hk & Hsk & Hsv) _ [IH1 IH2]]; [split; [reflexivity|constructor]|].
  split.
  - cbn [map flat_map]. unfold print_entry at 1.
    rewrite (styleEntries_print _ _ Hk Hsk Hsv), IH1. reflexivity.
  - cbn [map]. constructor; [|exact IH2]. unfold print_entry.
    destruct Hsk as (_ & Hs & _). destruct Hsv as (_ & Hv & _).
    rewrite StyleFacts.has_char_app, Hs. simpl. exact Hv.
Qed.

Lemma join_print_truthy (es : list Entry) :
  es <> [] -> Forall (fun e => truthy (entry_k e) = true) es ->
  truthy (join "; " (map print_entry es)) = true.
Proof.
  intros Hne H. apply join_truthy.
  - destruct es; [congruence|discriminate].
  - apply Forall_forall. intros x Hx. apply in_map_iff in Hx.
    destruct Hx as (e & <- & He).
    pose proof (proj1 (Forall_forall _ _) H e He) as Hk. cbv beta in Hk.
    unfold print_entry. destruct (entry_k e); [discriminate Hk|reflexivity].
Qed.

End StyleRoundTrip.

Lemma print_entry_truthy (e : Entry) : JsString.truthy (print_entry e) = true.
Proof. unfold print_entry. destruct (entry_k e); reflexivity. Qed.

(** The string [applyStyleValue] returns, from the entries it keeps and
    the entry it adds. *)
Lemma applyStyleValue_shape (style : option string) (key : string)
    (value : option string) :
  exists es pushed,
    Forall (fun e => JsString.truthy (entry_k e) = true
                     /\ style_safe (entry_k e)
                     /\ style_safe (template (entry_v e))) es
    /\ Forall (fun e => entry_k e <> key) es
    /\ (forall s, style = Some s -> JsString.truthy s = true ->
          es = filter (fun e => negb (String.eqb (entry_k e) key)
                                && JsString.truthy (entry_k e)) (styleEntries s))
    /\ pushed = match value with
                | Some v => if JsString.truthy v then [(key, [v])] else []
                | None => []
                end
    /\ applyStyleValue style key value
       = match (es ++ pushed)%list with
         | [] => EmptyString
         | _ => JsString.join "; " (map print_entry (es ++ pushed)%list)
         end.
Proof.
  set (keep := fun e : Entry => negb (String.eqb (entry_k e) key)
                                && JsString.truthy (entry_k e)).
  assert (Hkeep : forall s,
            Forall (fun e => JsString.truthy (entry_k e) = true
                             /\ style_safe (entry_k e)
                             /\ style_safe (template (entry_v e)))
                   (filter keep (styleEntries s))
            /\ Forall (fun e => entry_k e <> key) (filter keep (styleEntries s))).
  { intros s. split; apply Forall_forall; intros e He; apply filter_In in He;
      destruct He as [He Hk]; unfold keep in Hk; apply andb_prop in Hk;
      destruct Hk as [Hk1 Hk2].
    - split; [exact Hk2|].
      exact (proj1 (Forall_forall _ _) (StyleRoundTrip.styleEntries_safe s) e He).
    - intros E. rewrite E, String.eqb_refl in Hk1. discriminate. }
  destruct style as [s|].
  - destruct (JsString.truthy s) eqn:Hs.
    + exists (filter keep (styleEntries s)), (match value with
                | Some v => if JsString.truthy v then [(key, [v])] else []
                | None => []
                end).
      destruct (Hkeep s) as [H1 H2].
      split; [exact H1|]. split; [exact H2|]. split.
      { intros s' E _. now injection E as <-. }
      split; [reflexivity|].
      unfold applyStyleValue. rewrite Hs. fold keep.
      destruct value as [v|]; [destruct (JsString.truthy v)|];
        rewrite ?app_nil_r; reflexivity.
    + exists [], (match value with
                | Some v => if JsString.truthy v then [(key, [v])] else []
                | None => []
                end).
      split; [constructor|]. split; [constructor|]. split.
      { intros s' E Ht. injection E as <-. congruence. }
      split; [reflexivity|].
      unfold applyStyleValue. rewrite Hs.
      destruct value as [v|]; [destruct (JsString.truthy v)|]; reflexivity.
  - exists [], (match value with
                | Some v => if JsString.truthy v then [(key, [v])] else []
                | None => []
                end).
    split; [constructor|]. split; [constructor|]. split; [discriminate|].
    split; [reflexivity|].
    unfold applyStyleValue.
    destruct value as [v|]; [destruct (JsString.truthy v)|]; reflexivity.
Qed.

Lemma find_key_map (k : string) (es : list Entry) :
  find (fun e => String.eqb (entry_k e) k)
       (map (fun e => (entry_k e, [template (entry_v e)])) es)
  = option_map (fun e => (entry_k e, [template (entry_v e)]))
               (find (fun e => String.eqb (entry_k e) k) es).
Proof.
  induction es as [|e es IH]; simpl; [reflexivity|].
  unfold entry_k at 1. simpl. fold (entry_k e).
  destruct (String.eqb (entry_k e) k); [reflexivity|exact IH].
Qed.

(** X10: a value written with [applyStyleValue] is the value
    [getStyleValue] reads, for a non-empty key and a non-empty value that
    are trimmed and hold neither [;] nor [:], whatever the style string
    was; so after the write of such a color to [fill] or [stroke], the
    bare attribute and the style entry of the node agree. *)
Theorem style_read_after_write (key v : string) :
  JsString.truthy key = true -> style_safe key ->
  JsString.truthy v = true -> style_safe v ->
  (forall style,
      getStyleValue (Some (applyStyleValue style key (Some v))) key = Some v)
  /\ (String.eqb key "fill" || String.eqb key "stroke" = true ->
      forall n,
        JsObject.get key (attrs (writeAttribute key v n)) = Some v
        /\ getStyleValue (JsObject.get "style" (attrs (writeAttribute key v n))) key
           = Some v).
Proof.
  intros Hk Hsk Hv Hsv.
  assert (Hread : forall style,
            JsString.truthy (applyStyleValue style key (Some v)) = true
            /\ getStyleValue (Some (applyStyleValue style key (Some v))) key = Some v).
  { intros style.
    destruct (applyStyleValue_shape style key (Some v))
      as (es & pushed & Hes & Hne & _ & Hp & Hout).
    rewrite Hv in Hp. subst pushed.
    assert (Hnil : (es ++ [(key, [v])])%list <> []) by (destruct es; discriminate).
    assert (Hout' : applyStyleValue style key (Some v)
                    = JsString.join "; " (map print_entry (es ++ [(key, [v])])%list)).
    { rewrite Hout. destruct (es ++ [(key, [v])])%list; [congruence|reflexivity]. }
    rewrite Hout'.
    assert (Htruthy : JsString.truthy
                        (JsString.join "; " (map print_entry (es ++ [(key, [v])])%list))
                      = true).
    { apply join_truthy.
      - destruct es; discriminate.
      - apply Forall_forall. intros x Hx. apply in_map_iff in Hx.
        destruct Hx as (e & <- & _). apply print_entry_truthy. }
    split; [exact Htruthy|].
    unfold getStyleValue. rewrite Htruthy. cbn [negb].
    destruct (StyleRoundTrip.styleEntries_kept es Hes) as [Hre Hclean].
    rewrite map_app. cbn [map].
    rewrite (StyleRoundTrip.styleEntries_join_last _ _ Hclean), Hre.
    unfold print_entry at 1. cbn [entry_k entry_v fst snd hd_error template].
    rewrite (StyleRoundTrip.styleEntries_print _ _ Hk Hsk Hsv).
    rewrite find_app, find_key_map.
    assert (Hnone : find (fun e => String.eqb (entry_k e) key) es = None).
    { clear -Hne. induction Hne as [|e es He _ IH]; [reflexivity|]. simpl.
      destruct (String.eqb_spec (entry_k e) key); [contradiction|exact IH]. }
    rewrite Hnone. simpl. unfold entry_k. simpl.
    now rewrite String.eqb_refl. }
  split; [intros style; apply Hread|].
  intros Hkey n. unfold writeAttribute. rewrite Hkey, Hv.
  destruct (Hread (JsObject.get "style" (attrs n))) as [Ht Hg].
  rewrite Ht. cbn [attrs set_attrs].
  assert (Hns : "style" <> key).
  { intros <-. discriminate Hkey. }
  split; [apply JsObjectFacts.get_set_same|].
  rewrite JsObjectFacts.get_set_other by exact Hns.
  now rewrite JsObjectFacts.get_set_same.
Qed.

Lemma style_read_after_write_witness :
  getStyleValue (Some (applyStyleValue (Some "stroke: blue; fill: red") "fill"
                         (Some "#ff0000"))) "fill"
  = Some "#ff0000".
Proof.
  assert (Hsk : style_safe "fill") by (repeat split).
  assert (Hsv : style_safe "#ff0000") by (repeat split).
  exact (proj1 (style_read_after_write "fill" "#ff0000" eq_refl Hsk eq_refl Hsv)
           (Some "stroke: blue; fill: red")).
Defined.

(** X11: a write with [applyStyleValue] keeps what the style string held
    for the other keys: a value that [getStyleValue] read for a non-empty
    key other than the one written is read again from the new string,
    whatever is written or removed, and the new string is not empty. *)
Theorem style_write_keeps_other_keys (key k' v' : string) (value : option string)
    (style : string) :
  k' <> key -> k' <> "" ->
  getStyleValue (Some style) k' = Some v' ->
  getStyleValue (Some (applyStyleValue (Some style) key value)) k' = Some v'
  /\ JsString.truthy (applyStyleValue (Some style) key value) = true.
Proof.
  intros Hne Hnonempty Hold.
  assert (Hk' : JsString.truthy k' = true)
    by (destruct k'; [exfalso; now apply Hnonempty|reflexivity]).
  unfold getStyleValue in Hold.
  destruct (JsString.truthy style) eqn:Hs; [|discriminate]. cbn [negb] in Hold.
  destruct (find (fun e => String.eqb (entry_k e) k') (styleEntries style))
    as [e|] eqn:Hfind; [|discriminate].
  destruct (applyStyleValue_shape (Some style) key value)
    as (es & pushed & Hes & _ & Hdef & Hp & Hout).
  specialize (Hdef style eq_refl Hs).
  assert (Hfind' : find (fun e => String.eqb (entry_k e) k') es = Some e).
  { rewrite Hdef, StyleRoundTrip.find_filter_implied; [exact Hfind|].
    intros x Hx. apply String.eqb_eq in Hx. rewrite Hx, Hk'.
    destruct (String.eqb_spec k' key); [contradiction|reflexivity]. }
  assert (Hnil : es <> []) by (intros E; rewrite E in Hfind'; discriminate).
  assert (Hout' : applyStyleValue (Some style) key value
                  = JsString.join "; " (map print_entry (es ++ pushed)%list)).
  { rewrite Hout. destruct es; [congruence|reflexivity]. }
  rewrite Hout'.
  assert (Htruthy : JsString.truthy
                      (JsString.join "; " (map print_entry (es ++ pushed)%list)) = true).
  { apply join_truthy.
    - destruct es; [congruence|discriminate].
    - apply Forall_forall. intros x Hx. apply in_map_iff in Hx.
      destruct Hx as (y & <- & _). apply print_entry_truthy. }
  split; [|exact Htruthy].
  unfold getStyleValue. rewrite Htruthy. cbn [negb].
  destruct (StyleRoundTrip.styleEntries_kept es Hes) as [Hre Hclean].
  assert (Hentries : exists tail,
            styleEntries (JsString.join "; " (map print_entry (es ++ pushed)%list))
            = (map (fun e => (entry_k e, [template (entry_v e)])) es ++ tail)%list).
  { destruct pushed as [|p [|p2 pushed]].
    - exists []. rewrite !app_nil_r, StyleFacts.styleEntries_join by exact Hclean.
      exact Hre.
    - exists (styleEntries (print_entry p)). rewrite map_app. cbn [map].
      now rewrite (StyleRoundTrip.styleEntries_join_last _ _ Hclean), Hre.
    - exfalso. destruct value as [v|]; [destruct (JsString.truthy v)|]; discriminate. }
  destruct Hentries as (tail & ->).
  rewrite find_app, find_key_map, Hfind'. simpl.
  unfold entry_v at 1. simpl. now rewrite Hold.
Qed.

Lemma style_write_keeps_other_keys_witness :
  getStyleValue (Some (applyStyleValue (Some "stroke: blue; fill: red") "fill" None))
                "stroke"
  = Some "blue".
Proof.
  assert (Hne : "stroke" <> "fill") by discriminate.
  assert (Hnonempty : "stroke" <> "") by discriminate.
  exact (proj1 (style_write_keeps_other_keys "fill" "stroke" "blue" None
                  "stroke: blue; fill: red" Hne Hnonempty eq_refl)).
Defined.

(** ** Duplicated subtrees *)

Lemma filter_other_keys_set (k v : string) (o : JsObject.t) :
  filter (fun kv => negb (String.eqb (fst kv) k)) (JsObject.set k v o)
  = filter (fun kv => negb (String.eqb (fst kv) k)) o.
Proof.
  unfold JsObject.set. destruct (JsObject.mem k o).
  - induction o as [|[k' v'] o IH]; simpl; [reflexivity|].
    destruct (String.eqb_spec k' k) as [->|Hne]; simpl.
    + now rewrite String.eqb_refl.
    + destruct (String.eqb_spec k' k); [contradiction|]. simpl. now rewrite IH.
  - destruct (JsObject.array_index k) as [n|].
    + induction o as [|[k' v'] o IH]; simpl.
      * now rewrite String.eqb_refl.
      * destruct (JsObject.array_index k') as [m|]; [destruct (m <? n)%N|]; simpl;
          rewrite ?String.eqb_refl; simpl; try reflexivity.
        now rewrite IH.
    + rewrite filter_app. simpl. rewrite String.eqb_refl. simpl. apply app_nil_r.
Qed.

Lemma assignIds_id (baseId : string) (n : SvgNode) :
  id (assignIds baseId n) = id n ++ "-copy".
Proof.
  destruct n as [i tg a cs tx]. simpl.
  destruct (String.eqb_spec i baseId) as [->|_]; [|reflexivity].
  unfold newId. simpl. now rewrite ?StringFacts.append_nil_r.
Qed.

Lemma assignIds_unfold (baseId : string) (n : SvgNode) :
  assignIds baseId n
  = mkNode (id n ++ "-copy") (tag n)
           (JsObject.set "data-id" (id n ++ "-copy") (attrs n))
           (map (assignIds baseId) (children n)) (text n).
Proof.
  pose proof (assignIds_id baseId n) as H.
  destruct n as [i tg a cs tx]. simpl in *.
  destruct (String.eqb i baseId); simpl in *; now rewrite ?H.
Qed.

(** X12: [assignNewIds] renames every node of the subtree to its old id
    followed by [-copy], whatever [baseId] it is given; every node of the
    result carries its new id under [data-id]; and the result serializes
    to the same markup as the original. *)
Theorem assignNewIds_suffixes_every_id (n : SvgNode) (baseId : string) :
  allIds (assignNewIds n baseId) = map (fun i => i ++ "-copy") (allIds n)
  /\ Forall (fun m => JsObject.get "data-id" (attrs m) = Some (id m))
            (nodes (assignNewIds n baseId))
  /\ serializeNode (assignNewIds n baseId) = serializeNode n
  /\ forall baseId', assignNewIds n baseId' = assignNewIds n baseId.
Proof.
  unfold assignNewIds.
  induction n as [n IH] using SvgNode_ind.
  assert (Hkids : forall c, In c (children n) ->
            allIds (assignIds baseId c) = map (fun i => i ++ "-copy") (allIds c)
            /\ Forall (fun m => JsObject.get "data-id" (attrs m) = Some (id m))
                      (nodes (assignIds baseId c))
            /\ serializeNode (assignIds baseId c) = serializeNode c
            /\ forall baseId', assignIds baseId' c = assignIds baseId c).
  { intros c Hc. exact (proj1 (Forall_forall _ _) IH c Hc). }
  clear IH. split; [|split; [|split]].
  - rewrite assignIds_unfold. destruct n as [i tg a cs tx]. simpl in *. f_equal.
    induction cs as [|c cs IHcs]; simpl; [reflexivity|].
    rewrite map_app, (proj1 (Hkids c (or_introl eq_refl))), IHcs; [reflexivity|].
    intros d Hd. apply Hkids. now right.
  - rewrite assignIds_unfold. destruct n as [i tg a cs tx]. simpl in *.
    constructor; [simpl; apply JsObjectFacts.get_set_same|].
    induction cs as [|c cs IHcs]; simpl; [constructor|].
    apply Forall_app. split.
    + exact (proj1 (proj2 (Hkids c (or_introl eq_refl)))).
    + apply IHcs. intros d Hd. apply Hkids. now right.
  - rewrite assignIds_unfold, !serializeNode_eq. unfold printed_attrs.
    cbn [tag attrs children text].
    rewrite filter_other_keys_set, map_map.
    assert (Hmap : map (fun c => serializeNode (assignIds baseId c)) (children n)
                   = map serializeNode (children n)).
    { apply map_ext_in. intros c Hc. exact (proj1 (proj2 (proj2 (Hkids c Hc)))). }
    now rewrite Hmap.
  - intros baseId'. rewrite !assignIds_unfold. f_equal.
    apply map_ext_in. intros c Hc. exact (proj2 (proj2 (proj2 (Hkids c Hc))) baseId').
Qed.

(** ** Imported trees *)

Lemma walk_unfold (tagName : string) (attributes : list (string * string))
    (childNodes : list ChildNode) (counter : nat) :
  walk (mkElement tagName attributes childNodes) counter
  = let '(id0, counter) :=
      match own_id attributes with
      | Some i => (i, counter)
      | None => ("node-" ++ JsString.of_nat (S counter), S counter)
      end in
    let attrs0 :=
      JsObject.set "data-id" id0
        (fold_left (fun o nv => JsObject.set (fst nv) (snd nv) o) attributes []) in
    let '(children0, counter) := walkChildren childNodes [] counter in
    (mkNode id0 tagName attrs0 children0 None, counter).
Proof.
  cbn [walk]. unfold own_id.
  destruct (getAttribute attributes "data-id") as [a|];
    [destruct (JsString.truthy a)|];
    destruct (getAttribute attributes "id"); reflexivity.
Qed.

Lemma walkChildren_acc (cs : list ChildNode) :
  forall acc counter,
    walkChildren cs acc counter
    = ((acc ++ fst (walkChildren cs [] counter))%list,
       snd (walkChildren cs [] counter)).
Proof.
  induction cs as [|c cs IH]; intros acc counter.
  - simpl. now rewrite app_nil_r.
  - destruct c as [child|textContent|]; cbn [walkChildren].
    + destruct (walk child counter) as [n c1]. fold walkChildren.
      rewrite (IH (acc ++ [n])%list), (IH ([] ++ [n])%list). simpl.
      now rewrite <- app_assoc.
    + destruct (JsString.truthy (JsString.trim textContent)); fold walkChildren.
      * rewrite (IH (acc ++ _)%list), (IH ([] ++ _)%list). simpl.
        now rewrite <- app_assoc.
      * apply IH.
    + fold walkChildren. apply IH.
Qed.

(** X13: every node that [walk] builds is either an element node, which
    carries its id under [data-id] and has no text of its own, or a text
    leaf with the tag [#text], no attributes, no children and a non-empty
    trimmed text; the node returned for the element is an element node, and
    the counter does not go down. *)
Theorem walk_builds_well_formed_nodes (el : Element) (counter : nat) :
  element_node (fst (walk el counter))
  /\ Forall (fun n => text_leaf n \/ element_node n) (nodes (fst (walk el counter)))
  /\ counter <= snd (walk el counter).
Proof.
  revert counter. induction el as [tagName attributes childNodes IH]
    using Element_children_ind.
  intros counter. rewrite walk_unfold.
  assert (Hkids : forall c,
            Forall (fun n => text_leaf n \/ element_node n)
                   (flat_map nodes (fst (walkChildren childNodes [] c)))
            /\ c <= snd (walkChildren childNodes [] c)).
  { induction IH as [|ch cs Hch _ IHcs]; intros c.
    - simpl. split; [constructor|lia].
    - destruct ch as [child|textContent|]; cbn [walkChildren]; fold walkChildren.
      + destruct (Hch c) as (_ & Hn & Hc).
        destruct (walk child c) as [n c1]. simpl in Hn, Hc.
        rewrite walkChildren_acc. simpl.
        destruct (IHcs c1) as [Hrest Hle]. split; [|lia].
        apply Forall_app. now split.
      + destruct (JsString.truthy (JsString.trim textContent)) eqn:Ht.
        * rewrite walkChildren_acc. simpl.
          destruct (IHcs (S c)) as [Hrest Hle]. split; [|lia].
          constructor; [|exact Hrest]. left.
          repeat split. exists (JsString.trim textContent).
          split; [reflexivity|]. split; [exact Ht|apply StyleFacts.trim_idem].
        * apply IHcs.
      + apply IHcs. }
  destruct (own_id attributes) as [i|].
  - destruct (Hkids counter) as [Hk Hle].
    destruct (walkChildren childNodes [] counter) as [kids c']. simpl in *.
    assert (He : element_node
                   (mkNode i tagName
                      (JsObject.set "data-id" i
                         (fold_left (fun o nv => JsObject.set (fst nv) (snd nv) o)
                                    attributes [])) kids None)).
    { split; [apply JsObjectFacts.get_set_same|reflexivity]. }
    split; [exact He|]. split; [|exact Hle].
    constructor; [now right|exact Hk].
  - destruct (Hkids (S counter)) as [Hk Hle].
    destruct (walkChildren childNodes [] (S counter)) as [kids c']. simpl in *.
    assert (He : element_node
                   (mkNode ("node-" ++ JsString.of_nat (S counter)) tagName
                      (JsObject.set "data-id" ("node-" ++ JsString.of_nat (S counter))
                         (fold_left (fun o nv => JsObject.set (fst nv) (snd nv) o)
                                    attributes [])) kids None)).
    { split; [apply JsObjectFacts.get_set_same|reflexivity]. }
    split; [exact He|]. split; [|lia].
    constructor; [now right|exact Hk].
Qed.

Lemma of_nat_inj (n m : nat) : JsString.of_nat n = JsString.of_nat m -> n = m.
Proof.
  unfold JsString.of_nat. intros H.
  assert (Hnn : forall k, Nat.to_uint k <> Decimal.Nil).
  { intros k. rewrite <- (DecimalNat.Unsigned.of_to k) at 1.
    rewrite DecimalNat.Unsigned.to_of. apply DecimalFacts.unorm_nonnil. }
  apply DecimalNat.Unsigned.to_uint_inj.
  assert (Hs : Some (Nat.to_uint n) = Some (Nat.to_uint m)).
  { rewrite <- (NilZero.usu _ (Hnn n)), <- (NilZero.usu _ (Hnn m)). now rewrite H. }
  now injection Hs.
Qed.

Lemma made_up_inj (p q : bool * nat) : made_up p = made_up q -> snd p = snd q.
Proof.
  destruct p as [[|] k], q as [[|] k']; unfold made_up; simpl; intros H;
    try discriminate; injection H as H; now apply of_nat_inj.
Qed.

Lemma NoDup_made_up (l : list (bool * nat)) :
  NoDup (map snd l) -> NoDup (map made_up l).
Proof.
  induction l as [|p l IH]; simpl; intros H; [constructor|].
  inversion H as [|? ? Hnot Hrest]; subst. constructor; [|now apply IH].
  intros Hin. apply Hnot. apply in_map_iff in Hin. destruct Hin as (q & Hq & Hql).
  apply made_up_inj in Hq. rewrite <- Hq. now apply in_map.
Qed.

Lemma seq_glue (a b c : nat) :
  a <= b -> b <= c ->
  (seq (S a) (b - a) ++ seq (S b) (c - b))%list = seq (S a) (c - a).
Proof.
  intros H1 H2. replace (c - a) with ((b - a) + (c - b)) by lia.
  rewrite seq_app. do 2 f_equal. lia.
Qed.

(** The ids of the tree built from a DOM tree without ids are made up from
    the values the counter takes, one after the other. *)
Lemma walk_anonymous_ids (el : Element) :
  anonymous el ->
  forall counter,
    exists l,
      allIds (fst (walk el counter)) = map made_up l
      /\ map snd l = seq (S counter) (snd (walk el counter) - counter)
      /\ counter <= snd (walk el counter).
Proof.
  induction el as [tagName attributes childNodes IH] using Element_children_ind.
  intros [Hown Hall] counter. rewrite walk_unfold, Hown.
  assert (Hkids : forall c,
            exists l,
              flat_map allIds (fst (walkChildren childNodes [] c)) = map made_up l
              /\ map snd l = seq (S c) (snd (walkChildren childNodes [] c) - c)
              /\ c <= snd (walkChildren childNodes [] c)).
  { clear Hown. induction IH as [|ch cs Hch _ IHcs]; intros c.
    - exists []. simpl. rewrite Nat.sub_diag. repeat split. lia.
    - destruct ch as [child|textContent|]; cbn [walkChildren]; fold walkChildren.
      + destruct Hall as [Hchild Hall].
        destruct (Hch Hchild c) as (l1 & E1 & S1 & L1).
        destruct (walk child c) as [n c1]. simpl in E1, S1, L1.
        rewrite walkChildren_acc. simpl.
        destruct (IHcs Hall c1) as (l2 & E2 & S2 & L2).
        exists (l1 ++ l2)%list. rewrite !map_app, E1, E2, S1, S2.
        split; [reflexivity|]. split; [now apply seq_glue|lia].
      + destruct (JsString.truthy (JsString.trim textContent)).
        * rewrite walkChildren_acc. simpl.
          destruct (IHcs Hall (S c)) as (l2 & E2 & S2 & L2).
          exists ((false, S c) :: l2). simpl. rewrite E2, S2.
          split; [reflexivity|]. split; [|lia].
          change (S c :: seq (S (S c)) (snd (walkChildren cs [] (S c)) - S c))
            with (seq (S c) (S (snd (walkChildren cs [] (S c)) - S c))).
          f_equal. lia.
        * exact (IHcs Hall c).
      + exact (IHcs Hall c). }
  destruct (Hkids (S counter)) as (l & E & Sq & L).
  destruct (walkChildren childNodes [] (S counter)) as [kids c']. simpl in *.
  exists ((true, S counter) :: l). simpl. rewrite E, Sq.
  split; [reflexivity|]. split; [|lia].
  change (S counter :: seq (S (S counter)) (c' - S counter))
    with (seq (S counter) (S (c' - S counter))).
  f_equal. lia.
Qed.

(** X14: when no element of the document brings an id of its own (no
    [id], and no non-empty [data-id]), the ids that [walk] makes up are
    pairwise different: every id of the imported tree occurs at exactly
    one node. *)
Theorem walk_makes_up_unique_ids (el : Element) (counter : nat) :
  anonymous el -> NoDup (allIds (fst (walk el counter))).
Proof.
  intros Ha. destruct (walk_anonymous_ids el Ha counter) as (l & E & Sq & _).
  rewrite E. apply NoDup_made_up. rewrite Sq. apply seq_NoDup.
Qed.

Lemma walk_makes_up_unique_ids_witness :
  NoDup (allIds (fst (walk (mkElement "svg" []
                              [ElementChild (mkElement "rect" [("width", "10")] []);
                               TextChild " hello ";
                               ElementChild (mkElement "g" [] [])]) 0))).
Proof.
  apply walk_makes_up_unique_ids. simpl. repeat split.
Defined.

(** ** Duplication and the uniqueness of ids *)

Lemma NoDup_app_disjoint {A : Type} (l1 l2 : list A) :
  NoDup (l1 ++ l2) -> forall x, In x l1 -> ~ In x l2.
Proof.
  induction l1 as [|a l1 IH]; simpl; intros H x Hx; [contradiction|].
  inversion H as [|? ? Ha Hrest]; subst. destruct Hx as [->|Hx].
  - intros Hx2. apply Ha. apply in_or_app. now right.
  - now apply IH.
Qed.

Lemma in_allIds_child (t c : SvgNode) (i : string) :
  In c (children t) -> In i (allIds c) -> In i (allIds t).
Proof.
  intros Hc Hi. destruct t as [j tg a cs tx]. simpl in *. right.
  apply in_flat_map. now exists c.
Qed.

Lemma allIds_push_child (i : string) (d : SvgNode) (t : SvgNode) :
  NoDup (allIds t) -> In i (allIds t) ->
  Permutation (allIds (mapTarget i (push_child d) t)) (allIds t ++ allIds d).
Proof.
  induction t as [t IH] using SvgNode_ind.
  destruct t as [j tg a cs tx]. cbn [mapTarget id children allIds].
  intros Hnd Hin. simpl in IH.
  destruct (String.eqb_spec j i) as [E|Hne].
  - unfold push_child, set_children. cbn [allIds id children].
    rewrite flat_map_app. simpl. rewrite app_nil_r. reflexivity.
  - cbn [allIds id children]. simpl. constructor.
    destruct Hin as [E|Hin]; [contradiction|].
    inversion Hnd as [|? ? _ Hkids]; subst. clear Hnd Hne.
    induction IH as [|c cs Hc _ IHcs]; [contradiction|].
    simpl in *. apply in_app_or in Hin.
    pose proof (NoDup_app_remove_r _ _ Hkids) as Hndc.
    pose proof (NoDup_app_remove_l _ _ Hkids) as Hndr.
    assert (Hdisj : forall x, In x (allIds c) -> ~ In x (flat_map allIds cs)).
    { intros x Hx1 Hx2. exact (NoDup_app_disjoint _ _ Hkids x Hx1 Hx2). }
    destruct Hin as [Hinc|Hinr].
    + assert (Hrest : map (mapTarget i (push_child d)) cs = cs).
      { apply map_id_on. apply Forall_forall. intros c' Hc'.
        apply mapTarget_absent. intros Hi'.
        apply (Hdisj i Hinc). apply in_flat_map. now exists c'. }
      rewrite Hrest.
      rewrite (Hc Hndc Hinc).
      rewrite <- !app_assoc. apply Permutation_app_head. apply Permutation_app_comm.
    + assert (Hc' : mapTarget i (push_child d) c = c).
      { apply mapTarget_absent. intros Hi'. exact (Hdisj i Hi' Hinr). }
      rewrite Hc', <- app_assoc. apply Permutation_app_head.
      now apply IHcs.
Qed.

Lemma nodes_infix (t n : SvgNode) :
  In n (nodes t) -> exists pre post, allIds t = (pre ++ allIds n ++ post)%list.
Proof.
  induction t as [t IH] using SvgNode_ind.
  destruct t as [j tg a cs tx]. simpl in *. intros [E|Hin].
  - subst n. exists [], []. simpl. now rewrite app_nil_r.
  - assert (Hkids : exists pre post,
              flat_map allIds cs = (pre ++ allIds n ++ post)%list).
    { induction IH as [|c cs Hc _ IHcs]; [contradiction|].
      simpl in Hin. apply in_app_or in Hin. destruct Hin as [Hin|Hin].
      - destruct (Hc Hin) as (pre & post & E).
        exists pre, (post ++ flat_map allIds cs)%list.
        simpl. rewrite E. now rewrite <- !app_assoc.
      - destruct (IHcs Hin) as (pre & post & E).
        exists (allIds c ++ pre)%list, post. simpl. rewrite E.
        now rewrite <- !app_assoc. }
    destruct Hkids as (pre & post & E).
    exists (j :: pre), post. simpl. now rewrite E.
Qed.

Lemma string_length_append (a b : string) :
  String.length (a ++ b) = String.length a + String.length b.
Proof. induction a as [|c a IH]; simpl; [reflexivity|now rewrite IH]. Qed.

Lemma append_suffix_inj (x y s : string) : x ++ s = y ++ s -> x = y.
Proof.
  revert y. induction x as [|c x IH]; intros [|c' y] H; simpl in H.
  - reflexivity.
  - apply (f_equal String.length) in H. simpl in H.
    rewrite string_length_append in H. lia.
  - apply (f_equal String.length) in H. simpl in H.
    rewrite string_length_append in H. lia.
  - injection H as -> H. f_equal. now apply IH.
Qed.

Lemma NoDup_map_suffix (s : string) (l : list string) :
  NoDup l -> NoDup (map (fun i => i ++ s) l).
Proof.
  induction 1 as [|x l Hx _ IH]; simpl; constructor; [|exact IH].
  intros Hin. apply in_map_iff in Hin. destruct Hin as (y & Hy & Hyl).
  apply append_suffix_inj in Hy. now subst.
Qed.

Lemma allIds_assignIds (n : SvgNode) (baseId : string) :
  allIds (assignNewIds n baseId) = map (fun i => i ++ "-copy") (allIds n).
Proof.
  unfold assignNewIds. induction n as [n IH] using SvgNode_ind.
  rewrite assignIds_unfold. destruct n as [i tg a cs tx]. simpl in *. f_equal.
  induction IH as [|c cs Hc _ IHcs]; simpl; [reflexivity|].
  now rewrite map_app, Hc, IHcs.
Qed.

(** X15: duplication keeps the ids of the tree unique when none of the
    derived ids is taken: if every id of the tree occurs once and no id
    of the duplicated subtree followed by [-copy] is an id of the tree,
    [duplicateSelected] returns a tree whose ids are those of the old tree
    and the derived ids of the subtree, each once, and selects the
    copy. *)
Theorem duplicateSelected_keeps_ids_unique (s : App) (tree n : SvgNode) (x : string) :
  svgTree s = Some tree ->
  JsSet.first (selectedIds s) = Some x ->
  x <> id tree ->
  findNode (Some tree) (Some x) = Some n ->
  NoDup (allIds tree) ->
  (forall i, In i (allIds n) -> ~ In (i ++ "-copy") (allIds tree)) ->
  exists s' tree',
    duplicateSelected s = Some s'
    /\ svgTree s' = Some tree'
    /\ Permutation (allIds tree')
                   (allIds tree ++ map (fun i => i ++ "-copy") (allIds n))
    /\ NoDup (allIds tree')
    /\ selectedIds s' = [x ++ "-copy"].
Proof.
  intros Ht Hfirst Hx Hfind Hnd Hfresh.
  assert (Hi : JsString.truthy x = true).
  { destruct x; [destruct tree; discriminate|reflexivity]. }
  assert (Hn : In n (nodes tree) /\ id n = x).
  { simpl in Hfind. rewrite (findNode_in_find tree x Hi) in Hfind.
    apply find_some in Hfind. destruct Hfind as [Hin He].
    split; [exact Hin|]. now apply String.eqb_eq. }
  destruct Hn as [Hn_in Hn_id].
  pose proof (findParent_gen tree x None (fun E => Hx (eq_sym E))) as Hpar.
  destruct (findParent tree x None) as [parent|] eqn:Hp.
  2:{ exfalso. apply Hpar. rewrite <- allIds_nodes, <- Hn_id. now apply in_map. }
  destruct Hpar as (Hp_in & _).
  unfold duplicateSelected. rewrite Ht, Hfirst.
  destruct (String.eqb_spec x (id tree)) as [|_]; [contradiction|].
  rewrite Hp, Hfind, cloneNode_id.
  rewrite updateNode_returns by (unfold enough; lia).
  set (d := assignNewIds n x).
  assert (Hd_ids : allIds d = map (fun i => i ++ "-copy") (allIds n))
    by apply allIds_assignIds.
  set (tree' := mapTarget (id parent) (fun p => set_children (children p ++ [d])%list p) tree).
  destruct (commit_history s tree') as (_ & _ & Htree' & _).
  assert (Hperm : Permutation (allIds tree')
                    (allIds tree ++ map (fun i => i ++ "-copy") (allIds n))).
  { rewrite <- Hd_ids. apply (allIds_push_child (id parent) d tree Hnd).
    rewrite <- allIds_nodes. now apply in_map. }
  eexists. exists tree'. split; [reflexivity|]. split; [exact Htree'|].
  split; [exact Hperm|]. split.
  - apply (Permutation_NoDup (Permutation_sym Hperm)).
    apply NoDup_app; [exact Hnd| |].
    + apply NoDup_map_suffix.
      destruct (nodes_infix tree n Hn_in) as (pre & post & E).
      rewrite E in Hnd. apply NoDup_app_remove_l in Hnd.
      now apply NoDup_app_remove_r in Hnd.
    + intros i Hi' Hcopy. apply in_map_iff in Hcopy.
      destruct Hcopy as (j & <- & Hj). exact (Hfresh j Hj Hi').
  - cbn [selectedIds setSelectedIds]. subst d. unfold assignNewIds.
    rewrite assignIds_id, Hn_id. reflexivity.
Qed.

Lemma duplicateSelected_keeps_ids_unique_witness :
  exists s' tree',
    duplicateSelected (sample_app ["b"]) = Some s'
    /\ svgTree s' = Some tree'
    /\ NoDup (allIds tree')
    /\ selectedIds s' = ["b-copy"].
Proof.
  assert (Hx : "b" <> id sample_tree) by (simpl; discriminate).
  assert (Hnd : NoDup (allIds sample_tree)).
  { simpl. repeat constructor; simpl; intros H;
      repeat (destruct H as [H|H]; try discriminate H); exact H. }
  assert (Hfresh : forall i, In i (allIds (sample_rect "b")) ->
                             ~ In (i ++ "-copy") (allIds sample_tree)).
  { simpl. intros i [<-|[]] H.
    repeat (destruct H as [H|H]; try discriminate H). exact H. }
  destruct (duplicateSelected_keeps_ids_unique (sample_app ["b"]) sample_tree
              (sample_rect "b") "b" eq_refl eq_refl Hx eq_refl Hnd Hfresh)
    as (s' & tree' & Hrun & Ht & _ & Hu & Hsel).
  exists s', tree'. repeat split; assumption.
Defined.

(** ** Text edits *)

Lemma height_eq_children (n m : SvgNode) :
  map height (children n) = map height (children m) -> height n = height m.
Proof.
  destruct n as [i t a cs tx], m as [i' t' a' cs' tx']. simpl. intros H. f_equal.
  revert cs' H. induction cs as [|c cs IH]; intros [|c' cs'] H; simpl in *;
    try discriminate; [reflexivity|].
  injection H as Hc H. now rewrite Hc, (IH cs' H).
Qed.

Lemma retext_under (ids : JsSet.t) (value : string) (c : SvgNode) :
  retext ids value false
    (if String.eqb (tag c) "#text"
     then mkNode (id c) (tag c) (attrs c) (children c) (Some value) else c)
  = retext ids value true c.
Proof.
  destruct c as [i t a cs tx]. cbn [tag id attrs children].
  destruct (String.eqb t "#text") eqn:E.
  - cbn [retext tag id attrs children text]. rewrite E. simpl.
    now destruct (JsSet.has i ids).
  - cbn [retext tag id attrs children text]. rewrite E. simpl.
    now rewrite andb_true_r.
Qed.

Lemma updateText_retext (fuel : nat) (node : SvgNode) (ids : JsSet.t) (value : string) :
  height node < fuel ->
  updateMultipleNodes fuel node ids (writeText value)
  = Some (retext ids value false node).
Proof.
  revert node. induction fuel as [|fuel IH]; intros node Hh; [lia|].
  cbn [updateMultipleNodes]. rewrite !cloneNode_id.
  destruct node as [i t a cs tx]. cbn [id] in *.
  assert (Hkids : forall c, In c cs -> height c < fuel).
  { intros c Hc. pose proof (height_child (mkNode i t a cs tx) c Hc). lia. }
  destruct (JsSet.has i ids) eqn:Hsel.
  - unfold writeText. cbn [tag id attrs children text set_children].
    destruct (String.eqb t "#text") eqn:Ht.
    + cbn [children]. rewrite (map_opt_Some _ (retext ids value false)).
      * cbn [retext tag id attrs children text set_children].
        now rewrite Ht, Hsel.
      * apply Forall_forall. intros c Hc. apply IH. now apply Hkids.
    + cbn [children]. rewrite (map_opt_Some _ (retext ids value false)).
      * cbn [retext tag id attrs children text set_children].
        rewrite Ht, Hsel, map_map. unfold set_children.
        cbn [tag id attrs children text andb negb orb]. do 2 f_equal.
        apply map_ext. intros c. apply retext_under.
      * apply Forall_forall. intros c' Hc'. apply in_map_iff in Hc'.
        destruct Hc' as (c & <- & Hc). apply IH.
        pose proof (Hkids c Hc) as Hlt.
        destruct (String.eqb (tag c) "#text"); [|exact Hlt].
        rewrite (height_eq_children _ c); [exact Hlt|reflexivity].
  - cbn [children]. rewrite (map_opt_Some _ (retext ids value false)).
    + cbn [retext tag id attrs children text set_children].
      rewrite Hsel. simpl. now rewrite andb_false_r.
    + apply Forall_forall. intros c Hc. apply IH. now apply Hkids.
Qed.

Lemma nodes_self (t : SvgNode) : In t (nodes t).
Proof. destruct t. now left. Qed.

Lemma nodes_trans (whole t m : SvgNode) :
  In t (nodes whole) -> In m (nodes t) -> In m (nodes whole).
Proof.
  induction whole as [whole IH] using SvgNode_ind. intros Ht Hm.
  destruct whole as [j tg a cs tx]. simpl in Ht, IH. destruct Ht as [<-|Ht].
  - exact Hm.
  - apply in_flat_map in Ht. destruct Ht as (c & Hc & Ht).
    apply (in_nodes_child _ c); [exact Hc|].
    exact (proj1 (Forall_forall _ _) IH c Hc Ht Hm).
Qed.

Lemma retext_nodes (whole : SvgNode) (ids : JsSet.t) (value : string) (t : SvgNode) :
  forall under,
    In t (nodes whole) ->
    (under = true ->
     exists p, In p (nodes whole) /\ JsSet.has (id p) ids = true
               /\ tag p <> "#text" /\ In t (children p)) ->
    Forall2 (text_written whole ids value) (nodes t) (nodes (retext ids value under t)).
Proof.
  induction t as [t IH] using SvgNode_ind. intros under Hin Hunder.
  assert (Hkids : forall c, In c (children t) ->
            Forall2 (text_written whole ids value) (nodes c)
              (nodes (retext ids value
                        (JsSet.has (id t) ids && negb (String.eqb (tag t) "#text")) c))).
  { intros c Hc. apply (proj1 (Forall_forall _ _) IH c Hc).
    - apply (nodes_trans whole t c Hin). apply (in_nodes_child t c c Hc), nodes_self.
    - intros Hflag. apply andb_prop in Hflag. destruct Hflag as [Hsel Htag].
      exists t. split; [exact Hin|]. split; [exact Hsel|]. split; [|exact Hc].
      intros E. rewrite E in Htag. discriminate. }
  clear IH. destruct t as [i tg a cs tx]. cbn [retext nodes id tag attrs children text] in *.
  constructor.
  - unfold text_written. cbn [id tag attrs text].
    repeat split.
    + destruct (String.eqb_spec tg "#text") as [E|N]; simpl; [|now left].
      destruct (JsSet.has i ids || under); [right; now split|now left].
    + intros -> ->. reflexivity.
    + intros Hsel Hfree. rewrite Hsel. simpl.
      destruct under; [|now rewrite andb_false_r].
      exfalso. destruct (Hunder eq_refl) as (p & Hp & Hps & Hpt & Hpc).
      exact (Hfree p Hp Hps Hpt Hpc).
  - clear Hin Hunder.
    induction cs as [|c cs IHcs]; simpl; [constructor|].
    apply Forall2_app.
    + apply Hkids. now left.
    + apply IHcs. intros d Hd. apply Hkids. now right.
Qed.

Lemma retext_node_shape (ids : JsSet.t) (value : string) (t : SvgNode) :
  forall under p',
    In p' (nodes (retext ids value under t)) ->
    exists under0 p0, p' = retext ids value under0 p0.
Proof.
  induction t as [t IH] using SvgNode_ind. intros under p' Hp.
  destruct t as [i tg a cs tx]. cbn [retext nodes id tag attrs children text] in *.
  destruct Hp as [<-|Hp].
  - exists under, (mkNode i tg a cs tx). reflexivity.
  - apply in_flat_map in Hp. destruct Hp as (c' & Hc' & Hp).
    apply in_map_iff in Hc'. destruct Hc' as (c & <- & Hc).
    exact (proj1 (Forall_forall _ _) IH c Hc _ p' Hp).
Qed.

(** X16: [updateText] with a selection returns, and commits a tree that
    has the nodes of the old one in the same order with the same ids, tags
    and attributes; only the [text] of [#text] nodes changes, and to the
    value: always in a selected [#text] node and in every [#text] child of
    a selected node that is no [#text], never in a node that is neither
    selected nor a child of such a node.  Text further down than the
    children of a selected node is left alone, and the commit is made
    even when nothing changed. *)
Theorem updateText_writes_text_nodes_only (s : App) (tree : SvgNode) (value : string) :
  svgTree s = Some tree ->
  selectedIds s <> [] ->
  exists s' tree',
    updateText value s = Some s'
    /\ svgTree s' = Some tree'
    /\ history s' = (slice0 (history s) (historyIndex s + 1) ++ [tree'])%list
    /\ selectedIds s' = selectedIds s
    /\ Forall2 (text_written tree (selectedIds s) value) (nodes tree) (nodes tree')
    /\ (forall p c, In p (nodes tree') ->
          JsSet.has (id p) (selectedIds s) = true -> tag p <> "#text" ->
          In c (children p) -> tag c = "#text" -> text c = Some value).
Proof.
  intros Ht Hsel. unfold updateText. rewrite Ht.
  destruct (selectedIds s) as [|x sel] eqn:Eids; [contradiction|].
  cbn [JsSet.size length Nat.eqb]. rewrite <- Eids.
  rewrite updateText_retext by (unfold enough; lia).
  set (tree' := retext (selectedIds s) value false tree).
  destruct (commit_history s tree') as (Hh & _ & Htree' & _ & Hs & _).
  eexists. exists tree'. split; [reflexivity|]. split; [exact Htree'|].
  split; [exact Hh|]. split; [exact Hs|]. split.
  - apply retext_nodes; [apply nodes_self|discriminate].
  - intros p c Hp Hps Hpt Hc Hct.
    destruct (retext_node_shape _ _ _ _ _ Hp) as (under0 & p0 & ->).
    destruct p0 as [i tg a cs tx]. cbn [retext id tag attrs children text] in *.
    apply in_map_iff in Hc. destruct Hc as (c0 & <- & _).
    rewrite Hps in *.
    destruct (String.eqb_spec tg "#text") as [E|_]; [contradiction|].
    destruct c0 as [i0 tg0 a0 cs0 tx0]. cbn [retext id tag attrs children text] in *.
    rewrite Hct. simpl. now rewrite orb_true_r.
Qed.

Lemma updateText_writes_text_nodes_only_witness :
  exists s' tree',
    updateText "hello" (sample_app ["b"]) = Some s'
    /\ svgTree s' = Some tree'
    /\ map id (nodes tree') = map id (nodes sample_tree).
Proof.
  assert (Hsel : selectedIds (sample_app ["b"]) <> []) by discriminate.
  destruct (updateText_writes_text_nodes_only (sample_app ["b"]) sample_tree "hello"
              eq_refl Hsel) as (s' & tree' & Hrun & Ht & _ & _ & Hnodes & _).
  exists s', tree'. split; [exact Hrun|]. split; [exact Ht|].
  clear Hrun Ht. induction Hnodes as [|m m' l l' Hm _ IH]; [reflexivity|].
  simpl. rewrite IH. f_equal. exact (proj1 Hm).
Defined.

(** ** Grouping and ungrouping *)

Lemma find_split {A : Type} (f : A -> bool) (l : list A) (c : A) :
  find f l = Some c ->
  exists pre post,
    l = (pre ++ c :: post)%list
    /\ findIndex f l = Some (length pre)
    /\ Forall (fun y => f y = false) pre
    /\ f c = true.
Proof.
  induction l as [|y l IH]; simpl; [discriminate|].
  destruct (f y) eqn:E.
  - intros [= <-]. exists [], l. repeat split; [constructor|exact E].
  - intros H. destruct (IH H) as (pre & post & El & Hi & Hf & Hc).
    exists (y :: pre), post. rewrite Hi. simpl. repeat split.
    + now rewrite El.
    + now constructor.
    + exact Hc.
Qed.

Lemma findIndex_app_hit {A : Type} (f : A -> bool) (pre post : list A) (g : A) :
  Forall (fun y => f y = false) pre ->
  f g = true ->
  findIndex f (pre ++ g :: post) = Some (length pre).
Proof.
  intros Hf Hg. induction Hf as [|y pre Hy _ IH]; simpl.
  - now rewrite Hg.
  - now rewrite Hy, IH.
Qed.

Lemma splice1_app {A : Type} (pre post items : list A) (x : A) :
  splice1 (length pre) items (pre ++ x :: post) = (pre ++ items ++ post)%list.
Proof.
  unfold splice1. induction pre as [|y pre IH]; simpl; [reflexivity|].
  simpl in IH. now rewrite IH.
Qed.

Lemma map_NoDup_inj {A B : Type} (f : A -> B) (l : list A) (x y : A) :
  NoDup (map f l) -> In x l -> In y l -> f x = f y -> x = y.
Proof.
  induction l as [|z l IH]; simpl; intros Hnd Hx Hy E; [contradiction|].
  inversion Hnd as [|? ? Hz Hrest]; subst.
  destruct Hx as [<-|Hx], Hy as [<-|Hy].
  - reflexivity.
  - exfalso. apply Hz. rewrite E. now apply in_map.
  - exfalso. apply Hz. rewrite <- E. now apply in_map.
  - now apply IH.
Qed.

Lemma nodes_id_inj (t p q : SvgNode) :
  NoDup (allIds t) -> In p (nodes t) -> In q (nodes t) -> id p = id q -> p = q.
Proof. rewrite <- allIds_nodes. apply map_NoDup_inj. Qed.

Lemma in_nodes_allIds (t m : SvgNode) : In m (nodes t) -> In (id m) (allIds t).
Proof. intros H. rewrite <- allIds_nodes. now apply in_map. Qed.

Lemma mapTarget_id (i : string) (f : SvgNode -> SvgNode) (t : SvgNode) :
  (forall p, id p = i -> id (f p) = i) ->
  id (mapTarget i f t) = id t.
Proof.
  intros Hf. destruct t as [j tg a cs tx]. cbn [mapTarget id].
  destruct (String.eqb_spec j i) as [E|N]; [|reflexivity].
  rewrite (Hf (mkNode j tg a cs tx) E). now rewrite E.
Qed.

Lemma mapTarget_compose (i : string) (f f' : SvgNode -> SvgNode) (t : SvgNode) :
  (forall p, id p = i -> id (f p) = i) ->
  mapTarget i f' (mapTarget i f t) = mapTarget i (fun p => f' (f p)) t.
Proof.
  intros Hf. induction t as [t IH] using SvgNode_ind.
  destruct t as [j tg a cs tx]. cbn [mapTarget id tag attrs children text].
  destruct (String.eqb_spec j i) as [E|N].
  - pose proof (Hf (mkNode j tg a cs tx) E) as Hid.
    destruct (f (mkNode j tg a cs tx)) as [j' tg' a' cs' tx'].
    cbn [mapTarget id] in *. subst j'. now rewrite String.eqb_refl.
  - cbn [mapTarget id tag attrs children text].
    destruct (String.eqb_spec j i) as [|_]; [contradiction|].
    f_equal. rewrite map_map. apply map_ext_in. intros c Hc.
    exact (proj1 (Forall_forall _ _) IH c Hc).
Qed.

Lemma mapTarget_fixes (i : string) (h : SvgNode -> SvgNode) (t : SvgNode) :
  (forall p, In p (nodes t) -> id p = i -> h p = p) ->
  mapTarget i h t = t.
Proof.
  induction t as [t IH] using SvgNode_ind. intros Hh.
  destruct t as [j tg a cs tx]. cbn [mapTarget id tag attrs children text].
  destruct (String.eqb_spec j i) as [E|N].
  - apply Hh; [apply nodes_self|exact E].
  - f_equal. apply map_id_on. apply Forall_forall. intros c Hc.
    apply (proj1 (Forall_forall _ _) IH c Hc).
    intros p Hp. apply Hh.
    apply (in_nodes_child (mkNode j tg a cs tx) c); [exact Hc|exact Hp].
Qed.

(** Where the nodes of an updated tree come from: the image of a target,
    or a node off the targets, rebuilt. *)
Lemma mapTarget_nodes_from (i : string) (f : SvgNode -> SvgNode) (t m : SvgNode) :
  In m (nodes (mapTarget i f t)) ->
  (exists p, In p (nodes t) /\ id p = i /\ In m (nodes (f p)))
  \/ (exists m0, In m0 (nodes t) /\ id m0 <> i /\ m = mapTarget i f m0).
Proof.
  induction t as [t IH] using SvgNode_ind.
  destruct (String.eqb_spec (id t) i) as [E|N].
  - intros Hm. left. exists t. split; [apply nodes_self|]. split; [exact E|].
    destruct t as [j tg a cs tx]. cbn [mapTarget id] in *.
    destruct (String.eqb_spec j i); [exact Hm|contradiction].
  - intros Hm.
    assert (Hm' : m = mapTarget i f t
                  \/ exists c, In c (children t) /\ In m (nodes (mapTarget i f c))).
    { destruct t as [j tg a cs tx]. cbn [mapTarget id children] in *.
      destruct (String.eqb_spec j i); [contradiction|].
      cbn [nodes children] in Hm. destruct Hm as [<-|Hm]; [now left|right].
      apply in_flat_map in Hm. destruct Hm as (c' & Hc' & Hm).
      apply in_map_iff in Hc'. destruct Hc' as (c & <- & Hc). now exists c. }
    destruct Hm' as [->|(c & Hc & Hmc)].
    + right. exists t. split; [apply nodes_self|]. now split.
    + destruct (proj1 (Forall_forall _ _) IH c Hc Hmc)
        as [(p & Hp & Hpi & Hmp)|(m0 & Hm0 & Hne & Hid)].
      * left. exists p. split; [|split; assumption].
        apply (in_nodes_child t c); [exact Hc|exact Hp].
      * right. exists m0. split; [|split; assumption].
        apply (in_nodes_child t c); [exact Hc|exact Hm0].
Qed.

(** The first node with the target id on a path is replaced by its image,
    which is then part of the updated tree. *)
Lemma mapTarget_nodes_has (i : string) (f : SvgNode -> SvgNode) (t : SvgNode) :
  In i (allIds t) ->
  exists p, In p (nodes t) /\ id p = i
            /\ incl (nodes (f p)) (nodes (mapTarget i f t)).
Proof.
  induction t as [t IH] using SvgNode_ind.
  destruct (String.eqb_spec (id t) i) as [E|N].
  - intros _. exists t. split; [apply nodes_self|]. split; [exact E|].
    destruct t as [j tg a cs tx]. cbn [mapTarget id] in *.
    destruct (String.eqb_spec j i); [apply incl_refl|contradiction].
  - intros Hin.
    assert (Hc : exists c, In c (children t) /\ In i (allIds c)).
    { destruct t as [j tg a cs tx]. cbn [allIds id children] in *.
      destruct Hin as [E|Hin]; [contradiction|].
      apply in_flat_map in Hin. exact Hin. }
    destruct Hc as (c & Hc & Hic).
    destruct (proj1 (Forall_forall _ _) IH c Hc Hic) as (p & Hp & Hpi & Hincl).
    exists p. split; [apply (in_nodes_child t c); [exact Hc|exact Hp]|].
    split; [exact Hpi|]. intros m Hm.
    destruct t as [j tg a cs tx]. cbn [mapTarget id children] in *.
    destruct (String.eqb_spec j i); [contradiction|].
    cbn [nodes children]. right.
    apply in_flat_map. exists (mapTarget i f c). split; [now apply in_map|].
    now apply Hincl.
Qed.

Lemma grouped_parent_nodes (tree parent node group m : SvgNode)
    (pre post : list SvgNode) :
  In parent (nodes tree) ->
  children parent = (pre ++ node :: post)%list ->
  children group = [node] ->
  In m (nodes (set_children (pre ++ group :: post) parent)) ->
  m = set_children (pre ++ group :: post) parent \/ m = group \/ In m (nodes tree).
Proof.
  intros Hp Hcs Hg Hm.
  assert (Hchild : forall c, In c (children parent) -> In m (nodes c) -> In m (nodes tree)).
  { intros c Hc Hmc. apply (nodes_trans tree parent m Hp).
    apply (in_nodes_child parent c); assumption. }
  rewrite Hcs in Hchild.
  destruct parent as [j tg a cs tx]. unfold set_children in Hm.
  cbn [nodes id tag attrs children text] in Hm.
  destruct Hm as [<-|Hm]; [now left|right].
  apply in_flat_map in Hm. destruct Hm as (c & Hc & Hm).
  apply in_app_or in Hc. destruct Hc as [Hc|[Hc|Hc]].
  - right. apply (Hchild c); [apply in_or_app; now left|exact Hm].
  - subst c. destruct group as [j' tg' a' cs' tx']. cbn [children] in Hg. subst cs'.
    cbn [nodes children flat_map] in Hm. rewrite app_nil_r in Hm.
    destruct Hm as [<-|Hm]; [now left|right].
    apply (Hchild node); [apply in_or_app; right; now left|exact Hm].
  - right. apply (Hchild c); [apply in_or_app; right; now right|exact Hm].
Qed.

(** X17: ungrouping undoes grouping.  In a tree whose ids occur once each,
    with a selected node that is not the root and a timestamp whose group
    id is not taken, [groupSelected] puts a [g] element with that id into
    the tree, holding the node as its only child, and selects it;
    [ungroupSelected] then gives back the tree as it was and selects the
    node again.  The history has gained the two trees. *)
Theorem ungroup_after_group (timestamp : nat) (s : App) (tree node : SvgNode)
    (x : string) :
  svgTree s = Some tree ->
  JsSet.first (selectedIds s) = Some x ->
  x <> id tree ->
  findNode (Some tree) (Some x) = Some node ->
  NoDup (allIds tree) ->
  ~ In ("group-" ++ JsString.of_nat timestamp) (allIds tree) ->
  exists s1 grouped s2,
    groupSelected timestamp s = Some s1
    /\ svgTree s1 = Some grouped
    /\ selectedIds s1 = ["group-" ++ JsString.of_nat timestamp]
    /\ findNode (Some grouped) (Some ("group-" ++ JsString.of_nat timestamp))
       = Some (mkNode ("group-" ++ JsString.of_nat timestamp) "g"
                      [("data-id", "group-" ++ JsString.of_nat timestamp)]
                      [node] None)
    /\ ungroupSelected s1 = Some s2
    /\ svgTree s2 = Some tree
    /\ selectedIds s2 = [x]
    /\ history s2
       = (slice0 (history s) (historyIndex s + 1) ++ [grouped; tree])%list.
Proof.
  intros Ht Hfirst Hx Hfind Hnd Hfresh.
  set (g := "group-" ++ JsString.of_nat timestamp) in *.
  set (G := mkNode g "g" [("data-id", g)] [node] None).
  assert (Hi : JsString.truthy x = true).
  { destruct x; [destruct tree; discriminate|reflexivity]. }
  assert (Hfind' : find (fun m => String.eqb (id m) x) (nodes tree) = Some node).
  { simpl in Hfind. now rewrite (findNode_in_find tree x Hi) in Hfind. }
  assert (Hn : In node (nodes tree) /\ id node = x).
  { apply find_some in Hfind'. destruct Hfind' as [Hin He].
    split; [exact Hin|]. now apply String.eqb_eq. }
  destruct Hn as [Hn_in Hn_id].
  assert (Hold : forall m, In m (nodes tree) -> id m <> g).
  { intros m Hm E. apply Hfresh. rewrite <- E. now apply in_nodes_allIds. }
  (* the parent *)
  pose proof (findParent_gen tree x None (fun E => Hx (eq_sym E))) as Hpar.
  destruct (findParent tree x None) as [parent|] eqn:Hp.
  2:{ exfalso. apply Hpar. rewrite <- Hn_id. now apply in_nodes_allIds. }
  destruct Hpar as (Hp_in & c & Hc & Hc').
  rewrite Hfind' in Hc'. injection Hc' as <-.
  destruct (find_split _ _ _ Hc) as (pre & post & Ecs & Hidx & Hpre & _).
  assert (Honly : forall p, In p (nodes tree) -> id p = id parent -> p = parent).
  { intros p Hpn E. exact (nodes_id_inj tree p parent Hnd Hpn Hp_in E). }
  (* grouping *)
  set (f := fun p : SvgNode =>
              match findIndex (fun c => String.eqb (id c) x) (children p) with
              | Some index => set_children (splice1 index [G] (children p)) p
              | None => p
              end).
  assert (Hf_id : forall p, id (f p) = id p).
  { intros p. unfold f.
    destruct (findIndex (fun c => String.eqb (id c) x) (children p)); [|reflexivity].
    destruct p; reflexivity. }
  assert (Hf_parent : f parent = set_children (pre ++ G :: post) parent).
  { unfold f. rewrite Hidx. rewrite Ecs at 1. now rewrite splice1_app. }
  set (grouped := mapTarget (id parent) f tree).
  assert (Hrun1 : groupSelected timestamp s
                  = Some (setSelectedIds [g] (updateTreeWithHistory (Some grouped) s))).
  { unfold groupSelected. rewrite Ht, Hfirst.
    destruct (String.eqb_spec x (id tree)) as [|_]; [contradiction|].
    rewrite Hfind, Hp, cloneNode_id.
    rewrite updateNode_returns by (unfold enough; lia). reflexivity. }
  set (s1 := setSelectedIds [g] (updateTreeWithHistory (Some grouped) s)) in *.
  destruct (commit_history s grouped) as (Hh1 & Hi1 & Htree1 & _).
  assert (Ht1 : svgTree s1 = Some grouped) by exact Htree1.
  (* the group in the new tree *)
  assert (HG_in : In G (nodes grouped)).
  { destruct (mapTarget_nodes_has (id parent) f tree (in_nodes_allIds _ _ Hp_in))
      as (p & Hpn & Hpi & Hincl).
    rewrite (Honly p Hpn Hpi), Hf_parent in Hincl. apply Hincl.
    destruct parent as [j tg a cs tx]. unfold set_children.
    cbn [nodes id tag attrs children text]. right.
    apply in_flat_map. exists G. split; [|apply nodes_self].
    apply in_or_app. right. now left. }
  assert (Hfrom : forall m, In m (nodes grouped) ->
            m = set_children (pre ++ G :: post) parent \/ m = G
            \/ In m (nodes tree)
            \/ exists m0, In m0 (nodes tree) /\ id m0 <> id parent
                          /\ m = mapTarget (id parent) f m0).
  { intros m Hm.
    destruct (mapTarget_nodes_from _ _ _ _ Hm)
      as [(p & Hpn & Hpi & Hmp)|Hrebuilt].
    - rewrite (Honly p Hpn Hpi), Hf_parent in Hmp.
      destruct (grouped_parent_nodes tree parent node G m pre post
                  Hp_in Ecs eq_refl Hmp) as [H|[H|H]]; tauto.
    - tauto. }
  assert (Hg_truthy : JsString.truthy g = true) by reflexivity.
  assert (HfindG : findNode (Some grouped) (Some g) = Some G).
  { simpl. rewrite (findNode_in_find grouped g Hg_truthy).
    destruct (find (fun m => String.eqb (id m) g) (nodes grouped)) as [m|] eqn:E.
    - apply find_some in E. destruct E as [Hm Hid]. apply String.eqb_eq in Hid.
      f_equal. destruct (Hfrom m Hm) as [->|[->|[Hm0|(m0 & Hm0 & _ & ->)]]].
      + exfalso. apply (Hold parent Hp_in). rewrite <- Hid. now destruct parent.
      + reflexivity.
      + exfalso. exact (Hold m Hm0 Hid).
      + exfalso. apply (Hold m0 Hm0). rewrite <- Hid. symmetry.
        apply mapTarget_id. intros p <-. apply Hf_id.
    - exfalso. pose proof (find_none _ _ E G HG_in) as Hno.
      cbn [id G] in Hno. now rewrite String.eqb_refl in Hno. }
  (* its parent in the new tree *)
  assert (Hroot1 : id grouped <> g).
  { unfold grouped. rewrite mapTarget_id by (intros p <-; apply Hf_id).
    apply Hold, nodes_self. }
  pose proof (findParent_gen grouped g None Hroot1) as Hpar1.
  destruct (findParent grouped g None) as [parent1|] eqn:Hp1.
  2:{ exfalso. apply Hpar1. exact (in_nodes_allIds grouped G HG_in). }
  destruct Hpar1 as (Hp1_in & c1 & Hc1 & _).
  apply find_some in Hc1. destruct Hc1 as [Hc1_in Hc1_id].
  apply String.eqb_eq in Hc1_id.
  assert (Hp1_id : id parent1 = id parent).
  { destruct (Hfrom parent1 Hp1_in) as [->|[->|[Hm0|(m0 & Hm0 & Hne & ->)]]].
    - now destruct parent.
    - exfalso. cbn [children G] in Hc1_in. destruct Hc1_in as [<-|[]].
      exact (Hold node Hn_in Hc1_id).
    - exfalso. apply (Hold c1); [|exact Hc1_id].
      apply (nodes_trans tree parent1 c1 Hm0).
      apply (in_nodes_child parent1 c1); [exact Hc1_in|apply nodes_self].
    - exfalso. destruct m0 as [j tg a cs tx]. cbn [mapTarget id] in *.
      destruct (String.eqb_spec j (id parent)); [contradiction|].
      cbn [children] in Hc1_in. apply in_map_iff in Hc1_in.
      destruct Hc1_in as (c0 & <- & Hc0).
      apply (Hold c0).
      + apply (nodes_trans tree (mkNode j tg a cs tx) c0 Hm0).
        apply (in_nodes_child _ c0); [exact Hc0|apply nodes_self].
      + rewrite <- Hc1_id. symmetry.
        apply mapTarget_id. intros p <-. apply Hf_id. }
  (* ungrouping *)
  set (f' := fun p : SvgNode =>
               match findIndex (fun c => String.eqb (id c) g) (children p),
                     children G with
               | Some index, _ :: _ =>
                   set_children (splice1 index (map cloneNode (children G))
                                         (children p)) p
               | _, _ => p
               end).
  assert (Hback : mapTarget (id parent) f' grouped = tree).
  { unfold grouped. rewrite mapTarget_compose by (intros p <-; apply Hf_id).
    apply mapTarget_fixes. intros p Hpn Hpi. rewrite (Honly p Hpn Hpi), Hf_parent.
    unfold f'. cbn [children G map]. rewrite cloneNode_id.
    assert (Hpre' : Forall (fun y => String.eqb (id y) g = false) pre).
    { apply Forall_forall. intros y Hy. apply String.eqb_neq. apply Hold.
      apply (nodes_trans tree parent y Hp_in).
      apply (in_nodes_child parent y); [|apply nodes_self].
      rewrite Ecs. apply in_or_app. now left. }
    destruct parent as [j tg a cs tx]. unfold set_children.
    cbn [id tag attrs children text] in *.
    rewrite (findIndex_app_hit _ pre post G Hpre' (String.eqb_refl g)).
    rewrite splice1_app. simpl. now rewrite Ecs. }
  assert (Hrun2 : ungroupSelected s1
                  = Some (setSelectedIds [x] (updateTreeWithHistory (Some tree) s1))).
  { unfold ungroupSelected. rewrite Ht1.
    change (JsSet.first (selectedIds s1)) with (Some g). cbv beta iota.
    rewrite HfindG. cbv beta iota.
    change (negb (String.eqb (tag G) "g")) with false. cbv beta iota.
    rewrite Hp1, Hp1_id.
    rewrite updateNode_returns by (unfold enough; lia).
    change (mapTarget (id parent) _ grouped) with (mapTarget (id parent) f' grouped).
    rewrite Hback. cbn [children G id]. now rewrite Hn_id. }
  destruct (commit_history s1 tree) as (Hh2 & _ & Htree2 & _).
  exists s1, grouped, (setSelectedIds [x] (updateTreeWithHistory (Some tree) s1)).
  split; [exact Hrun1|]. split; [exact Ht1|]. split; [reflexivity|].
  split; [exact HfindG|]. split; [exact Hrun2|]. split; [exact Htree2|].
  split; [reflexivity|].
  cbn [history setSelectedIds]. rewrite Hh2.
  change (history s1) with (history (updateTreeWithHistory (Some grouped) s)).
  change (historyIndex s1) with (historyIndex (updateTreeWithHistory (Some grouped) s)).
  rewrite Hi1.
  replace (Z.of_nat (length (history (updateTreeWithHistory (Some grouped) s))) - 1 + 1)%Z
    with (Z.of_nat (length (history (updateTreeWithHistory (Some grouped) s)))) by lia.
  rewrite slice0_nat, firstn_all, Hh1, <- app_assoc. reflexivity.
Qed.

Lemma ungroup_after_group_witness :
  exists s1 s2,
    groupSelected 7 (sample_app ["b"]) = Some s1
    /\ selectedIds s1 = ["group-7"]
    /\ ungroupSelected s1 = Some s2
    /\ svgTree s2 = Some sample_tree
    /\ selectedIds s2 = ["b"].
Proof.
  assert (Hx : "b" <> id sample_tree) by (simpl; discriminate).
  assert (Hnd : NoDup (allIds sample_tree)).
  { simpl. repeat constructor; simpl; intros H;
      repeat (destruct H as [H|H]; try discriminate H); exact H. }
  assert (Hfresh : ~ In ("group-" ++ JsString.of_nat 7) (allIds sample_tree)).
  { simpl. intros H. repeat (destruct H as [H|H]; try discriminate H). exact H. }
  destruct (ungroup_after_group 7 (sample_app ["b"]) sample_tree (sample_rect "b") "b"
              eq_refl eq_refl Hx eq_refl Hnd Hfresh)
    as (s1 & grouped & s2 & Hrun1 & _ & Hsel1 & _ & Hrun2 & Ht2 & Hsel2 & _).
  exists s1, s2. repeat split; assumption.
Defined.

(** ** The text shown for an edited node *)

Lemma retext_nodes_shape (ids : JsSet.t) (value : string) (t : SvgNode) :
  forall under,
    Forall2 (fun m m' => exists under0, m' = retext ids value under0 m)
            (nodes t) (nodes (retext ids value under t)).
Proof.
  induction t as [t IH] using SvgNode_ind. intros under.
  destruct t as [i tg a cs tx]. cbn [retext nodes id tag attrs children text] in *.
  constructor.
  - exists under. reflexivity.
  - induction IH as [|c cs Hc _ IHcs]; simpl; [constructor|].
    apply Forall2_app; [apply Hc|exact IHcs].
Qed.

Lemma find_Forall2_id (R : SvgNode -> SvgNode -> Prop) (i : string)
    (l l' : list SvgNode) (n : SvgNode) :
  (forall m m', R m m' -> id m' = id m) ->
  Forall2 R l l' ->
  find (fun m => String.eqb (id m) i) l = Some n ->
  exists n', find (fun m => String.eqb (id m) i) l' = Some n' /\ R n n'.
Proof.
  intros Hid H. induction H as [|m m' l l' Hm _ IH]; simpl; [discriminate|].
  rewrite (Hid m m' Hm). destruct (String.eqb (id m) i).
  - intros [= <-]. now exists m'.
  - exact IH.
Qed.

(** X18: the text typed is the text shown.  When the selection holds a
    node that [findNode] finds and that is a [#text] node, or an element
    whose first child is one, then after [updateText] the node found under
    the same id has the typed value as its [getFirstText]. *)
Theorem updateText_then_getFirstText (s : App) (tree n : SvgNode) (x value : string) :
  svgTree s = Some tree ->
  JsSet.has x (selectedIds s) = true ->
  findNode (Some tree) (Some x) = Some n ->
  tag n = "#text"
  \/ (exists c rest, children n = c :: rest /\ tag c = "#text") ->
  exists s' tree' n',
    updateText value s = Some s'
    /\ svgTree s' = Some tree'
    /\ findNode (Some tree') (Some x) = Some n'
    /\ tag n' = tag n
    /\ getFirstText (Some n') = Some value.
Proof.
  intros Ht Hsel Hfind Hshape.
  assert (Hi : JsString.truthy x = true).
  { destruct x; [destruct tree; discriminate|reflexivity]. }
  assert (Hn_id : id n = x).
  { simpl in Hfind. rewrite (findNode_in_find tree x Hi) in Hfind.
    apply find_some in Hfind. now apply String.eqb_eq. }
  unfold updateText. rewrite Ht.
  destruct (selectedIds s) as [|y sel] eqn:Eids; [discriminate|].
  cbn [JsSet.size length Nat.eqb]. rewrite <- Eids in *.
  rewrite updateText_retext by (unfold enough; lia).
  set (tree' := retext (selectedIds s) value false tree).
  destruct (commit_history s tree') as (_ & _ & Htree' & _).
  simpl in Hfind. rewrite (findNode_in_find tree x Hi) in Hfind.
  assert (Hsame : forall m m',
            (exists under0, m' = retext (selectedIds s) value under0 m) ->
            id m' = id m).
  { intros m m' (under0 & ->). now destruct m. }
  destruct (find_Forall2_id _ x _ _ n Hsame
              (retext_nodes_shape (selectedIds s) value tree false) Hfind)
    as (n' & Hfind' & under0 & ->).
  eexists. exists tree', (retext (selectedIds s) value under0 n).
  split; [reflexivity|]. split; [exact Htree'|]. split.
  - simpl. now rewrite (findNode_in_find tree' x Hi).
  - destruct n as [i tg a cs tx]. cbn [id tag children] in *. subst i.
    split; [reflexivity|].
    cbn [getFirstText retext getFirstText_in id tag attrs children text].
    rewrite Hsel. destruct Hshape as [->|(c & rest & -> & Hc)].
    + reflexivity.
    + destruct (String.eqb tg "#text"); [reflexivity|].
      destruct c as [i' tg' a' cs' tx']. cbn [tag] in Hc. subst tg'.
      cbn [map retext getFirstText_in id tag attrs children text].
      simpl. now rewrite orb_true_r.
Qed.

Lemma updateText_then_getFirstText_witness :
  exists s' tree' n',
    updateText "hello" (setSvgTree (Some sample_label) (sample_app ["t"])) = Some s'
    /\ svgTree s' = Some tree'
    /\ findNode (Some tree') (Some "t") = Some n'
    /\ getFirstText (Some n') = Some "hello".
Proof.
  assert (Hshape : tag sample_caption = "#text"
                   \/ exists c rest, children sample_caption = c :: rest
                                     /\ tag c = "#text").
  { right. eexists. eexists. split; reflexivity. }
  destruct (updateText_then_getFirstText
              (setSvgTree (Some sample_label) (sample_app ["t"]))
              sample_label sample_caption "t" "hello" eq_refl eq_refl eq_refl Hshape)
    as (s' & tree' & n' & Hrun & Ht & Hfind & _ & Htext).
  exists s', tree', n'. repeat split; assumption.
Defined.

(** ** The two ways of writing an attribute *)

(** X19: the debounced write ends where the immediate one does.  With no
    save pending, [updateAttributeWithoutHistory] followed by the timer
    running (500 ms or more later, nothing else in between) leaves the
    editor in the state that [updateAttribute] gives at once: the same
    tree, the same history and cursor, the same selection and no save
    pending. *)
Theorem debounced_write_settles_as_commit (key value : string) (s : App) (t : nat) :
  pendingSave s = None ->
  now s + 500 <= t ->
  exists deferred committed,
    updateAttributeWithoutHistory key value s = Some deferred
    /\ updateAttribute key value s = Some committed
    /\ advance t deferred = setNow t committed.
Proof.
  intros Hp Ht. unfold updateAttributeWithoutHistory, updateAttribute.
  destruct s as [raw tree sel err hist idx latest dragged down pending clock].
  cbn [pendingSave now svgTree selectedIds] in *. subst pending.
  destruct (Nat.eqb (JsSet.size sel) 0) eqn:Hsize.
  - exists (mkApp raw tree sel err hist idx latest dragged down None clock),
           (mkApp raw tree sel err hist idx latest dragged down None clock).
    split; [reflexivity|]. split; [now destruct tree|reflexivity].
  - destruct tree as [tree|].
    + rewrite updateMultipleNodes_returns
        by (try apply writeAttribute_children; unfold enough; lia).
      eexists. eexists. split; [reflexivity|]. split; [reflexivity|].
      unfold advance. cbn [pendingSave setSvgTree setPendingSave setLatestTree due now
                           history historyIndex].
      destruct (Nat.leb_spec (clock + 500) t) as [_|Hlt]; [|lia].
      unfold fireSave, updateTreeWithHistory, saveToHistory.
      cbn [latestTreeRef setPendingSave setLatestTree setSvgTree saved_history
           saved_index history historyIndex setHistory setNow].
      reflexivity.
    + exists (mkApp raw None sel err hist idx latest dragged down None clock),
             (mkApp raw None sel err hist idx latest dragged down None clock).
      split; [reflexivity|]. split; reflexivity.
Qed.

Lemma debounced_write_settles_as_commit_witness :
  exists deferred committed,
    updateAttributeWithoutHistory "fill" "red" (sample_app ["b"]) = Some deferred
    /\ updateAttribute "fill" "red" (sample_app ["b"]) = Some committed
    /\ advance 500 deferred = setNow 500 committed.
Proof.
  apply (debounced_write_settles_as_commit "fill" "red" (sample_app ["b"]) 500);
    [reflexivity|simpl; lia].
Defined.

(** ** The style object of the renderer *)

Lemma styleStringToObject_fold (key : string) (es : list Entry) :
  key <> "__proto__" ->
  forall acc,
    JsObject.get key
      (fold_left
         (fun acc e =>
            match entry_v e with
            | Some v =>
                if usable e
                then if String.eqb (entry_k e) "__proto__" then acc
                     else JsObject.set (entry_k e) v acc
                else acc
            | None => acc
            end) es acc)
    = match find (fun e => String.eqb (entry_k e) key) (rev (filter usable es)) with
      | Some e => entry_v e
      | None => JsObject.get key acc
      end.
Proof.
  intros Hkey. induction es as [|e es IH]; intros acc; [reflexivity|].
  cbn [fold_left filter]. rewrite IH. clear IH.
  destruct (usable e) eqn:Hu.
  - cbn [rev]. rewrite find_app.
    destruct (find (fun e0 => String.eqb (entry_k e0) key) (rev (filter usable es)));
      [reflexivity|].
    cbn [find].
    assert (Hv : exists v, entry_v e = Some v).
    { unfold usable in Hu. apply andb_prop in Hu. destruct Hu as [_ Hu].
      destruct (entry_v e) as [v|]; [now exists v|discriminate]. }
    destruct Hv as (v & Hv). rewrite Hv.
    destruct (String.eqb_spec (entry_k e) key) as [E|N].
    + destruct (String.eqb_spec (entry_k e) "__proto__") as [E'|_].
      * exfalso. apply Hkey. now rewrite <- E.
      * rewrite E, Hv. apply JsObjectFacts.get_set_same.
    + destruct (String.eqb (entry_k e) "__proto__"); [reflexivity|].
      apply JsObjectFacts.get_set_other. intros E. now apply N.
  - now destruct (entry_v e).
Qed.

(** X20: in the style object that the renderer builds, the last entry of
    the style string with a non-empty key and value wins for its key,
    while [getStyleValue] reads the first entry with the key.  The two
    agree on a key whose entry is such an entry when no key is written
    twice in the string. *)
Theorem styleStringToObject_last_entry_wins (style key : string) :
  style <> "" ->
  key <> "__proto__" ->
  exists o,
    styleStringToObject (Some style) = Some o
    /\ JsObject.get key o
       = match find (fun e => String.eqb (entry_k e) key)
                    (rev (filter usable (styleEntries style))) with
         | Some e => entry_v e
         | None => None
         end
    /\ (NoDup (map entry_k (styleEntries style)) ->
        (forall e, find (fun e => String.eqb (entry_k e) key) (styleEntries style)
                   = Some e -> usable e = true) ->
        JsObject.get key o = getStyleValue (Some style) key).
Proof.
  intros Hs Hkey.
  assert (Ht : JsString.truthy style = true)
    by (destruct style; [exfalso; now apply Hs|reflexivity]).
  unfold styleStringToObject, getStyleValue. rewrite Ht. cbn [negb].
  eexists. split; [reflexivity|].
  rewrite (styleStringToObject_fold key (styleEntries style) Hkey []).
  split; [reflexivity|]. intros Hnd Hus. cbn [JsObject.get].
  set (es := styleEntries style) in *.
  set (q := fun e : Entry => String.eqb (entry_k e) key).
  destruct (find q es) as [e|] eqn:Hfirst.
  - pose proof (Hus e Hfirst) as Hu.
    apply find_some in Hfirst. destruct Hfirst as [He Hq].
    destruct (find q (rev (filter usable es))) as [e'|] eqn:Hlast.
    + apply find_some in Hlast. destruct Hlast as [He' Hq'].
      apply in_rev, filter_In in He'. destruct He' as [He' _].
      unfold q in Hq, Hq'. apply String.eqb_eq in Hq, Hq'.
      f_equal. apply (map_NoDup_inj entry_k es e' e Hnd He' He). congruence.
    + exfalso. assert (Hin : In e (rev (filter usable es))).
      { apply in_rev. rewrite rev_involutive. apply filter_In. now split. }
      pose proof (find_none _ _ Hlast e Hin) as Hno. congruence.
  - destruct (find q (rev (filter usable es))) as [e'|] eqn:Hlast; [|reflexivity].
    exfalso. apply find_some in Hlast. destruct Hlast as [He' Hq'].
    apply in_rev, filter_In in He'. destruct He' as [He' _].
    pose proof (find_none _ _ Hfirst e' He') as Hno. congruence.
Qed.

Lemma styleStringToObject_last_entry_wins_witness :
  exists o,
    styleStringToObject (Some "fill: red; fill: blue") = Some o
    /\ JsObject.get "fill" o = Some "blue"
    /\ getStyleValue (Some "fill: red; fill: blue") "fill" = Some "red".
Proof.
  assert (Hs : "fill: red; fill: blue" <> "") by discriminate.
  assert (Hkey : "fill" <> "__proto__") by discriminate.
  destruct (styleStringToObject_last_entry_wins "fill: red; fill: blue" "fill" Hs Hkey)
    as (o & Ho & Hget & _).
  exists o. split; [exact Ho|]. split; [exact Hget|reflexivity].
Defined.

(** * The write of an attribute on the selected nodes *)

Lemma join_ends_with_last (sep : string) (xs : list string) (y : string) :
  exists before, JsString.join sep (xs ++ [y])%list = before ++ y.
Proof.
  induction xs as [|x xs [before IH]].
  - now exists "".
  - exists (x ++ sep ++ before).
    assert (Hj : JsString.join sep ((x :: xs) ++ [y])%list
                 = x ++ sep ++ JsString.join sep (xs ++ [y])%list).
    { simpl. destruct xs; reflexivity. }
    rewrite Hj, IH. now rewrite !StringFacts.append_assoc.
Qed.

(** The style string after a non-empty value has been put under a key. *)
Lemma applyStyleValue_pushes (style : option string) (key v : string) :
  JsString.truthy v = true ->
  JsString.truthy (applyStyleValue style key (Some v)) = true
  /\ (exists before, applyStyleValue style key (Some v) = before ++ key ++ ": " ++ v)
  /\ (JsString.truthy key = true -> style_safe key -> style_safe v ->
      getStyleValue (Some (applyStyleValue style key (Some v))) key = Some v).
Proof.
  intros Hv.
  destruct (applyStyleValue_shape style key (Some v))
    as (es & pushed & Hes & Hne & _ & Hp & Hout).
  rewrite Hv in Hp. subst pushed.
  assert (Hout' : applyStyleValue style key (Some v)
                  = JsString.join "; " (map print_entry (es ++ [(key, [v])])%list)).
  { rewrite Hout. destruct (es ++ [(key, [v])])%list eqn:E; [|reflexivity].
    destruct es; discriminate. }
  rewrite Hout'.
  assert (Htruthy : JsString.truthy
                      (JsString.join "; " (map print_entry (es ++ [(key, [v])])%list))
                    = true).
  { apply join_truthy.
    - destruct es; discriminate.
    - apply Forall_forall. intros x Hx. apply in_map_iff in Hx.
      destruct Hx as (e & <- & _). apply print_entry_truthy. }
  split; [exact Htruthy|]. split.
  - rewrite map_app. cbn [map]. apply join_ends_with_last.
  - intros Hk Hsk Hsv.
    unfold getStyleValue. rewrite Htruthy. cbn [negb].
    destruct (StyleRoundTrip.styleEntries_kept es Hes) as [Hre Hclean].
    rewrite map_app. cbn [map].
    rewrite (StyleRoundTrip.styleEntries_join_last _ _ Hclean), Hre.
    unfold print_entry at 1. cbn [entry_k entry_v fst snd hd_error template].
    rewrite (StyleRoundTrip.styleEntries_print _ _ Hk Hsk Hsv).
    rewrite find_app, find_key_map.
    assert (Hnone : find (fun e => String.eqb (entry_k e) key) es = None).
    { clear -Hne. induction Hne as [|e es He _ IH]; [reflexivity|]. simpl.
      destruct (String.eqb_spec (entry_k e) key); [contradiction|exact IH]. }
    rewrite Hnone. simpl. unfold entry_k. simpl.
    now rewrite String.eqb_refl.
Qed.

Lemma colour_key (key : string) :
  String.eqb key "fill" || String.eqb key "stroke" = true ->
  JsString.truthy key = true /\ style_safe key /\ "style" <> key.
Proof.
  intros H. apply orb_prop in H.
  destruct H as [H|H]; apply String.eqb_eq in H; subst key;
    (split; [reflexivity|split; [repeat split|discriminate]]).
Qed.

(** The attributes that [writeAttribute] leaves. *)
Lemma writeAttribute_attrs (key value : string) (n : SvgNode) :
  attrs (writeAttribute key value n)
  = let a :=
      if String.eqb key "fill" || String.eqb key "stroke" then
        let sv := applyStyleValue (JsObject.get "style" (attrs n)) key
                    (if JsString.truthy value then Some value else None) in
        if JsString.truthy sv then JsObject.set "style" sv (attrs n)
        else JsObject.delete "style" (attrs n)
      else attrs n in
    if JsString.truthy value then JsObject.set key value a else JsObject.delete key a.
Proof.
  unfold writeAttribute.
  destruct (String.eqb key "fill" || String.eqb key "stroke");
    [destruct (JsString.truthy (applyStyleValue _ _ _))|];
    destruct (JsString.truthy value); reflexivity.
Qed.

(** [written] is what [writeAttribute] leaves. *)
Lemma writeAttribute_written (key value : string) (n : SvgNode) :
  written key value (writeAttribute key value n).
Proof.
  unfold written, getAttrOrStyle, style_lacks.
  rewrite writeAttribute_attrs. cbv zeta.
  destruct (JsString.truthy value) eqn:Hv.
  - rewrite JsObjectFacts.get_set_same.
    split; [reflexivity|]. split; [reflexivity|].
    intros Hc. rewrite Hc. destruct (colour_key key Hc) as (Hk & Hsk & Hns).
    destruct (applyStyleValue_pushes (JsObject.get "style" (attrs n)) key value Hv)
      as (Ht & (before & Hend) & Hread).
    rewrite Ht, JsObjectFacts.get_set_other by exact Hns.
    rewrite JsObjectFacts.get_set_same. split.
    + exists before. now rewrite Hend.
    + intros Hsv. now apply Hread.
  - rewrite JsObjectFacts.get_delete_same. split; [reflexivity|].
    intros Hc. rewrite Hc. destruct (colour_key key Hc) as (_ & _ & Hns).
    rewrite JsObjectFacts.get_delete_other by exact Hns.
    set (sv := applyStyleValue (JsObject.get "style" (attrs n)) key None).
    assert (Hlacks : match JsObject.get "style"
                             (if JsString.truthy sv
                              then JsObject.set "style" sv (attrs n)
                              else JsObject.delete "style" (attrs n)) with
                     | Some st => Forall (fun e => entry_k e <> key) (styleEntries st)
                     | None => True
                     end).
    { destruct (JsString.truthy sv).
      - rewrite JsObjectFacts.get_set_same.
        apply StyleFacts.applyStyleValue_removes.
      - now rewrite JsObjectFacts.get_delete_same. }
    split; [exact Hlacks|].
    unfold getStyleValue.
    destruct (JsObject.get "style"
                (if JsString.truthy sv then JsObject.set "style" sv (attrs n)
                 else JsObject.delete "style" (attrs n))) as [st|]; [|reflexivity].
    destruct (JsString.truthy st); [|reflexivity]. simpl.
    induction Hlacks as [|e es He _ IH]; [reflexivity|]. simpl.
    destruct (String.eqb_spec (entry_k e) key); [contradiction|exact IH].
Qed.

Lemma written_attrs (key value : string) (n m : SvgNode) :
  attrs m = attrs n -> written key value n -> written key value m.
Proof.
  unfold written, getAttrOrStyle, style_lacks. intros ->. exact (fun H => H).
Qed.

Lemma written_mapSelected (ids : JsSet.t) (key value : string) (n : SvgNode) :
  JsSet.has (id n) ids = true ->
  written key value (mapSelected ids (writeAttribute key value) n).
Proof.
  intros Hi. apply (written_attrs key value (writeAttribute key value n)).
  - now rewrite attrs_mapSelected, Hi.
  - apply writeAttribute_written.
Qed.

(** A value with a [;] in it shows why the style entry is read back only
    for values that are free of [;] and [:]. *)
Lemma style_entry_of_a_value_with_semicolon :
  JsObject.get "fill" (attrs (writeAttribute "fill" "a;b" (sample_rect "a"))) = Some "a;b"
  /\ getStyleValue
       (JsObject.get "style" (attrs (writeAttribute "fill" "a;b" (sample_rect "a"))))
       "fill" = Some "a".
Proof. split; reflexivity. Qed.

(** C8: [updateAttribute('fill', c)] returns a tree in which every node
    with a selected id, at whatever position, and so every selected node
    that [findNode] finds, is in the state [written]: for a non-empty [c]
    the bare [fill] attribute is [c], which is what [getAttrOrStyle]
    returns, and the style string ends with the entry [fill: c], read back
    as [c] when [c] is trimmed and free of [;] and [:]; for the empty [c]
    there is no bare [fill] attribute and no [fill] entry in the style. *)
Theorem reconciler_fill (s : App) (tree : SvgNode) (c : string) :
  svgTree s = Some tree -> selectedIds s <> [] ->
  exists s' tree',
    updateAttribute "fill" c s = Some s'
    /\ svgTree s' = Some tree'
    /\ (forall p n',
          subtree_at p tree' = Some n' ->
          JsSet.has (id n') (selectedIds s) = true ->
          written "fill" c n')
    /\ (forall i n',
          JsSet.has i (selectedIds s) = true ->
          findNode (svgTree s') (Some i) = Some n' ->
          written "fill" c n')
    /\ (JsString.truthy c = true ->
        forall i n',
          JsSet.has i (selectedIds s) = true ->
          findNode (svgTree s') (Some i) = Some n' ->
          JsObject.get "fill" (attrs n') = Some c
          /\ getAttrOrStyle (Some n') "fill" = Some c
          /\ (exists before,
                 JsObject.get "style" (attrs n') = Some (before ++ "fill: " ++ c))
          /\ (style_safe c ->
              getStyleValue (JsObject.get "style" (attrs n')) "fill" = Some c))
    /\ (JsString.truthy c = false ->
        forall i n',
          JsSet.has i (selectedIds s) = true ->
          findNode (svgTree s') (Some i) = Some n' ->
          JsObject.get "fill" (attrs n') = None
          /\ style_lacks "fill" n'
          /\ getAttrOrStyle (Some n') "fill" = None).
Proof.
  intros Ht Hsel. unfold updateAttribute. rewrite Ht.
  destruct (selectedIds s) as [|x xs] eqn:Hs; [congruence|]. simpl JsSet.size.
  cbn [Nat.eqb]. rewrite <- Hs.
  rewrite (updateMultipleNodes_returns _ _ _ _ (writeAttribute_children "fill" c))
    by (unfold enough; lia).
  set (tree' := mapSelected (selectedIds s) (writeAttribute "fill" c) tree).
  destruct (commit_history s tree') as (_ & _ & Htree & _).
  assert (Hfound : forall i n',
            JsSet.has i (selectedIds s) = true ->
            findNode (svgTree (updateTreeWithHistory (Some tree') s)) (Some i) = Some n' ->
            written "fill" c n').
  { intros i n' Hi Hfind. rewrite Htree in Hfind. simpl in Hfind. subst tree'.
    rewrite (findNode_in_mapSelected _ _ _ _ (writeAttribute_id "fill" c)) in Hfind.
    destruct (findNode_in tree i) as [n|] eqn:Hn; [|discriminate].
    simpl in Hfind. injection Hfind as <-.
    pose proof (findNode_in_id _ _ _ Hn) as Hid. rewrite <- Hid in Hi.
    now apply written_mapSelected. }
  eexists. exists tree'. split; [reflexivity|]. split; [exact Htree|].
  split; [|split; [exact Hfound|split]].
  - intros p n' Hat Hi. subst tree'.
    rewrite subtree_at_mapSelected in Hat.
    destruct (subtree_at p tree) as [n|]; [|discriminate].
    simpl in Hat. injection Hat as <-.
    rewrite (id_mapSelected _ _ _ (writeAttribute_id "fill" c)) in Hi.
    now apply written_mapSelected.
  - intros Hc i n' Hi Hfind. pose proof (Hfound i n' Hi Hfind) as H.
    unfold written in H. rewrite Hc in H. cbn [String.eqb Ascii.eqb Bool.eqb orb] in H.
    destruct H as (Hg & Ha & Hstyle). destruct (Hstyle eq_refl) as [Hend Hread].
    repeat split; assumption.
  - intros Hc i n' Hi Hfind. pose proof (Hfound i n' Hi Hfind) as H.
    unfold written in H. rewrite Hc in H. cbn [String.eqb Ascii.eqb Bool.eqb orb] in H.
    destruct H as (Hg & Hstyle). destruct (Hstyle eq_refl) as [Hl Ha].
    repeat split; assumption.
Qed.

Lemma reconciler_fill_witness :
  exists s' tree',
    updateAttribute "fill" "#ff0000" (sample_app ["a"]) = Some s'
    /\ svgTree s' = Some tree'
    /\ forall i n',
         JsSet.has i (selectedIds (sample_app ["a"])) = true ->
         findNode (svgTree s') (Some i) = Some n' ->
         JsObject.get "fill" (attrs n') = Some "#ff0000"
         /\ getAttrOrStyle (Some n') "fill" = Some "#ff0000"
         /\ getStyleValue (JsObject.get "style" (attrs n')) "fill" = Some "#ff0000".
Proof.
  assert (Hsel : selectedIds (sample_app ["a"]) <> []) by discriminate.
  assert (Hsafe : style_safe "#ff0000") by (repeat split).
  destruct (reconciler_fill (sample_app ["a"]) sample_tree "#ff0000" eq_refl Hsel)
    as (s' & tree' & Hrun & Htree & _ & _ & Hset & _).
  exists s', tree'. split; [exact Hrun|]. split; [exact Htree|].
  intros i n' Hi Hfind.
  destruct (Hset eq_refl i n' Hi Hfind) as (Hg & Ha & _ & Hread).
  split; [exact Hg|]. split; [exact Ha|exact (Hread Hsafe)].
Defined.

(** * A burst of color changes *)

Lemma nodes_mapSelected (ids : JsSet.t) (f : SvgNode -> SvgNode) (t : SvgNode) :
  nodes (mapSelected ids f t) = map (mapSelected ids f) (nodes t).
Proof.
  induction t as [t IH] using SvgNode_ind.
  destruct t as [j tg a cs tx]. cbn [mapSelected nodes children map]. f_equal.
  simpl in IH. induction IH as [|c cs Hc _ IHcs]; [reflexivity|].
  cbn [map flat_map]. now rewrite map_app, Hc, IHcs.
Qed.

Lemma same_frame_trans (ids : JsSet.t) (n m k : SvgNode) :
  same_frame ids n m -> same_frame ids m k -> same_frame ids n k.
Proof.
  intros (I1 & T1 & X1 & L1 & A1) (I2 & T2 & X2 & L2 & A2).
  repeat split; try congruence.
  intros H. rewrite <- (A1 H). apply A2. now rewrite I1.
Qed.

Lemma same_frame_mapSelected (ids : JsSet.t) (key value : string) (n : SvgNode) :
  same_frame ids n (mapSelected ids (writeAttribute key value) n).
Proof.
  assert (Hw : forall m, tag (writeAttribute key value m) = tag m
                         /\ text (writeAttribute key value m) = text m).
  { intros m. unfold writeAttribute.
    destruct (String.eqb key "fill" || String.eqb key "stroke");
      [destruct (JsString.truthy (applyStyleValue _ _ _))|];
      destruct (JsString.truthy value); split; reflexivity. }
  destruct n as [j tg a cs tx]. unfold same_frame.
  cbn [mapSelected id tag attrs children text].
  destruct (JsSet.has j ids) eqn:Hj.
  - rewrite writeAttribute_id. destruct (Hw (mkNode j tg a cs tx)) as [-> ->].
    repeat split; [apply length_map|discriminate].
  - repeat split. apply length_map.
Qed.

Lemma Forall2_trans_rel {A : Type} (R : A -> A -> Prop) (l1 l2 l3 : list A) :
  (forall x y z, R x y -> R y z -> R x z) ->
  Forall2 R l1 l2 -> Forall2 R l2 l3 -> Forall2 R l1 l3.
Proof.
  intros Ht H. revert l3. induction H as [|x y l1 l2 Hxy _ IH]; intros l3 H3.
  - inversion H3. constructor.
  - inversion H3 as [|? z ? l3' Hyz Hrest]; subst. constructor; [|now apply IH].
    exact (Ht _ _ _ Hxy Hyz).
Qed.

Lemma Forall2_map_of {A : Type} (R S : A -> A -> Prop) (g : A -> A) (l l' : list A) :
  (forall x y, R x y -> S x (g y)) -> Forall2 R l l' -> Forall2 S l (map g l').
Proof.
  intros H. induction 1 as [|x y l l' Hxy _ IH]; simpl; constructor; auto.
Qed.

Lemma Forall2_same {A : Type} (R : A -> A -> Prop) (l : list A) :
  (forall x, R x x) -> Forall2 R l l.
Proof. intros H. induction l; constructor; auto. Qed.

(** Whatever the changes, the live tree keeps the frame of every node. *)
Lemma liveTree_same_frame (ids : JsSet.t) (evs : list (nat * (string * string))) :
  forall tree,
    Forall2 (same_frame ids) (nodes tree) (nodes (liveTree ids tree evs)).
Proof.
  induction evs as [|ev evs IH]; intros tree.
  - apply Forall2_same. intros n. repeat split.
  - change (liveTree ids tree (ev :: evs))
      with (liveTree ids
              (mapSelected ids (writeAttribute (fst (snd ev)) (snd (snd ev))) tree) evs).
    apply (Forall2_trans_rel (same_frame ids) (nodes tree)
             (nodes (mapSelected ids
                       (writeAttribute (fst (snd ev)) (snd (snd ev))) tree))
             _ (same_frame_trans ids));
      [|apply IH].
    rewrite nodes_mapSelected.
    apply (Forall2_map_of eq); [|apply Forall2_same; reflexivity].
    intros x y <-. apply same_frame_mapSelected.
Qed.

(** The live tree is the write of the last change on the tree that the
    changes before it left. *)
Lemma liveTree_last (ids : JsSet.t) (evs : list (nat * (string * string))) :
  forall tree ev,
    liveTree ids tree (ev :: evs)
    = mapSelected ids
        (writeAttribute (fst (snd (last evs ev))) (snd (snd (last evs ev))))
        (liveTree ids tree (removelast (ev :: evs))).
Proof.
  induction evs as [|e2 evs IH]; intros tree ev; [reflexivity|].
  change (liveTree ids tree (ev :: e2 :: evs))
    with (liveTree ids
            (mapSelected ids (writeAttribute (fst (snd ev)) (snd (snd ev))) tree)
            (e2 :: evs)).
  rewrite IH.
  change (removelast (ev :: e2 :: evs)) with (ev :: removelast (e2 :: evs)).
  replace (last (e2 :: evs) ev) with (last evs e2); [reflexivity|].
  clear. revert e2 ev. induction evs as [|e3 evs IH]; intros e2 ev; [reflexivity|].
  change (last (e2 :: e3 :: evs) ev) with (last (e3 :: evs) ev).
  now rewrite <- (IH e3 ev), <- (IH e3 e2).
Qed.

(** The live tree reflects the last change. *)
Lemma liveTree_reflects (ids : JsSet.t) (tree : SvgNode)
    (ev : nat * (string * string)) (evs : list (nat * (string * string))) :
  reflects ids tree (snd (last evs ev)) (liveTree ids tree (ev :: evs)).
Proof.
  unfold reflects. rewrite liveTree_last, nodes_mapSelected.
  apply (Forall2_map_of (same_frame ids));
    [|apply liveTree_same_frame].
  intros n m Hnm. split.
  - apply (same_frame_trans ids n m); [exact Hnm|apply same_frame_mapSelected].
  - intros Hsel. apply written_mapSelected.
    destruct Hnm as (Hid & _). now rewrite Hid.
Qed.

(** C6: a burst of color changes, each less than 500 ms after the one
    before, made with a tree loaded, a selection and no save pending.
    Every change replaces the live tree at once: after each prefix of the
    burst the live tree is the tree with the changes so far applied, and it
    reflects the last of them, every selected node carrying the value just
    written and every other node its old attributes.  The history is left
    as it was, and stays so until 500 ms after the last change; from then
    on it is the old history up to the cursor followed by exactly one new
    entry, the latest tree, with the cursor on it and no further save
    pending. *)
Theorem color_burst_one_snapshot (s : App) (tree : SvgNode)
    (ev : nat * (string * string)) (rest : list (nat * (string * string))) :
  svgTree s = Some tree -> selectedIds s <> [] -> pendingSave s = None ->
  spaced (fst ev) rest ->
  let ids := selectedIds s in
  let final := liveTree ids tree (ev :: rest) in
  let tN := last_time (fst ev) rest in
  (forall pre post, rest = (pre ++ post)%list ->
     exists s1, colorChanges (ev :: pre) s = Some s1
                /\ svgTree s1 = Some (liveTree ids tree (ev :: pre))
                /\ reflects ids tree (snd (last pre ev)) (liveTree ids tree (ev :: pre))
                /\ history s1 = history s
                /\ historyIndex s1 = historyIndex s)
  /\ exists sN,
       colorChanges (ev :: rest) s = Some sN
       /\ svgTree sN = Some final
       /\ reflects ids tree (snd (last rest ev)) final
       /\ (forall t, t < tN + 500 ->
             history (advance t sN) = history s
             /\ historyIndex (advance t sN) = historyIndex s
             /\ svgTree (advance t sN) = Some final)
       /\ (forall t, tN + 500 <= t ->
             history (advance t sN)
             = (slice0 (history s) (historyIndex s + 1) ++ [final])%list
             /\ historyIndex (advance t sN)
                = (Z.of_nat (length (history (advance t sN))) - 1)%Z
             /\ svgTree (advance t sN) = Some final
             /\ pendingSave (advance t sN) = None).
Proof.
  intros Ht Hsel Hp Hsp ids final tN.
  destruct (first_colorChange s tree ev Ht Hsel Hp) as (s1 & Hrun1 & Hmid1).
  fold ids in Hmid1.
  assert (Hruns : forall evs, spaced (fst ev) evs ->
            exists s', colorChanges (ev :: evs) s = Some s'
                       /\ mid_burst (history s) (historyIndex s) ids
                            (liveTree ids tree (ev :: evs))
                            (last_time (fst ev) evs) s').
  { intros evs Hevs.
    destruct (colorChanges_mid_burst _ _ ids evs Hsel _ _ _ Hmid1 Hevs)
      as (s' & Hrun & Hmid).
    exists s'. split; [|exact Hmid].
    cbn [colorChanges]. rewrite Hrun1. exact Hrun. }
  split.
  - intros pre post E. subst rest.
    destruct (Hruns pre (spaced_prefix _ _ _ Hsp)) as (s' & Hrun & Hmid).
    exists s'. destruct Hmid as (H1 & _ & _ & H4 & H5 & _).
    split; [exact Hrun|]. split; [exact H1|].
    split; [apply liveTree_reflects|]. split; assumption.
  - destruct (Hruns rest Hsp) as (sN & Hrun & Hmid).
    exists sN. split; [exact Hrun|]. split; [apply Hmid|].
    split; [apply liveTree_reflects|].
    split; intros t Hcmp.
    + exact (proj1 (mid_burst_advance _ _ _ _ _ _ t Hmid) Hcmp).
    + exact (proj2 (mid_burst_advance _ _ _ _ _ _ t Hmid) Hcmp).
Qed.

Lemma color_burst_one_snapshot_witness :
  exists sN live,
    colorChanges ((0, ("fill", "#111111")) :: sample_burst_rest) (sample_app ["a"])
    = Some sN
    /\ svgTree sN = Some live
    /\ reflects ["a"] sample_tree ("fill", "#333333") live
    /\ findNode (Some live) (Some "a")
       = Some (mkNode "a" "rect"
                 [("id", "a"); ("data-id", "a"); ("style", "fill: #333333");
                  ("fill", "#333333")]
                 [] None)
    /\ history (advance 799 sN) = [sample_tree]
    /\ length (history (advance 800 sN)) = 2.
Proof.
  assert (Hsel : selectedIds (sample_app ["a"]) <> []) by discriminate.
  assert (Hsp : spaced (fst (0, ("fill", "#111111"))) sample_burst_rest)
    by (simpl; lia).
  destruct (proj2 (color_burst_one_snapshot (sample_app ["a"]) sample_tree
                     (0, ("fill", "#111111")) sample_burst_rest
                     eq_refl Hsel eq_refl Hsp))
    as (sN & Hrun & Hlive & Hreflects & Hbefore & Hafter).
  exists sN, (liveTree ["a"] sample_tree ((0, ("fill", "#111111")) :: sample_burst_rest)).
  split; [exact Hrun|]. split; [exact Hlive|]. split; [exact Hreflects|].
  split; [reflexivity|]. split.
  - apply (Hbefore 799). simpl. lia.
  - rewrite (proj1 (Hafter 800 (le_n _))). reflexivity.
Defined.
